(** * StringZilla, serial backend: a shallow embedding of [src/serial.c]

    The C functions of [src/src/serial.c] are embedded as Rocq functions over
    a flat byte-addressed memory, for a 64-bit little-endian target with the
    header's default [SZ_USE_MISALIGNED_LOADS].  Pointers are addresses
    ([Z], without wrap-around), lengths and loop counters of type
    [sz_size_t] that count bytes of an object are [nat], machine words are
    [Z] with the wrap-around of their width written out, and every loop
    whose trip count is decided by a pointer comparison carries a fuel
    argument (set by the caller of the loop from the lengths).  The
    caller's memory is total: a read past a string returns what the memory
    holds there.  Local tables and the scratch buffer are arrays: a function
    returns [None] where the C code has no defined result, that is, where an
    array is indexed outside its bounds, or where fuel ran out (the
    theorems on termination below show where it cannot). *)

From Stdlib Require Import Strings.Byte Strings.String.
From Stdlib Require Import ZArith NArith List Bool Lia.
Import ListNotations.
Open Scope Z_scope.

(** ** Machine words *)

Module Word.

Definition wrap (w x : Z) : Z := x mod 2 ^ w.

Definition u8 : Z -> Z := wrap 8.
Definition u16 : Z -> Z := wrap 16.
Definition u32 : Z -> Z := wrap 32.
Definition u64 : Z -> Z := wrap 64.

Definition max_u64 : Z := 2 ^ 64 - 1.

(** Conversion of a 64-bit pattern to [long long]. *)
Definition s64 (x : Z) : Z :=
  let r := u64 x in if r <? 2 ^ 63 then r else r - 2 ^ 64.

(** [~x], [x << n], [x >> n], [x + y], [x * y] on [unsigned long long]. *)
Definition not64 (x : Z) : Z := Z.lxor (u64 x) max_u64.
Definition shl64 (x n : Z) : Z := u64 (Z.shiftl x n).
Definition shr64 (x n : Z) : Z := Z.shiftr (u64 x) n.
Definition add64 (x y : Z) : Z := u64 (x + y).
Definition mul64 (x y : Z) : Z := u64 (x * y).

(** [__builtin_ctzll]: index of the lowest set bit (the C builtin is
    undefined at 0; every call site guards against it). *)
Fixpoint ctz_from (n : nat) (i x : Z) : Z :=
  match n with
  | O => i
  | S n' => if Z.testbit x i then i else ctz_from n' (i + 1) x
  end.
Definition sz_ctz64 (x : Z) : Z := ctz_from 64 0 x.

(** [__builtin_clzll]: number of zero bits above the highest set bit. *)
Definition sz_clz64 (x : Z) : Z := 63 - Z.log2 (u64 x).

(** [__builtin_bswap64]. *)
Definition byte_of (x i : Z) : Z := Z.land (Z.shiftr x (8 * i)) 255.
Definition sz_u64_byte_reverse (x : Z) : Z :=
  fold_left (fun acc i => Z.lor acc (Z.shiftl (byte_of x i) (8 * (7 - i))))
            [0; 1; 2; 3; 4; 5; 6; 7] 0.

(** Writing one member of [sz_u64_parts_t.u8s] (little-endian union). *)
Definition set_u8 (w i b : Z) : Z :=
  Z.lor (Z.land (u64 w) (not64 (Z.shiftl 255 (8 * i)))) (Z.shiftl (u8 b) (8 * i)).

(** [sz_min_of_two(x, y)] is [(x < y ? x : y)]; [sz_min_of_three] nests it. *)
Definition sz_min_of_two (x y : Z) : Z := if x <? y then x else y.
Definition sz_min_of_three (x y z : Z) : Z :=
  sz_min_of_two x (sz_min_of_two y z).

End Word.
Import Word.

(** ** Memory and the platform's [char] *)

(** The bytes the caller's pointers address. *)
Definition mem : Type := Z -> byte.

Definition byte_val (b : byte) : Z := Z.of_N (Byte.to_N b).

(** The bytes of the string [(p, n)]. *)
Fixpoint bytes_at (m : mem) (p : Z) (n : nat) : list byte :=
  match n with
  | O => []
  | S n' => m p :: bytes_at m (p + 1) n'
  end.

(** Little-endian load of [n] bytes, as [sz_u16/u32/u64_unaligned_load] and
    the [*(sz_u64_t const * )text] casts do on the supported targets. *)
Fixpoint le_load (m : mem) (p : Z) (n : nat) : Z :=
  match n with
  | O => 0
  | S n' => Z.lor (byte_val (m p)) (Z.shiftl (le_load m (p + 1) n') 8)
  end.

Definition sz_u16_unaligned_load (m : mem) (p : Z) : Z := le_load m p 2.
Definition sz_u32_unaligned_load (m : mem) (p : Z) : Z := le_load m p 4.
Definition sz_u64_unaligned_load (m : mem) (p : Z) : Z := le_load m p 8.

(** [sz_cptr_t] is [char const *], and whether plain [char] is signed is the
    platform's choice: it is on the x86-64 targets the header detects, it is
    not on AArch64 Linux. *)
Class ABI : Type := { char_signed : bool }.

Definition x86_64_abi : ABI := {| char_signed := true |}.
Definition aarch64_abi : ABI := {| char_signed := false |}.

(** The value of a [char] holding the byte [b]. *)
Definition char_val {abi : ABI} (b : byte) : Z :=
  let u := byte_val b in
  if char_signed then (if 128 <=? u then u - 256 else u) else u.

(** Error monad for the partial operations. *)
Definition bind {A B : Type} (x : option A) (k : A -> option B) : option B :=
  match x with
  | Some a => k a
  | None => None
  end.

Notation "x <- e ;; k" := (bind e (fun x => k))
  (at level 61, e at next level, right associativity).
Notation "' p <- e ;; k" := (bind e (fun p => k))
  (at level 61, p pattern, e at next level, right associativity).

(** Reading a local table ([T table[n]]) at a C [int] index. *)
Definition table_get {A : Type} (t : list A) (i : Z) : option A :=
  if i <? 0 then None else nth_error t (Z.to_nat i).

(** ** Hash: [sz_hash_serial] *)

Section Hash.
Context {abi : ABI}.

Definition sz_rotl64 (x r : Z) : Z :=
  Z.lor (shl64 x r) (shr64 x (64 - r)).

Definition c1 : Z := 0x87c37b91114253d5.
Definition c2 : Z := 0x4cf5ad432745937f.

(** [k1 *= c1; k1 = rotl(k1, 31); k1 *= c2] and the mirror for [k2]. *)
Definition mix_k1 (k1 : Z) : Z := mul64 (sz_rotl64 (mul64 k1 c1) 31) c2.
Definition mix_k2 (k2 : Z) : Z := mul64 (sz_rotl64 (mul64 k2 c2) 33) c1.

Record hash_state : Type := mk_hash_state
  { hs_start : Z; hs_length : nat; hs_h1 : Z; hs_h2 : Z }.

(** [for (; length >= 16; length -= 16, start += 16)]. *)
Fixpoint hash_blocks (fuel : nat) (m : mem) (s : hash_state)
  : option hash_state :=
  if (16 <=? hs_length s)%nat then
    match fuel with
    | O => None
    | S fuel' =>
        let k1 := sz_u64_unaligned_load m (hs_start s) in
        let k2 := sz_u64_unaligned_load m (hs_start s + 8) in
        let h1 := Z.lxor (hs_h1 s) (mix_k1 k1) in
        let h1 := sz_rotl64 h1 27 in
        let h1 := add64 h1 (hs_h2 s) in
        let h1 := add64 (mul64 h1 5) 0x52dce729 in
        let h2 := Z.lxor (hs_h2 s) (mix_k2 k2) in
        let h2 := sz_rotl64 h2 31 in
        let h2 := add64 h2 h1 in
        let h2 := add64 (mul64 h2 5) 0x38495ab5 in
        hash_blocks fuel' m
          (mk_hash_state (hs_start s + 16) (hs_length s - 16) h1 h2)
    end
  else Some s.

(** [k.u8s[i] = start[j]]: the [char] converted to [sz_u8_t]. *)
Definition put (m : mem) (start : Z) (k i j : Z) : Z :=
  set_u8 k i (u8 (char_val (m (start + j)))).

(** A statement under [case c] of a switch with fall-through runs exactly
    when the selector [sel] is at least [c]; [k'] is the value it leaves
    in the variable that held [k]. *)
Definition on_case (sel c : Z) (k k' : Z) : Z := if c <=? sel then k' else k.

(** The [switch (length & 15)] after the block loop. *)
Definition hash_tail (m : mem) (s : hash_state) : Z * Z :=
  let start := hs_start s in
  let sel := Z.land (Z.of_nat (hs_length s)) 15 in
  let k2 := 0 in
  let k2 := on_case sel 15 k2 (put m start k2 6 14) in
  let k2 := on_case sel 14 k2 (put m start k2 5 13) in
  let k2 := on_case sel 13 k2 (put m start k2 4 12) in
  let k2 := on_case sel 12 k2 (put m start k2 3 11) in
  let k2 := on_case sel 11 k2 (put m start k2 2 10) in
  let k2 := on_case sel 10 k2 (put m start k2 1 9) in
  let k2 := on_case sel 9 k2 (put m start k2 0 8) in
  let h2 := on_case sel 9 (hs_h2 s) (Z.lxor (hs_h2 s) (mix_k2 k2)) in
  let k1 := 0 in
  let k1 := on_case sel 8 k1 (put m start k1 7 7) in
  let k1 := on_case sel 7 k1 (put m start k1 6 6) in
  let k1 := on_case sel 6 k1 (put m start k1 5 5) in
  let k1 := on_case sel 5 k1 (put m start k1 4 4) in
  let k1 := on_case sel 4 k1 (put m start k1 3 3) in
  let k1 := on_case sel 3 k1 (put m start k1 2 2) in
  let k1 := on_case sel 2 k1 (put m start k1 1 1) in
  let k1 := on_case sel 1 k1 (put m start k1 0 0) in
  let h1 := on_case sel 1 (hs_h1 s) (Z.lxor (hs_h1 s) (mix_k1 k1)) in
  (h1, h2).

Definition sz_hash_serial (m : mem) (start : Z) (length : nat) : option Z :=
  let h := u64 (Z.of_nat length) in
  s <- hash_blocks length m (mk_hash_state start length h h) ;;
  let '(h1, h2) := hash_tail m s in
  Some (add64 h1 h2).

End Hash.

(** ** Control flow of the pointer loops *)

(** A [char const *] result: [NULL] or an address. *)
Inductive sz_cptr_t : Type :=
| NULL
| Ptr (p : Z).

(** [for (; guard s; s = next s) { body }], where [body s = Some r] stands
    for [return r] inside the loop.  The loop ends with [inl r] on a
    [return] and with [inr s] when the guard fails at state [s]. *)
Fixpoint for_loop {S R : Type} (fuel : nat) (guard : S -> bool)
  (body : S -> option R) (next : S -> S) (s : S) : option (R + S) :=
  if guard s then
    match fuel with
    | O => None
    | S fuel' =>
        match body s with
        | Some r => Some (inl r)
        | None => for_loop fuel' guard body next (next s)
        end
    end
  else Some (inr s).

(** Sequencing of a loop with the code after it. *)
Definition after {S R : Type} (l : option (R + S)) (k : S -> option R)
  : option R :=
  r <- l ;;
  match r with
  | inl x => Some x
  | inr s => k s
  end.

Notation "s <~ l ;; k" := (after l (fun s => k))
  (at level 61, l at next level, right associativity).

(** ** Byte primitives *)

Section Primitives.
Context {abi : ABI}.

(** [*p == *q] on two [char]s. *)
Definition char_eq (m : mem) (p q : Z) : bool := Byte.eqb (m p) (m q).

(** [sz_equal_serial], the [SZ_USE_MISALIGNED_LOADS] branch (the header's
    default): a switch on [length] that jumps back to itself after eight
    equal bytes. *)
Fixpoint sz_equal_serial (m : mem) (a b : Z) (length : nat) : bool :=
  match length with
  | 0%nat => true
  | 1%nat => char_eq m a b
  | 2%nat => sz_u16_unaligned_load m a =? sz_u16_unaligned_load m b
  | 3%nat => (sz_u16_unaligned_load m a =? sz_u16_unaligned_load m b)
             && char_eq m (a + 2) (b + 2)
  | 4%nat => sz_u32_unaligned_load m a =? sz_u32_unaligned_load m b
  | 5%nat => (sz_u32_unaligned_load m a =? sz_u32_unaligned_load m b)
             && char_eq m (a + 4) (b + 4)
  | 6%nat => (sz_u32_unaligned_load m a =? sz_u32_unaligned_load m b)
             && (sz_u16_unaligned_load m (a + 4) =? sz_u16_unaligned_load m (b + 4))
  | 7%nat => (sz_u32_unaligned_load m a =? sz_u32_unaligned_load m b)
             && (sz_u16_unaligned_load m (a + 4) =? sz_u16_unaligned_load m (b + 4))
             && char_eq m (a + 6) (b + 6)
  | 8%nat => sz_u64_unaligned_load m a =? sz_u64_unaligned_load m b
  | S (S (S (S (S (S (S (S (S _ as rest)))))))) =>
      if negb (sz_u64_unaligned_load m a =? sz_u64_unaligned_load m b)
      then false
      else sz_equal_serial m (a + 8) (b + 8) rest
  end.

Inductive sz_ordering_t : Type := sz_less_k | sz_equal_k | sz_greater_k.

(** [sz_ordering_t ordering_lookup[2] = {sz_greater_k, sz_less_k}], read at
    the value of a C comparison. *)
Definition ordering_lookup (lt : bool) : sz_ordering_t :=
  if lt then sz_less_k else sz_greater_k.

(** [sz_order_serial] with [SZ_USE_MISALIGNED_LOADS] (without it the
    function does not declare [a_shorter] and [min_end]). *)
Definition sz_order_serial (m : mem) (a : Z) (a_length : nat)
  (b : Z) (b_length : nat) : option sz_ordering_t :=
  let a_shorter := (a_length <? b_length)%nat in
  let min_length := if a_shorter then a_length else b_length in
  let min_end := a + Z.of_nat min_length in
  let fuel := S min_length in
  ab <~ for_loop fuel
          (fun ab : Z * Z => fst ab + 8 <=? min_end)
          (fun ab =>
             let a_vec := sz_u64_byte_reverse (sz_u64_unaligned_load m (fst ab)) in
             let b_vec := sz_u64_byte_reverse (sz_u64_unaligned_load m (snd ab)) in
             if negb (a_vec =? b_vec)
             then Some (ordering_lookup (a_vec <? b_vec))
             else None)
          (fun ab => (fst ab + 8, snd ab + 8))
          (a, b) ;;
  _ <~ for_loop fuel
         (fun ab : Z * Z => negb (fst ab =? min_end))
         (fun ab =>
            if negb (char_eq m (fst ab) (snd ab))
            then Some (ordering_lookup
                         (char_val (m (fst ab)) <? char_val (m (snd ab))))
            else None)
         (fun ab => (fst ab + 1, snd ab + 1))
         ab ;;
  Some (if negb (a_length =? b_length)%nat
        then ordering_lookup a_shorter
        else sz_equal_k).

(** [sz_u64_each_byte_equal]: the top bit of every byte where [a] and [b]
    agree. *)
Definition sz_u64_each_byte_equal (a b : Z) : Z :=
  let match_indicators := not64 (Z.lxor a b) in
  Z.land (add64 (Z.land match_indicators 0x7F7F7F7F7F7F7F7F) 0x0101010101010101)
         (Z.land match_indicators 0x8080808080808080).

(** [(sz_u64_t)needle[0] * 0x0101010101010101ull]. *)
Definition broadcast_byte (m : mem) (needle : Z) : Z :=
  mul64 (u64 (char_val (m needle))) 0x0101010101010101.

Definition sz_find_byte_serial (m : mem) (haystack : Z)
  (haystack_length : nat) (needle : Z) : option sz_cptr_t :=
  let text := haystack in
  let end_ := haystack + Z.of_nat haystack_length in
  let fuel := S haystack_length in
  text <~ for_loop fuel
            (fun text => negb (Z.land text 7 =? 0) && (text <? end_))
            (fun text => if char_eq m text needle then Some (Ptr text) else None)
            (fun text => text + 1)
            text ;;
  let needle_vec := broadcast_byte m needle in
  text <~ for_loop fuel
            (fun text => text + 8 <=? end_)
            (fun text =>
               let text_slice := le_load m text 8 in
               let match_indicators := sz_u64_each_byte_equal text_slice needle_vec in
               if negb (match_indicators =? 0)
               then Some (Ptr (text + sz_ctz64 match_indicators / 8))
               else None)
            (fun text => text + 8)
            text ;;
  _ <~ for_loop fuel
         (fun text => text <? end_)
         (fun text => if char_eq m text needle then Some (Ptr text) else None)
         (fun text => text + 1)
         text ;;
  Some NULL.

Definition sz_rfind_byte_serial (m : mem) (haystack : Z)
  (haystack_length : nat) (needle : Z) : option sz_cptr_t :=
  let end_ := haystack + Z.of_nat haystack_length in
  let text := end_ - 1 in
  let fuel := S haystack_length in
  text <~ for_loop fuel
            (fun text => negb (Z.land text 7 =? 0) && (haystack <=? text))
            (fun text => if char_eq m text needle then Some (Ptr text) else None)
            (fun text => text - 1)
            text ;;
  let needle_vec := broadcast_byte m needle in
  text <~ for_loop fuel
            (fun text => haystack <=? text - 8)
            (fun text =>
               let text_slice := le_load m text 8 in
               let match_indicators := sz_u64_each_byte_equal text_slice needle_vec in
               if negb (match_indicators =? 0)
               then Some (Ptr (text - 8 + sz_clz64 match_indicators / 8))
               else None)
            (fun text => text - 8)
            text ;;
  _ <~ for_loop fuel
         (fun text => haystack <=? text)
         (fun text => if char_eq m text needle then Some (Ptr text) else None)
         (fun text => text - 1)
         text ;;
  Some NULL.

End Primitives.

(** ** [sz_order_terminated] and the helpers of the header *)

(** An [int] ([sz_i32_t]) holds [z]. *)
Definition i32_ok (z : Z) : bool := (- 2 ^ 31 <=? z) && (z <? 2 ^ 31).

(** [sz_i32_min_of_two]: [y + ((x - y) & (x - y) >> 31)] on [sz_i32_t].
    The subtraction and the addition have no defined result when they leave
    the range of [int]; [>>] on a negative [int] is the arithmetic shift of
    the compilers the header supports. *)
Definition sz_i32_min_of_two (x y : Z) : option Z :=
  let d := x - y in
  if i32_ok d then
    let r := y + Z.land d (Z.shiftr d 31) in
    if i32_ok r then Some r else None
  else None.

(** Reading the [u32] member of the unions of [sz_export_prefix_u32] after
    its four [u8s] were written (little-endian). *)
Definition u32_of_u8s (b0 b1 b2 b3 : Z) : Z :=
  Z.lor (Z.lor (Z.lor b0 (Z.shiftl b1 8)) (Z.shiftl b2 16)) (Z.shiftl b3 24).

Section Header.
Context {abi : ABI}.

(** [sz_export_prefix_u32]; the pair is [( *prefix_out, *mask_out)]. *)
Definition sz_export_prefix_u32 (m : mem) (text : Z) (length : nat) : Z * Z :=
  let t := fun k => u8 (char_val (m (text + k))) in
  match length with
  | 1%nat => (u32_of_u8s (t 0) 0 0 0, u32_of_u8s 0xFF 0 0 0)
  | 2%nat => (u32_of_u8s (t 0) (t 1) 0 0, u32_of_u8s 0xFF 0xFF 0 0)
  | 3%nat => (u32_of_u8s (t 0) (t 1) (t 2) 0, u32_of_u8s 0xFF 0xFF 0xFF 0)
  | _ => (u32_of_u8s (t 0) (t 1) (t 2) (t 3), 0xFFFFFFFF)
  end.

(** [sz_order_terminated]: the loop runs until one of the strings ends, so
    it is driven by fuel. *)
Definition sz_order_terminated (fuel : nat) (m : mem) (a b : Z)
  : option sz_ordering_t :=
  ab <~ for_loop fuel
          (fun ab : Z * Z =>
             negb (char_val (m (fst ab)) =? 0) && negb (char_val (m (snd ab)) =? 0))
          (fun ab =>
             if negb (char_val (m (fst ab)) =? char_val (m (snd ab)))
             then Some (ordering_lookup
                          (char_val (m (fst ab)) <? char_val (m (snd ab))))
             else None)
          (fun ab => (fst ab + 1, snd ab + 1))
          (a, b) ;;
  if (char_val (m (fst ab)) =? 0) && (char_val (m (snd ab)) =? 0)
  then Some sz_equal_k
  else if char_val (m (fst ab)) =? 0 then Some sz_less_k
  else Some sz_greater_k.

End Header.

(** ** Substring search *)

Section Find.
Context {abi : ABI}.

(** [sz_u64_each_2byte_equal]: the top bit of every 16-bit lane where [a]
    and [b] agree. *)
Definition sz_u64_each_2byte_equal (a b : Z) : Z :=
  let match_indicators := not64 (Z.lxor a b) in
  Z.land (add64 (Z.land match_indicators 0x7FFF7FFF7FFF7FFF) 0x0001000100010001)
         (Z.land match_indicators 0x8000800080008000).

Definition sz_find_2byte_serial (m : mem) (haystack : Z)
  (haystack_length : nat) (needle : Z) : option sz_cptr_t :=
  let text := haystack in
  let end_ := haystack + Z.of_nat haystack_length in
  let fuel := S haystack_length in
  let needle_vec := 0 in
  let needle_vec := set_u8 needle_vec 0 (u8 (char_val (m needle))) in
  let needle_vec := set_u8 needle_vec 1 (u8 (char_val (m (needle + 1)))) in
  let needle_vec := mul64 needle_vec 0x0001000100010001 in
  text <~ for_loop fuel
            (fun text => text + 8 <=? end_)
            (fun text =>
               let text_vec := sz_u64_unaligned_load m text in
               let matches_even_vec := sz_u64_each_2byte_equal text_vec needle_vec in
               let matches_odd_vec :=
                 sz_u64_each_2byte_equal (shr64 text_vec 8) needle_vec in
               if negb (add64 matches_even_vec matches_odd_vec =? 0) then
                 let match_indicators :=
                   Z.lor (shr64 matches_even_vec 8) matches_odd_vec in
                 Some (Ptr (text + sz_ctz64 match_indicators / 8))
               else None)
            (fun text => text + 7)
            text ;;
  _ <~ for_loop fuel
         (fun text => text + 2 <=? end_)
         (fun text =>
            if char_eq m text needle && char_eq m (text + 1) (needle + 1)
            then Some (Ptr text) else None)
         (fun text => text + 1)
         text ;;
  Some NULL.

(** [x &= x >> 1; x &= x >> 2; x &= x >> 4]: bit [8k] becomes the
    conjunction of the bits of byte [k]. *)
Definition fold_byte (x : Z) : Z :=
  let x := Z.land x (shr64 x 1) in
  let x := Z.land x (shr64 x 2) in
  Z.land x (shr64 x 4).

Definition three_way (x : Z) : Z :=
  let x := fold_byte x in
  Z.land (Z.land (Z.land (shr64 x 16) (shr64 x 8)) (shr64 x 0)) 0x0000010000010000.

Definition sz_find_3byte_serial (m : mem) (haystack : Z)
  (haystack_length : nat) (needle : Z) : option sz_cptr_t :=
  let text := haystack in
  let end_ := haystack + Z.of_nat haystack_length in
  let fuel := S haystack_length in
  let same3 (text : Z) : bool :=
    char_eq m text needle && char_eq m (text + 1) (needle + 1)
    && char_eq m (text + 2) (needle + 2) in
  text <~ for_loop fuel
            (fun text => negb (Z.land text 7 =? 0) && (text + 3 <=? end_))
            (fun text => if same3 text then Some (Ptr text) else None)
            (fun text => text + 1)
            text ;;
  let nn :=
    Z.lor (Z.lor (u64 (char_val (m needle)))
                 (shl64 (u64 (char_val (m (needle + 1)))) 8))
          (shl64 (u64 (char_val (m (needle + 2)))) 16) in
  let nn := Z.lor nn (shl64 nn 24) in
  let nn := shl64 nn 16 in
  text <~ for_loop fuel
            (fun text => text + 8 <=? end_)
            (fun text =>
               let text_slice := le_load m text 8 in
               let first_indicators := not64 (Z.lxor text_slice nn) in
               let second_indicators := not64 (Z.lxor (shl64 text_slice 8) nn) in
               let third_indicators := not64 (Z.lxor (shl64 text_slice 16) nn) in
               let first_indicators := three_way first_indicators in
               let second_indicators := three_way second_indicators in
               let third_indicators := three_way third_indicators in
               let match_indicators :=
                 Z.lor (Z.lor first_indicators (shr64 second_indicators 8))
                       (shr64 third_indicators 16) in
               if negb (match_indicators =? 0)
               then Some (Ptr (text + sz_ctz64 match_indicators / 8))
               else None)
            (fun text => text + 6)
            text ;;
  _ <~ for_loop fuel
         (fun text => text + 3 <=? end_)
         (fun text => if same3 text then Some (Ptr text) else None)
         (fun text => text + 1)
         text ;;
  Some NULL.

(** [unsigned char offset_in_slice[16]] as the assignments leave it.  The
    index read below only has bits 0..3, so it stays inside the table. *)
Definition offset_in_slice : list Z :=
  [0; 0; 1; 0; 2; 0; 1; 0; 3; 0; 1; 0; 2; 0; 1; 0].

(** The five folding steps of the four-byte kernel, masked to the low bit
    of each 32-bit half. *)
Definition four_way (x : Z) : Z :=
  let x := fold_byte x in
  let x := Z.land x (shr64 x 8) in
  let x := Z.land x (shr64 x 16) in
  Z.land x 0x0000000100000001.

Definition sz_find_4byte_serial (m : mem) (haystack : Z)
  (haystack_length : nat) (needle : Z) : option sz_cptr_t :=
  let text := haystack in
  let end_ := haystack + Z.of_nat haystack_length in
  let fuel := S haystack_length in
  let same4 (text : Z) : bool :=
    char_eq m text needle && char_eq m (text + 1) (needle + 1)
    && char_eq m (text + 2) (needle + 2) && char_eq m (text + 3) (needle + 3) in
  text <~ for_loop fuel
            (fun text => negb (Z.land text 7 =? 0) && (text + 4 <=? end_))
            (fun text => if same4 text then Some (Ptr text) else None)
            (fun text => text + 1)
            text ;;
  let nn :=
    Z.lor (Z.lor (Z.lor (u64 (char_val (m needle)))
                        (shl64 (u64 (char_val (m (needle + 1)))) 8))
                 (shl64 (u64 (char_val (m (needle + 2)))) 16))
          (shl64 (u64 (char_val (m (needle + 3)))) 24) in
  let nn := Z.lor nn (shl64 nn 32) in
  text <~ for_loop fuel
            (fun text => text + 8 <=? end_)
            (fun text =>
               let text_slice := le_load m text 8 in
               let text01 :=
                 Z.lor (Z.land text_slice 0x00000000FFFFFFFF)
                       (shl64 (Z.land text_slice 0x000000FFFFFFFF00) 24) in
               let text23 :=
                 Z.lor (shr64 (Z.land text_slice 0x0000FFFFFFFF0000) 16)
                       (shl64 (Z.land text_slice 0x00FFFFFFFF000000) 8) in
               let text01_indicators := four_way (not64 (Z.lxor text01 nn)) in
               let text23_indicators := four_way (not64 (Z.lxor text23 nn)) in
               if negb (add64 text01_indicators text23_indicators =? 0) then
                 let match_indicators :=
                   u8 (Z.lor (Z.lor (Z.lor (shr64 text01_indicators 31)
                                           (shl64 text01_indicators 0))
                                    (shr64 text23_indicators 29))
                             (shl64 text23_indicators 2)) in
                 Some (Ptr (text + nth (Z.to_nat match_indicators) offset_in_slice 0))
               else None)
            (fun text => text + 4)
            text ;;
  _ <~ for_loop fuel
         (fun text => text + 4 <=? end_)
         (fun text => if same4 text then Some (Ptr text) else None)
         (fun text => text + 1)
         text ;;
  Some NULL.

End Find.

(** Writing a local table at an index already read through [table_get]. *)
Fixpoint list_set {A : Type} (l : list A) (i : nat) (v : A) : list A :=
  match l, i with
  | [], _ => []
  | _ :: t, O => v :: t
  | h :: t, S i' => h :: list_set t i' v
  end.

Section Bitap.
Context {abi : ABI}.

(** The three Bitap kernels differ in the width [w] of the state and of
    the masks ([sz_u8_t], [sz_u16_t], [sz_u64_t]) and in the width [sw] of
    the shifted literal ([1u] or [1ull]). *)
Variables w sw : Z.

(** [for (i = 0; i < needle_length; ++i)
       pattern_mask[needle[i]] &= ~(1 << i);]
    The index is the [char] itself. *)
Fixpoint bitap_masks (m : mem) (needle : Z) (todo i : nat)
  (pattern_mask : list Z) : option (list Z) :=
  match todo with
  | O => Some pattern_mask
  | S todo' =>
      let c := char_val (m (needle + Z.of_nat i)) in
      old <- table_get pattern_mask c ;;
      let bit := wrap sw (Z.shiftl 1 (Z.of_nat i)) in
      let new := wrap w (Z.land old (Z.lxor bit (2 ^ sw - 1))) in
      bitap_masks m needle todo' (S i) (list_set pattern_mask (Z.to_nat c) new)
  end.

(** [for (i = 0; i < haystack_length; ++i)] over the running match. *)
Fixpoint bitap_scan (m : mem) (pattern_mask : list Z) (haystack : Z)
  (needle_length : nat) (todo i : nat) (running_match : Z)
  : option sz_cptr_t :=
  match todo with
  | O => Some NULL
  | S todo' =>
      mask <- table_get pattern_mask (char_val (m (haystack + Z.of_nat i))) ;;
      let running_match := wrap w (Z.lor (Z.shiftl running_match 1) mask) in
      let top := wrap sw (Z.shiftl 1 (Z.of_nat needle_length - 1)) in
      if Z.land running_match top =? 0
      then Some (Ptr (haystack + Z.of_nat i - Z.of_nat needle_length + 1))
      else bitap_scan m pattern_mask haystack needle_length todo' (S i) running_match
  end.

Definition bitap (m : mem) (haystack : Z) (haystack_length : nat)
  (needle : Z) (needle_length : nat) : option sz_cptr_t :=
  let running_match := 2 ^ w - 1 in
  let pattern_mask := repeat (2 ^ w - 1) 256 in
  pattern_mask <- bitap_masks m needle needle_length 0 pattern_mask ;;
  bitap_scan m pattern_mask haystack needle_length haystack_length 0 running_match.

End Bitap.

Section FindDispatch.
Context {abi : ABI}.

Definition sz_find_under64byte_serial := bitap 64 64.
Definition sz_find_under16byte_serial := bitap 16 32.
Definition sz_find_under8byte_serial := bitap 8 32.

(** The loop of [sz_find_serial] for needles longer than 64 bytes; [i] is
    reassigned inside the body, so the loop is driven by fuel. *)
Fixpoint find_long (fuel : nat) (m : mem) (haystack : Z)
  (haystack_length : nat) (needle : Z) (needle_length : nat) (i : nat)
  : option sz_cptr_t :=
  let prefix_length := 64%nat in
  if (i <=? haystack_length - needle_length)%nat then
    match fuel with
    | O => None
    | S fuel' =>
        found <- sz_find_under64byte_serial m (haystack + Z.of_nat i)
                   (haystack_length - i) needle prefix_length ;;
        match found with
        | NULL => Some NULL
        | Ptr found =>
            if sz_equal_serial m (found + Z.of_nat prefix_length)
                 (needle + Z.of_nat prefix_length)
                 (needle_length - prefix_length)
            then Some (Ptr found)
            else
              let i := Z.to_nat (found - haystack + Z.of_nat prefix_length - 1) in
              find_long fuel' m haystack haystack_length needle needle_length (S i)
        end
    end
  else Some NULL.

Definition sz_find_serial (m : mem) (haystack : Z) (haystack_length : nat)
  (needle : Z) (needle_length : nat) : option sz_cptr_t :=
  if (haystack_length <? needle_length)%nat then Some NULL
  else
    match needle_length with
    | 0%nat => Some NULL
    | 1%nat => sz_find_byte_serial m haystack haystack_length needle
    | 2%nat => sz_find_2byte_serial m haystack haystack_length needle
    | 3%nat => sz_find_3byte_serial m haystack haystack_length needle
    | 4%nat => sz_find_4byte_serial m haystack haystack_length needle
    | 5%nat | 6%nat | 7%nat | 8%nat =>
        sz_find_under8byte_serial m haystack haystack_length needle needle_length
    | _ =>
        if (needle_length <=? 16)%nat
        then sz_find_under16byte_serial m haystack haystack_length needle needle_length
        else if (needle_length <=? 64)%nat
        then sz_find_under64byte_serial m haystack haystack_length needle needle_length
        else find_long (S haystack_length) m haystack haystack_length
               needle needle_length 0
    end.

End FindDispatch.

(** ** Test memories *)

Definition byte_of_Z (z : Z) : byte :=
  match Byte.of_N (Z.to_N (u8 z)) with
  | Some b => b
  | None => Byte.x00
  end.

(** A memory holding the listed objects (address, bytes) and zero bytes
    everywhere else. *)
Fixpoint mem_of (objs : list (Z * list Z)) : mem :=
  match objs with
  | [] => fun _ => Byte.x00
  | (base, bytes) :: rest =>
      fun p =>
        if (base <=? p) && (p <? base + Z.of_nat (length bytes))
        then byte_of_Z (nth (Z.to_nat (p - base)) bytes 0)
        else mem_of rest p
  end.

(** ** Edit distance and alignment score *)

(** The scratch buffer as the kernels see it through their cast
    ([(sz_u8_t * )buffer], [(sz_size_t * )buffer], [(sz_ssize_t * )buffer]):
    an array of cells, disjoint from the input strings.  An access outside
    the array has no defined result. *)
Definition cell_get (buf : list Z) (i : nat) : option Z := nth_error buf i.

Definition cell_set (buf : list Z) (i : nat) (v : Z) : option (list Z) :=
  if (i <? length buf)%nat then Some (list_set buf i v) else None.

Definition sz_levenshtein_memory_needed (a_length b_length : nat) : Z :=
  let cells := u64 (Z.of_nat b_length + Z.of_nat b_length + 2) in
  if (a_length <? 256)%nat && (b_length <? 256)%nat
  then mul64 cells 1
  else mul64 cells 8.


Section LevenshteinKernel.
Context {abi : ABI}.

(** [_sz_levenshtein_serial_upto256bytes] and
    [_sz_levenshtein_serial_over256bytes] are the same text up to the type
    of the cells and of the three costs: [cell] is the conversion to that
    type ([u8] or [u64]). *)
Variable cell : Z -> Z.
Variables (m : mem) (a : Z) (a_length : nat) (b : Z) (b_length : nat).
Variable bound : Z.

(** [for (idx_b = 0; idx_b != (b_length + 1); ++idx_b)
       previous_distances[idx_b] = idx_b;] *)
Fixpoint lev_init (todo idx_b previous : nat) (buf : list Z)
  : option (list Z) :=
  match todo with
  | O => Some buf
  | S todo' =>
      buf <- cell_set buf (previous + idx_b) (cell (Z.of_nat idx_b)) ;;
      lev_init todo' (S idx_b) previous buf
  end.

(** The inner loop over [idx_b]; it returns the buffer and [min_distance]. *)
Fixpoint lev_row (todo idx_b idx_a previous current : nat) (buf : list Z)
  (min_distance : Z) : option (list Z * Z) :=
  match todo with
  | O => Some (buf, min_distance)
  | S todo' =>
      p1 <- cell_get buf (previous + idx_b + 1) ;;
      c0 <- cell_get buf (current + idx_b) ;;
      p0 <- cell_get buf (previous + idx_b) ;;
      let cost_deletion := cell (p1 + 1) in
      let cost_insertion := cell (c0 + 1) in
      let differ :=
        if char_eq m (a + Z.of_nat idx_a) (b + Z.of_nat idx_b) then 0 else 1 in
      let cost_substitution := cell (p0 + differ) in
      buf <- cell_set buf (current + idx_b + 1)
               (sz_min_of_three cost_deletion cost_insertion cost_substitution) ;;
      c1 <- cell_get buf (current + idx_b + 1) ;;
      lev_row todo' (S idx_b) idx_a previous current buf
        (sz_min_of_two c1 min_distance)
  end.

(** The outer loop over [idx_a], with the early return and the swap of the
    two row pointers, and the [return] after it. *)
Fixpoint lev_rows (todo idx_a previous current : nat) (buf : list Z)
  : option Z :=
  match todo with
  | O =>
      last <- cell_get buf (previous + b_length) ;;
      Some (if last <? bound then last else bound)
  | S todo' =>
      buf <- cell_set buf current (cell (Z.of_nat idx_a + 1)) ;;
      '(buf, min_distance) <- lev_row b_length 0 idx_a previous current buf bound ;;
      if bound <=? min_distance then Some bound
      else lev_rows todo' (S idx_a) current previous buf
  end.

Definition levenshtein_kernel (buffer : list Z) : option Z :=
  let previous_distances := 0%nat in
  let current_distances := (previous_distances + b_length + 1)%nat in
  buf <- lev_init (b_length + 1) 0 previous_distances buffer ;;
  lev_rows a_length 0 previous_distances current_distances buf.

End LevenshteinKernel.

Section EditDistance.
Context {abi : ABI}.

Definition sz_levenshtein_serial_upto256bytes := levenshtein_kernel u8.
Definition sz_levenshtein_serial_over256bytes := levenshtein_kernel u64.

Definition sz_levenshtein_serial (m : mem) (a : Z) (a_length : nat)
  (b : Z) (b_length : nat) (buffer : list Z) (bound : Z) : option Z :=
  let la := u64 (Z.of_nat a_length) in
  let lb := u64 (Z.of_nat b_length) in
  if (a_length =? 0)%nat then Some (if lb <=? bound then lb else bound)
  else if (b_length =? 0)%nat then Some (if la <=? bound then la else bound)
  else if (if lb <? la then bound <? la - lb else bound <? lb - la)
  then Some bound
  else if (a_length <? 256)%nat && (b_length <? 256)%nat
  then sz_levenshtein_serial_upto256bytes m a a_length b b_length bound buffer
  else sz_levenshtein_serial_over256bytes m a a_length b b_length bound buffer.

(** Number of bytes the caller's buffer holds, for the cell type the
    dispatch above selects. *)
Definition scratch_bytes (a_length b_length : nat) (buffer : list Z) : Z :=
  (if (a_length <? 256)%nat && (b_length <? 256)%nat then 1 else 8)
  * Z.of_nat (length buffer).

(** The rows of [sz_alignment_score_serial]; cells and costs are
    [sz_ssize_t], [gap] and the entries of [subs] are [char]s. *)
Section AlignmentKernel.
Variables (m : mem) (a : Z) (a_length : nat) (b : Z) (b_length : nat).
Variables (gap : byte) (subs : Z).

Fixpoint align_row (todo idx_b : nat) (a_subs : Z) (previous current : nat)
  (buf : list Z) : option (list Z) :=
  match todo with
  | O => Some buf
  | S todo' =>
      p1 <- cell_get buf (previous + idx_b + 1) ;;
      c0 <- cell_get buf (current + idx_b) ;;
      p0 <- cell_get buf (previous + idx_b) ;;
      let cost_deletion := s64 (p1 + char_val gap) in
      let cost_insertion := s64 (c0 + char_val gap) in
      let cost_substitution :=
        s64 (p0 + char_val (m (a_subs + char_val (m (b + Z.of_nat idx_b))))) in
      buf <- cell_set buf (current + idx_b + 1)
               (sz_min_of_three cost_deletion cost_insertion cost_substitution) ;;
      align_row todo' (S idx_b) a_subs previous current buf
  end.

Fixpoint align_rows (todo idx_a previous current : nat) (buf : list Z)
  : option Z :=
  match todo with
  | O => cell_get buf (previous + b_length)
  | S todo' =>
      buf <- cell_set buf current (s64 (Z.of_nat idx_a + 1)) ;;
      let a_subs := subs + char_val (m (a + Z.of_nat idx_a)) * 256 in
      buf <- align_row b_length 0 a_subs previous current buf ;;
      align_rows todo' (S idx_a) current previous buf
  end.
End AlignmentKernel.

Definition sz_alignment_score_serial (m : mem) (a : Z) (a_length : nat)
  (b : Z) (b_length : nat) (gap : byte) (subs : Z) (buffer : list Z)
  : option Z :=
  if (a_length =? 0)%nat then Some (s64 (Z.of_nat b_length))
  else if (b_length =? 0)%nat then Some (s64 (Z.of_nat a_length))
  else
    let previous_distances := 0%nat in
    let current_distances := (previous_distances + b_length + 1)%nat in
    buf <- lev_init s64 (b_length + 1) 0 previous_distances buffer ;;
    align_rows m a b b_length gap subs a_length 0
      previous_distances current_distances buf.

End EditDistance.

(** ** Character transforms *)

Section Transforms.
Context {abi : ABI}.

(** [static unsigned char lowered[256]] of [sz_char_tolower]. *)
Definition lowered : list Z :=
  [ 0;   1;   2;   3;   4;   5;   6;   7;   8;   9;   10;  11;  12;  13;  14;  15;
    16;  17;  18;  19;  20;  21;  22;  23;  24;  25;  26;  27;  28;  29;  30;  31;
    32;  33;  34;  35;  36;  37;  38;  39;  40;  41;  42;  43;  44;  45;  46;  47;
    48;  49;  50;  51;  52;  53;  54;  55;  56;  57;  58;  59;  60;  61;  62;  63;
    64;  97;  98;  99;  100; 101; 102; 103; 104; 105; 106; 107; 108; 109; 110; 111;
    112; 113; 114; 115; 116; 117; 118; 119; 120; 121; 122; 91;  92;  93;  94;  95;
    96;  97;  98;  99;  100; 101; 102; 103; 104; 105; 106; 107; 108; 109; 110; 111;
    112; 113; 114; 115; 116; 117; 118; 119; 120; 121; 122; 123; 124; 125; 126; 127;
    128; 129; 130; 131; 132; 133; 134; 135; 136; 137; 138; 139; 140; 141; 142; 143;
    144; 145; 146; 147; 148; 149; 150; 151; 152; 153; 154; 155; 156; 157; 158; 159;
    160; 161; 162; 163; 164; 165; 166; 167; 168; 169; 170; 171; 172; 173; 174; 175;
    176; 177; 178; 179; 180; 181; 182; 183; 184; 185; 186; 187; 188; 189; 190; 191;
    224; 225; 226; 227; 228; 229; 230; 231; 232; 233; 234; 235; 236; 237; 238; 239;
    240; 241; 242; 243; 244; 245; 246; 215; 248; 249; 250; 251; 252; 253; 254; 223;
    224; 225; 226; 227; 228; 229; 230; 231; 232; 233; 234; 235; 236; 237; 238; 239;
    240; 241; 242; 243; 244; 245; 246; 247; 248; 249; 250; 251; 252; 253; 254; 255 ].

(** [static unsigned char upped[256]] of [sz_char_toupper]. *)
Definition upped : list Z :=
  [ 0;   1;   2;   3;   4;   5;   6;   7;   8;   9;   10;  11;  12;  13;  14;  15;
    16;  17;  18;  19;  20;  21;  22;  23;  24;  25;  26;  27;  28;  29;  30;  31;
    32;  33;  34;  35;  36;  37;  38;  39;  40;  41;  42;  43;  44;  45;  46;  47;
    48;  49;  50;  51;  52;  53;  54;  55;  56;  57;  58;  59;  60;  61;  62;  63;
    64;  97;  98;  99;  100; 101; 102; 103; 104; 105; 106; 107; 108; 109; 110; 111;
    112; 113; 114; 115; 116; 117; 118; 119; 120; 121; 122; 91;  92;  93;  94;  95;
    96;  65;  66;  67;  68;  69;  70;  71;  72;  73;  74;  75;  76;  77;  78;  79;
    80;  81;  82;  83;  84;  85;  86;  87;  88;  89;  90;  123; 124; 125; 126; 127;
    128; 129; 130; 131; 132; 133; 134; 135; 136; 137; 138; 139; 140; 141; 142; 143;
    144; 145; 146; 147; 148; 149; 150; 151; 152; 153; 154; 155; 156; 157; 158; 159;
    160; 161; 162; 163; 164; 165; 166; 167; 168; 169; 170; 171; 172; 173; 174; 175;
    176; 177; 178; 179; 180; 181; 182; 183; 184; 185; 186; 187; 188; 189; 190; 191;
    224; 225; 226; 227; 228; 229; 230; 231; 232; 233; 234; 235; 236; 237; 238; 239;
    240; 241; 242; 243; 244; 245; 246; 215; 248; 249; 250; 251; 252; 253; 254; 223;
    224; 225; 226; 227; 228; 229; 230; 231; 232; 233; 234; 235; 236; 237; 238; 239;
    240; 241; 242; 243; 244; 245; 246; 247; 248; 249; 250; 251; 252; 253; 254; 255 ].

(** [(int)c] for the [char c] both functions take: the index they read
    their table at. *)
Definition table_index (c : byte) : Z := char_val c.

(** [return *(char * )&lowered[(int)c];] *)
Definition sz_char_tolower (c : byte) : option byte :=
  v <- table_get lowered (table_index c) ;;
  Some (byte_of_Z v).

(** [return *(char * )&upped[(int)c];] *)
Definition sz_char_toupper (c : byte) : option byte :=
  v <- table_get upped (table_index c) ;;
  Some (byte_of_Z v).

Definition mem_set (m : mem) (p : Z) (v : byte) : mem :=
  fun q => if q =? p then v else m q.

(** [for (end = text + length; text != end; ++text, ++result)
       *result = f( *text);]
    [result] may be [text] itself, so every byte is read from the memory
    the earlier iterations have written. *)
Fixpoint transform (f : byte -> option byte) (todo : nat) (m : mem)
  (text result : Z) : option mem :=
  match todo with
  | O => Some m
  | S todo' =>
      v <- f (m text) ;;
      transform f todo' (mem_set m result v) (text + 1) (result + 1)
  end.

Definition sz_tolower_serial (m : mem) (text : Z) (length : nat) (result : Z)
  : option mem := transform sz_char_tolower length m text result.

Definition sz_toupper_serial (m : mem) (text : Z) (length : nat) (result : Z)
  : option mem := transform sz_char_toupper length m text result.

Definition sz_toascii_serial (m : mem) (text : Z) (length : nat) (result : Z)
  : option mem :=
  transform (fun c => Some (byte_of_Z (Z.land (char_val c) 0x7F))) length m text result.

End Transforms.

(** ** Reference notions, in the words of the specification *)

(** The Wagner-Fischer recurrence on unbounded integers: the edit distance
    the bounded kernels are meant to clamp. *)
Fixpoint levenshtein_ref (x : list byte) : list byte -> nat :=
  match x with
  | [] => fun y => length y
  | cx :: x' =>
      fix against (y : list byte) : nat :=
        match y with
        | [] => S (length x')
        | cy :: y' =>
            Nat.min (S (levenshtein_ref x' y))
              (Nat.min (S (against y'))
                 (levenshtein_ref x' y' + (if Byte.eqb cx cy then 0 else 1)))
        end
  end.

(** Lexicographic order on unsigned bytes, the shorter string first on a
    tie. *)
Fixpoint order_ref (x y : list byte) : sz_ordering_t :=
  match x, y with
  | [], [] => sz_equal_k
  | [], _ :: _ => sz_less_k
  | _ :: _, [] => sz_greater_k
  | cx :: x', cy :: y' =>
      if byte_val cx <? byte_val cy then sz_less_k
      else if byte_val cy <? byte_val cx then sz_greater_k
      else order_ref x' y'
  end.

(** The largest position of [c] in [h]. *)
Fixpoint rfind_byte_ref (h : list byte) (c : byte) : option nat :=
  match h with
  | [] => None
  | b :: h' =>
      match rfind_byte_ref h' c with
      | Some p => Some (S p)
      | None => if Byte.eqb b c then Some O else None
      end
  end.

(** Whether [n] occurs in [h] at position [p], and the least such [p]. *)
Definition occurs_at (h n : list byte) (p : nat) : bool :=
  if list_eq_dec Byte.byte_eq_dec (firstn (length n) (skipn p h)) n
  then true else false.

Fixpoint first_occurrence (h n : list byte) (todo p : nat) : option nat :=
  match todo with
  | O => None
  | S todo' =>
      if occurs_at h n p then Some p else first_occurrence h n todo' (S p)
  end.

Definition find_ref (h n : list byte) : option nat :=
  first_occurrence h n (S (length h - length n)) 0.

(** The table the two-row kernels walk through: row [i], column [j], with
    every cost converted to the cell type as the kernel does. *)
Section Table.
Variable cell : Z -> Z.
Variable differ : nat -> nat -> Z.

Fixpoint dp_table (i : nat) : nat -> Z :=
  match i with
  | O => fun j => cell (Z.of_nat j)
  | S i' =>
      fix row (j : nat) : Z :=
        match j with
        | O => cell (Z.of_nat i' + 1)
        | S j' =>
            sz_min_of_three (cell (dp_table i' (S j') + 1))
                            (cell (row j' + 1))
                            (cell (dp_table i' j' + differ i' j'))
        end
  end.
End Table.

(** ** Notions used by the statements below *)

(** The two strings [(p1, n)] of [m1] and [(p2, n)] of [m2] hold the same
    bytes. *)
Definition agree (m1 : mem) (p1 : Z) (m2 : mem) (p2 : Z) (n : nat) : Prop :=
  forall i, 0 <= i < Z.of_nat n -> m1 (p1 + i) = m2 (p2 + i).

(** [(a[idx_a] != b[idx_b])] as the kernels add it to a cost. *)
Definition differ (m : mem) (a b : Z) (i j : nat) : Z :=
  if char_eq m (a + Z.of_nat i) (b + Z.of_nat j) then 0 else 1.

(** The first [n] cells from offset [off] hold [f 0 .. f (n-1)]. *)
Definition row_below (buf : list Z) (off : nat) (f : nat -> Z) (n : nat) : Prop :=
  forall k, (k < n)%nat -> cell_get buf (off + k) = Some (f k).

(** The two rows of [width] cells do not overlap. *)
Definition rows_apart (previous current width : nat) : Prop :=
  (previous + width <= current \/ current + width <= previous)%nat.

(** [(c != d)] as a number. *)
Definition neq (c d : byte) : nat := if Byte.eqb c d then 0%nat else 1%nat.

(** The distance between the first [i] bytes of [a] and the first [j] of
    [b]. *)
Definition prefix_distance (m : mem) (a b : Z) (i j : nat) : Z :=
  Z.of_nat (levenshtein_ref (bytes_at m a i) (bytes_at m b j)).

(** The [char]s of the string [(p, n)] have the values of its bytes: [char]
    is unsigned, or every byte of the string is below 128. *)
Definition plain_chars {abi : ABI} (m : mem) (p : Z) (n : nat) : Prop :=
  char_signed = false
  \/ forall i : nat, (i < n)%nat -> byte_val (m (p + Z.of_nat i)) < 128.

(** ** Notions for the Bitap kernels *)

Section BitapNotions.
Variable w : Z.
Variables (m : mem) (haystack needle : Z) (needle_length : nat).

(** Bit [j] of the mask of the byte [c] once [i] needle bytes are in. *)
Definition mask_bit (i : nat) (c : Z) (j : nat) : bool :=
  negb ((j <? i)%nat && (byte_val (m (needle + Z.of_nat j)) =? c)).

Definition masks_hold (pattern_mask : list Z) (i : nat) : Prop :=
  length pattern_mask = 256%nat /\
  forall c : nat, (c < 256)%nat ->
    exists v, nth_error pattern_mask c = Some v /\
              0 <= v < 2 ^ w /\
              forall j : nat, Z.of_nat j < w ->
                Z.testbit v (Z.of_nat j) = mask_bit i (Z.of_nat c) j.

(** The strings [(p, n)] and [(q, n)] hold the same bytes. *)
Definition same_bytes (p q : Z) (n : nat) : bool :=
  if list_eq_dec Byte.byte_eq_dec (bytes_at m p n) (bytes_at m q n)
  then true else false.

(** The first [S j] bytes of the needle are the [S j] haystack bytes that
    end just before position [i]. *)
Definition ends_at (i j : nat) : bool :=
  (j <? i)%nat && same_bytes (haystack + Z.of_nat (i - 1 - j)) needle (S j).

(** The running match after [i] haystack bytes: bit [j] is clear exactly
    when the first [S j] needle bytes have just been read. *)
Definition state_holds (running_match : Z) (i : nat) : Prop :=
  0 <= running_match < 2 ^ w /\
  forall j : nat, Z.of_nat j < w ->
    Z.testbit running_match (Z.of_nat j)
    = negb ((j <? needle_length)%nat && ends_at i j).

(** What the scan loop returns, read off the haystack. *)
Fixpoint scan_ref (todo i : nat) : sz_cptr_t :=
  match todo with
  | O => NULL
  | S todo' =>
      if ends_at (S i) (needle_length - 1)
      then Ptr (haystack + Z.of_nat i - Z.of_nat needle_length + 1)
      else scan_ref todo' (S i)
  end.

End BitapNotions.

(** ** Notions for the SWAR finders *)

(** The byte [b] in each of the low [n] bytes of a word. *)
Fixpoint rep_byte (b : Z) (n : nat) : Z :=
  match n with
  | O => 0
  | S n' => b + 256 * rep_byte b n'
  end.

(** [sz_u64_each_byte_equal] on words of [n] bytes, without wrap-around. *)
Definition each_byte_equal_n (n : nat) (a b : Z) : Z :=
  let match_indicators := Z.lxor (Z.lxor a b) (rep_byte 255 n) in
  Z.land (Z.land match_indicators (rep_byte 127 n) + rep_byte 1 n)
         (Z.land match_indicators (rep_byte 128 n)).

(** The word with the top bit of byte [k] set exactly where the byte at
    [p + k] is [c], for [k < n]. *)
Fixpoint flags (m : mem) (p : Z) (n : nat) (c : Z) : Z :=
  match n with
  | O => 0
  | S n' => (if byte_val (m p) =? c then 128 else 0) + 256 * flags m (p + 1) n' c
  end.

(** The numbers below [n], for exhaustive checks on bytes. *)
Definition below (n : nat) : list Z := map Z.of_nat (seq 0 n).

(** No occurrence of the needle starts before [text]. *)
Definition unseen (m : mem) (haystack needle : Z) (needle_length : nat)
  (text : Z) : Prop :=
  forall q : nat, haystack + Z.of_nat q < text ->
    same_bytes m (haystack + Z.of_nat q) needle needle_length = false.

(** What a finder is to return: the first occurrence, or [NULL]. *)
Definition found (m : mem) (haystack : Z) (haystack_length : nat)
  (needle : Z) (needle_length : nat) : sz_cptr_t :=
  match find_ref (bytes_at m haystack haystack_length)
          (bytes_at m needle needle_length) with
  | Some q => Ptr (haystack + Z.of_nat q)
  | None => NULL
  end.

(** The word whose bytes, lowest first, are [l]. *)
Fixpoint le_val (l : list Z) : Z :=
  match l with
  | [] => 0
  | x :: r => x + 256 * le_val r
  end.

(** Every element is the value of a byte. *)
Definition bytes_ok (l : list Z) : Prop := Forall (fun x => 0 <= x < 256) l.

(** Bytes of two words, combined one by one. *)
Fixpoint zip_bytes (f : Z -> Z -> Z) (a b : list Z) : list Z :=
  match a, b with
  | x :: a', y :: b' => f x y :: zip_bytes f a' b'
  | _, _ => []
  end.

(** The 16-bit lane [b] in each of the low [n] lanes of a word. *)
Fixpoint rep_lane (b : Z) (n : nat) : Z :=
  match n with
  | O => 0
  | S n' => b + 65536 * rep_lane b n'
  end.

(** [sz_u64_each_2byte_equal] on words of [n] lanes, without wrap-around. *)
Definition each_2byte_equal_n (n : nat) (a b : Z) : Z :=
  let match_indicators := Z.lxor (Z.lxor a b) (rep_lane 65535 n) in
  Z.land (Z.land match_indicators (rep_lane 32767 n) + rep_lane 1 n)
         (Z.land match_indicators (rep_lane 32768 n)).

(** The word whose 16-bit lanes, lowest first, are [l]. *)
Fixpoint lanes_val (l : list Z) : Z :=
  match l with
  | [] => 0
  | x :: r => x + 65536 * lanes_val r
  end.

(** The word with the top bit of a lane set exactly where the lane of [l]
    is [c]. *)
Fixpoint lane_flags (l : list Z) (c : Z) : Z :=
  match l with
  | [] => 0
  | x :: r => (if x =? c then 32768 else 0) + 65536 * lane_flags r c
  end.

(** The same word, from the truth values of its four lanes.  *)
Definition flags4 (e0 e1 e2 e3 : bool) : Z :=
  (if e0 then 32768 else 0)
  + 65536 * ((if e1 then 32768 else 0)
             + 65536 * ((if e2 then 32768 else 0)
                        + 65536 * ((if e3 then 32768 else 0) + 65536 * 0))).

(** ** Notions for the other statements *)

(** The answer to the same comparison with the arguments exchanged. *)
Definition mirrored (o : sz_ordering_t) : sz_ordering_t :=
  match o with
  | sz_less_k => sz_greater_k
  | sz_equal_k => sz_equal_k
  | sz_greater_k => sz_less_k
  end.

(** The string at [p] ends with its first zero byte after [n] bytes. *)
Definition terminated (m : mem) (p : Z) (n : nat) : Prop :=
  (forall i : nat, (i < n)%nat -> byte_val (m (p + Z.of_nat i)) <> 0)
  /\ byte_val (m (p + Z.of_nat n)) = 0.

(** The entries of the two case tables for the byte [c]. *)
Definition lower_of (c : byte) : byte :=
  byte_of_Z (nth (Z.to_nat (byte_val c)) lowered 0).

Definition upper_of (c : byte) : byte :=
  byte_of_Z (nth (Z.to_nat (byte_val c)) upped 0).

(** Reading [text] front to back never meets a byte written to [result]
    earlier: the buffers are the same, [result] starts before [text], or
    they do not overlap. *)
Definition forward_safe (text : Z) (length : nat) (result : Z) : Prop :=
  result <= text \/ text + Z.of_nat length <= result.

(** The entry of the substitution matrix that the kernel reads for the
    bytes [a[i]] and [b[j]]. *)
Definition subs_cost {abi : ABI} (m : mem) (subs a b : Z) (i j : nat) : Z :=
  char_val (m (subs + char_val (m (a + Z.of_nat i)) * 256
               + char_val (m (b + Z.of_nat j)))).

(** The table [sz_alignment_score_serial] walks through, two rows at a
    time: row 0 and column 0 hold their index, every other cell the cheapest
    of a deletion, an insertion and a substitution. *)
Section ScoreTable.
Variable gap : Z.
Variable cost : nat -> nat -> Z.

Fixpoint score_table (i : nat) : nat -> Z :=
  match i with
  | O => fun j => s64 (Z.of_nat j)
  | S i' =>
      fix row (j : nat) : Z :=
        match j with
        | O => s64 (Z.of_nat i' + 1)
        | S j' =>
            sz_min_of_three (s64 (score_table i' (S j') + gap))
                            (s64 (row j' + gap))
                            (s64 (score_table i' j' + cost i' j'))
        end
  end.
End ScoreTable.

(** ** Inputs the statements below evaluate the code on *)

Definition text (s : string) : list Z := map byte_val (list_byte_of_string s).

Definition nul_needle_case : mem :=
  mem_of [(4096, text "xxxxxxxab"); (8192, [97; 0])].

Definition nul_pair_case : mem :=
  mem_of [(4096, [120; 120; 120; 120; 120; 120; 0; 0]); (8192, [0; 0])].

Definition long_needle_case : mem :=
  mem_of [(4096, repeat 97 65 ++ [98]); (8192, repeat 97 64 ++ [98])].

Definition high_byte_case : mem :=
  mem_of [(4096, [1; 128; 1; 1; 1; 1; 1; 1]); (8192, [128])].

Definition order_case : mem := mem_of [(4096, [128]); (8192, [1])].

Definition order_case8 : mem :=
  mem_of [(4096, [128; 0; 0; 0; 0; 0; 0; 0]); (8192, [1; 0; 0; 0; 0; 0; 0; 0])].

Definition wrap_case : mem := mem_of [(4096, [97]); (8192, repeat 98 255)].

Definition rfind_case : mem :=
  mem_of [(4096, text "abcdefghijklmnop"); (8192, text "i"); (8200, text "c")].

Definition kitten_case : mem :=
  mem_of [(4096, text "kitten"); (8192, text "sitting")].

Definition fox_case : mem :=
  mem_of [(4096, text "the quick brown fox jumps"); (8192, text "brown")].

Definition hash_text : list Z := text "the quick brown fox jumps" ++ [200; 255].

(** The bytes of [l] read as one big-endian number, as
    [sz_u64_byte_reverse] of a little-endian load makes them. *)
Fixpoint be_val (l : list byte) : Z :=
  match l with
  | [] => 0
  | x :: l' => byte_val x * 256 ^ Z.of_nat (length l') + be_val l'
  end.

Definition terminated_case : mem :=
  mem_of [(4096, text "apple"); (8192, text "apples")].

Definition order_chain_case : mem :=
  mem_of [(4096, text "apple"); (8192, text "apples"); (12288, text "banana")].

Definition shout_case : mem := mem_of [(4096, text "Hello, World")].



(** * Properties *)

(** [lia] with the powers of two of the word sizes written out. *)
Ltac word_lia :=
  change (2 ^ 59) with 576460752303423488 in *;
  change (2 ^ 63) with 9223372036854775808 in *;
  change (2 ^ 64) with 18446744073709551616 in *;
  lia.

Lemma u8_range z : 0 <= u8 z < 256.
Proof. unfold u8, wrap. apply Z.mod_pos_bound. reflexivity. Qed.

Lemma u64_range z : 0 <= u64 z < 2 ^ 64.
Proof. unfold u64, wrap. apply Z.mod_pos_bound. reflexivity. Qed.

Lemma u64_small z : 0 <= z < 2 ^ 64 -> u64 z = z.
Proof. intros H. unfold u64, wrap. now apply Z.mod_small. Qed.

Lemma u64_le z : 0 <= z -> u64 z <= z.
Proof. intros H. unfold u64, wrap. apply Z.mod_le; lia. Qed.

Lemma s64_small z : 0 <= z < 2 ^ 63 -> s64 z = z.
Proof.
  intros H. unfold s64. rewrite u64_small by word_lia.
  destruct (Z.ltb_spec z (2 ^ 63)); lia.
Qed.

(** [lia] after evaluating the closed powers of the goal. *)
Ltac pow_lia :=
  repeat match goal with
    | |- context [Z.pow ?a ?b] =>
        let v := eval vm_compute in (Z.pow a b) in change (Z.pow a b) with v
    end;
  lia.

(** ** Pointer loops *)

Section LoopFacts.
Context {S R : Type}.
Variables (guard : S -> bool) (body : S -> option R) (next : S -> S).
Variable mu : S -> nat.
Variable Inv : S -> Prop.
Variable Post : R -> Prop.
Hypothesis mu_next : forall s, Inv s -> guard s = true -> (mu (next s) < mu s)%nat.
Hypothesis step : forall s, Inv s -> guard s = true ->
  match body s with
  | Some r => Post r
  | None => Inv (next s)
  end.

(** A loop whose step lowers a measure and keeps an invariant ends within
    as many steps as the measure counts: by a [return] of a value the body
    vouches for, or where the guard fails, in a state that satisfies the
    invariant. *)
Lemma for_loop_spec : forall fuel s,
  (mu s < fuel)%nat -> Inv s ->
  exists r, for_loop fuel guard body next s = Some r /\
            match r with
            | inl x => Post x
            | inr s' => Inv s' /\ guard s' = false /\ (mu s' <= mu s)%nat
            end.
Proof.
  induction fuel as [|fuel IH]; intros s Hs HI; [lia|].
  cbn [for_loop]. destruct (guard s) eqn:G.
  - specialize (step s HI G). destruct (body s) as [r|].
    + exists (inl r). split; [reflexivity | exact step].
    + destruct (IH (next s)) as (r & E & Hr); [|exact step|].
      { specialize (mu_next s HI G). lia. }
      exists r. split; [exact E|].
      destruct r as [x|s']; [exact Hr|].
      destruct Hr as (HI' & G' & Hle).
      specialize (mu_next s HI G). repeat split; auto. lia.
  - exists (inr s). split; [reflexivity|]. auto.
Qed.
End LoopFacts.

(** Turns the truth of a loop guard into arithmetic facts. *)
Ltac guard_facts G :=
  cbv beta in G;
  repeat match type of G with
    | andb _ _ = true => let G' := fresh G in apply andb_true_iff in G as [G' G]
    end;
  repeat match goal with
    | H : (_ <? _) = true |- _ => apply Z.ltb_lt in H
    | H : (_ <=? _) = true |- _ => apply Z.leb_le in H
    end.



(** ** Bytes and loads as numbers *)

Lemma bytes_at_agree m1 m2 n : forall p1 p2,
  bytes_at m1 p1 n = bytes_at m2 p2 n -> agree m1 p1 m2 p2 n.
Proof.
  induction n as [|n IH]; intros p1 p2 E i Hi; [lia|].
  simpl in E. injection E as E0 E'.
  destruct (Z.eq_dec i 0) as [->|Hne].
  - now rewrite !Z.add_0_r.
  - specialize (IH _ _ E' (i - 1)).
    replace (p1 + 1 + (i - 1)) with (p1 + i) in IH by lia.
    replace (p2 + 1 + (i - 1)) with (p2 + i) in IH by lia.
    apply IH. lia.
Qed.

Lemma agree_shift m1 p1 m2 p2 n k :
  agree m1 p1 m2 p2 n -> (k <= n)%nat ->
  agree m1 (p1 + Z.of_nat k) m2 (p2 + Z.of_nat k) (n - k).
Proof.
  intros H Hk i Hi. rewrite <- !Z.add_assoc. apply H. lia.
Qed.

Lemma agree_weaken m1 p1 m2 p2 n k :
  agree m1 p1 m2 p2 n -> (k <= n)%nat -> agree m1 p1 m2 p2 k.
Proof. intros H Hk i Hi. apply H. lia. Qed.

Lemma le_load_agree m1 m2 n : forall p1 p2,
  agree m1 p1 m2 p2 n -> le_load m1 p1 n = le_load m2 p2 n.
Proof.
  induction n as [|n IH]; intros p1 p2 H; [reflexivity|].
  cbn [le_load]. f_equal.
  - f_equal. specialize (H 0). rewrite !Z.add_0_r in H. apply H. lia.
  - f_equal. apply IH. intros i Hi.
    rewrite <- !Z.add_assoc. apply H. lia.
Qed.

Lemma byte_val_range b : 0 <= byte_val b < 256.
Proof.
  unfold byte_val. pose proof (Byte.to_N_bounded b). lia.
Qed.

Lemma byte_val_inj x y : byte_val x = byte_val y -> x = y.
Proof.
  unfold byte_val. intros H. apply N2Z.inj in H.
  pose proof (Byte.of_to_N x) as Ex. pose proof (Byte.of_to_N y) as Ey.
  rewrite H in Ex. congruence.
Qed.

Lemma char_val_unsigned {abi : ABI} :
  char_signed = false -> forall c, char_val c = byte_val c.
Proof. intros H c. unfold char_val. now rewrite H. Qed.

Lemma char_val_ascii {abi : ABI} c : byte_val c < 128 -> char_val c = byte_val c.
Proof.
  intros H. unfold char_val. destruct char_signed; [|reflexivity].
  destruct (Z.leb_spec 128 (byte_val c)); [lia | reflexivity].
Qed.

Lemma plain_char_val {abi : ABI} m p n :
  plain_chars m p n ->
  forall i : nat, (i < n)%nat ->
  char_val (m (p + Z.of_nat i)) = byte_val (m (p + Z.of_nat i)).
Proof.
  intros [H|H] i Hi; [now apply char_val_unsigned | apply char_val_ascii; auto].
Qed.

Lemma plain_char_val_at {abi : ABI} m p n k :
  plain_chars m p n -> 0 <= k < Z.of_nat n ->
  char_val (m (p + k)) = byte_val (m (p + k)).
Proof.
  intros H Hk. replace k with (Z.of_nat (Z.to_nat k)) by lia.
  apply (plain_char_val m p n H). lia.
Qed.

Lemma plain_char_val_first {abi : ABI} m p n :
  plain_chars m p (S n) -> char_val (m p) = byte_val (m p).
Proof.
  intros H. rewrite <- (Z.add_0_r p). apply (plain_char_val_at m p (S n)); [assumption|lia].
Qed.

Lemma plain_chars_part {abi : ABI} m p n k n' :
  plain_chars m p n -> (k + n' <= n)%nat -> plain_chars m (p + Z.of_nat k) n'.
Proof.
  intros [H|H] Hk; [now left|]. right. intros i Hi.
  replace (p + Z.of_nat k + Z.of_nat i) with (p + Z.of_nat (k + i)) by lia.
  apply H. lia.
Qed.

Lemma plain_chars_prefix {abi : ABI} m p n n' :
  plain_chars m p n -> (n' <= n)%nat -> plain_chars m p n'.
Proof.
  intros [H|H] Hk; [now left|]. right. intros i Hi. apply H. lia.
Qed.

Lemma lor_shiftl_add lo hi k :
  0 <= k -> 0 <= lo < 2 ^ k -> Z.lor lo (Z.shiftl hi k) = lo + hi * 2 ^ k.
Proof.
  intros Hk Hlo.
  rewrite Z.shiftl_mul_pow2 by assumption.
  rewrite <- Z.lxor_lor, <- Z.add_nocarry_lxor; try reflexivity.
  all: apply Z.bits_inj'; intros n Hn; rewrite Z.land_spec, Z.bits_0.
  all: destruct (Z.lt_ge_cases n k).
  all: try (rewrite Z.mul_pow2_bits_low by lia; apply andb_false_r).
  all: rewrite <- (Z.mod_small lo (2 ^ k)) by lia.
  all: rewrite Z.mod_pow2_bits_high by lia; reflexivity.
Qed.

Lemma le_load_step m p n :
  le_load m p (S n) = byte_val (m p) + le_load m (p + 1) n * 256.
Proof.
  cbn [le_load]. pose proof (byte_val_range (m p)).
  rewrite lor_shiftl_add; [reflexivity | lia | ].
  change (2 ^ 8) with 256. lia.
Qed.

Lemma le_load_range m n : forall p, 0 <= le_load m p n < 256 ^ Z.of_nat n.
Proof.
  induction n as [|n IH]; intros p.
  - cbn. lia.
  - rewrite le_load_step. pose proof (byte_val_range (m p)).
    specialize (IH (p + 1)).
    rewrite Nat2Z.inj_succ, Z.pow_succ_r by lia. lia.
Qed.

Lemma le_load_inj m n : forall a b,
  le_load m a n = le_load m b n -> bytes_at m a n = bytes_at m b n.
Proof.
  induction n as [|n IH]; intros a b E; [reflexivity|].
  rewrite !le_load_step in E.
  pose proof (byte_val_range (m a)). pose proof (byte_val_range (m b)).
  assert (byte_val (m a) = byte_val (m b) /\ le_load m (a + 1) n = le_load m (b + 1) n)
    as [E0 E1] by lia.
  cbn [bytes_at]. f_equal; [now apply byte_val_inj | now apply IH].
Qed.

Lemma bytes_at_app m k n : forall p,
  bytes_at m p (k + n) = bytes_at m p k ++ bytes_at m (p + Z.of_nat k) n.
Proof.
  induction k as [|k IH]; intros p.
  - cbn. now rewrite Z.add_0_r.
  - cbn [Nat.add bytes_at app]. f_equal. rewrite IH. do 2 f_equal. lia.
Qed.

Lemma char_eq_true m p q : char_eq m p q = true <-> m p = m q.
Proof.
  unfold char_eq. split.
  - apply Byte.byte_dec_bl.
  - apply Byte.byte_dec_lb.
Qed.

Lemma le_load_eqb m n a b :
  (le_load m a n =? le_load m b n) = true <-> bytes_at m a n = bytes_at m b n.
Proof.
  rewrite Z.eqb_eq. split; [apply le_load_inj|].
  intros E. apply le_load_agree. now apply bytes_at_agree.
Qed.

(** ** Equality *)

Lemma bytes_at_one m p q : bytes_at m p 1 = bytes_at m q 1 <-> m p = m q.
Proof. cbn. split; congruence. Qed.

Lemma bytes_at_split_eq m k n p q :
  bytes_at m p (k + n) = bytes_at m q (k + n) <->
  bytes_at m p k = bytes_at m q k /\
  bytes_at m (p + Z.of_nat k) n = bytes_at m (q + Z.of_nat k) n.
Proof.
  rewrite !bytes_at_app. split.
  - intros E.
    assert (L : length (bytes_at m p k) = length (bytes_at m q k)).
    { clear. revert p q. induction k; intros; cbn; auto. }
    apply app_eq_app in E as [l [[E1 E2]|[E1 E2]]];
      rewrite E1 in L; rewrite length_app in L;
      destruct l; cbn in L; try lia; rewrite app_nil_r in E1; cbn in E2; auto.
  - intros [-> ->]. reflexivity.
Qed.

(** The value of [sz_equal_serial], by the chunks it loads. *)
Lemma equal_serial_spec (m : mem) (length : nat) : forall a b,
  sz_equal_serial m a b length = true <-> bytes_at m a length = bytes_at m b length.
Proof.
  induction length as [length IH] using lt_wf_ind. intros a b.
  do 9 (try destruct length as [|length]).
  - cbn. tauto.
  - cbn [sz_equal_serial]. rewrite char_eq_true. symmetry. apply bytes_at_one.
  - apply le_load_eqb.
  - cbn [sz_equal_serial]. rewrite andb_true_iff, char_eq_true.
    unfold sz_u16_unaligned_load. rewrite le_load_eqb.
    rewrite (bytes_at_split_eq m 2 1), bytes_at_one. reflexivity.
  - apply le_load_eqb.
  - cbn [sz_equal_serial]. rewrite andb_true_iff, char_eq_true.
    unfold sz_u32_unaligned_load. rewrite le_load_eqb.
    rewrite (bytes_at_split_eq m 4 1), bytes_at_one. reflexivity.
  - cbn [sz_equal_serial]. rewrite andb_true_iff.
    unfold sz_u32_unaligned_load, sz_u16_unaligned_load. rewrite !le_load_eqb.
    rewrite (bytes_at_split_eq m 4 2). reflexivity.
  - cbn [sz_equal_serial]. rewrite !andb_true_iff, char_eq_true.
    unfold sz_u32_unaligned_load, sz_u16_unaligned_load. rewrite !le_load_eqb.
    rewrite (bytes_at_split_eq m 4 3), (bytes_at_split_eq m 2 1), bytes_at_one.
    rewrite <- !Z.add_assoc. cbn [Z.of_nat Pos.of_succ_nat Pos.succ Z.add Pos.add].
    tauto.
  - apply le_load_eqb.
  - change (sz_equal_serial m a b (S (S (S (S (S (S (S (S (S length))))))))))
      with (if negb (sz_u64_unaligned_load m a =? sz_u64_unaligned_load m b)
            then false
            else sz_equal_serial m (a + 8) (b + 8) (S length)).
    change (S (S (S (S (S (S (S (S (S length))))))))) with (8 + S length)%nat.
    rewrite (bytes_at_split_eq m 8 (S length)).
    unfold sz_u64_unaligned_load.
    destruct (le_load m a 8 =? le_load m b 8) eqn:E; cbn [negb].
    + rewrite IH by lia. apply le_load_eqb in E.
      change (Z.of_nat 8) with 8. tauto.
    + split; [discriminate|]. intros [E' _].
      apply le_load_eqb in E'. congruence.
Qed.

(** [sz_equal_serial] is true exactly when the first [length] bytes match
    (zero-length inputs are equal). *)
Theorem equal_serial_iff_same_bytes (m : mem) (length : nat) : forall a b,
  sz_equal_serial m a b length = true <-> bytes_at m a length = bytes_at m b length.
Proof. apply equal_serial_spec. Qed.

(** ** Hash *)

Section HashFacts.
Context {abi : ABI}.

(** The block loop ends, and on equal bytes it ends in the same state up to
    the two start addresses. *)
Lemma hash_blocks_agree fuel m1 m2 : forall s1 s2 len h1 h2,
  agree m1 s1 m2 s2 len ->
  (len <= 16 * fuel + 15)%nat ->
  exists k len' h1' h2',
    hash_blocks fuel m1 (mk_hash_state s1 len h1 h2)
      = Some (mk_hash_state (s1 + k) len' h1' h2') /\
    hash_blocks fuel m2 (mk_hash_state s2 len h1 h2)
      = Some (mk_hash_state (s2 + k) len' h1' h2') /\
    agree m1 (s1 + k) m2 (s2 + k) len'.
Proof.
  induction fuel as [|fuel IH]; intros s1 s2 len h1 h2 Hag Hfuel.
  - exists 0, len, h1, h2. cbn [hash_blocks hs_length].
    destruct (Nat.leb_spec 16 len); [lia|].
    rewrite !Z.add_0_r. auto.
  - cbn [hash_blocks hs_length hs_start hs_h1 hs_h2].
    destruct (Nat.leb_spec 16 len) as [Hge|Hlt].
    + unfold sz_u64_unaligned_load.
      rewrite (le_load_agree m1 m2 8 s1 s2)
        by (apply agree_weaken with (n := len); [assumption | lia]).
      rewrite (le_load_agree m1 m2 8 (s1 + 8) (s2 + 8))
        by (apply agree_weaken with (n := (len - 8)%nat);
            [apply (agree_shift _ _ _ _ _ 8) | lia]; [assumption | lia]).
      match goal with
      | |- context [hash_blocks fuel m1 (mk_hash_state _ _ ?a ?b)] =>
          destruct (IH (s1 + 16) (s2 + 16) (len - 16)%nat a b)
            as (k & len' & h1' & h2' & E1 & E2 & Hag')
      end.
      * apply (agree_shift _ _ _ _ _ 16); [assumption | lia].
      * lia.
      * exists (16 + k), len', h1', h2'.
        rewrite !Z.add_assoc. auto.
    + exists 0, len, h1, h2. rewrite !Z.add_0_r. auto.
Qed.

Lemma on_case_put m1 p1 m2 p2 n sel c k i j :
  agree m1 p1 m2 p2 n -> sel <= Z.of_nat n -> 0 <= j < c ->
  on_case sel c k (put m1 p1 k i j) = on_case sel c k (put m2 p2 k i j).
Proof.
  intros H Hs Hj. unfold on_case, put.
  destruct (Z.leb_spec c sel); [|reflexivity].
  rewrite (H j) by lia. reflexivity.
Qed.

Lemma land_15_le n : Z.land (Z.of_nat n) 15 <= Z.of_nat n.
Proof.
  change 15 with (Z.ones 4). rewrite Z.land_ones by lia.
  apply Z.mod_le; lia.
Qed.

Lemma hash_tail_agree m1 m2 s1 s2 len h1 h2 :
  agree m1 s1 m2 s2 len ->
  hash_tail m1 (mk_hash_state s1 len h1 h2)
  = hash_tail m2 (mk_hash_state s2 len h1 h2).
Proof.
  intros H. unfold hash_tail. cbn [hs_start hs_length hs_h1 hs_h2].
  pose proof (land_15_le len) as Hs.
  cbv zeta.
  repeat (rewrite (on_case_put m1 s1 m2 s2 len _ _ _ _ _ H Hs) by lia).
  reflexivity.
Qed.

End HashFacts.

(** C8.  [sz_hash_serial] returns a digest for every input, the digest is
    the same for any two strings holding the same bytes, wherever they lie
    in memory and whatever surrounds them, and the digest of the empty
    string is 0. *)
Theorem hash_is_pure_and_zero_on_empty {abi : ABI} (m1 : mem) (p1 : Z)
  (m2 : mem) (p2 : Z) (n : nat) :
  bytes_at m1 p1 n = bytes_at m2 p2 n ->
  (exists d, sz_hash_serial m1 p1 n = Some d /\ sz_hash_serial m2 p2 n = Some d)
  /\ sz_hash_serial m1 p1 0 = Some 0.
Proof.
  intros E. split; [|reflexivity].
  apply bytes_at_agree in E.
  unfold sz_hash_serial.
  destruct (hash_blocks_agree n m1 m2 p1 p2 n (u64 (Z.of_nat n)) (u64 (Z.of_nat n)) E)
    as (k & len' & h1' & h2' & E1 & E2 & Hag); [lia|].
  rewrite E1, E2. cbn [bind].
  rewrite (hash_tail_agree m1 m2 (p1 + k) (p2 + k) len' h1' h2' Hag).
  destruct (hash_tail m2 _) as [a b]. eauto.
Qed.

Lemma hash_is_pure_witness :
  (exists d,
      sz_hash_serial (abi := x86_64_abi) (mem_of [(4096, hash_text)]) 4096 27 = Some d /\
      sz_hash_serial (abi := x86_64_abi)
        (mem_of [(8195, hash_text); (8222, [1; 2; 3])]) 8195 27 = Some d)
  /\ sz_hash_serial (abi := x86_64_abi) (mem_of [(4096, hash_text)]) 4096 0 = Some 0.
Proof.
  apply (hash_is_pure_and_zero_on_empty
           (mem_of [(4096, hash_text)]) 4096
           (mem_of [(8195, hash_text); (8222, [1; 2; 3])]) 8195 27).
  vm_compute. reflexivity.
Defined.

(** ** Substring search *)

(** C6.  [sz_find_serial] returns [NULL] whenever the haystack is shorter
    than the needle, and whenever the needle is empty, whatever the haystack
    is. *)
Theorem find_null_when_needle_longer_or_empty {abi : ABI} (m : mem)
  (haystack : Z) (haystack_length : nat) (needle : Z) (needle_length : nat) :
  (haystack_length < needle_length)%nat \/ needle_length = 0%nat ->
  sz_find_serial m haystack haystack_length needle needle_length = Some NULL.
Proof.
  intros [Hlt | ->]; unfold sz_find_serial.
  - destruct (Nat.ltb_spec haystack_length needle_length); [reflexivity | lia].
  - destruct (haystack_length <? 0)%nat; reflexivity.
Qed.

Lemma find_null_witness :
  sz_find_serial (abi := x86_64_abi) fox_case 8192 5 4096 25 = Some NULL
  /\ sz_find_serial (abi := x86_64_abi) fox_case 4096 25 8192 0 = Some NULL.
Proof.
  split.
  - apply (find_null_when_needle_longer_or_empty fox_case 8192 5 4096 25).
    left. lia.
  - apply (find_null_when_needle_longer_or_empty fox_case 4096 25 8192 0).
    right. reflexivity.
Defined.

(** The dispatcher on the specification's first scenario. *)
Example find_brown (abi : ABI) :
  sz_find_serial fox_case 4096 25 8192 5 = Some (Ptr (4096 + 10)).
Proof. destruct abi as [[|]]; vm_compute; reflexivity. Qed.

(** C1, at the haystack "xxxxxxxab" and the two-byte needle "a\0".  The
    odd lanes of [sz_find_2byte_serial] compare the last byte of the 8-byte
    window paired with the zero that [text_vec >> 8] shifts in, so the
    function reports position 7, where the haystack holds "ab"; the needle
    occurs nowhere in the haystack. *)
Theorem find_2byte_reports_a_position_without_a_match (abi : ABI) :
  sz_find_serial nul_needle_case 4096 9 8192 2 = Some (Ptr (4096 + 7))
  /\ bytes_at nul_needle_case (4096 + 7) 2 <> bytes_at nul_needle_case 8192 2
  /\ find_ref (bytes_at nul_needle_case 4096 9) (bytes_at nul_needle_case 8192 2)
     = None.
Proof.
  destruct abi as [[|]]; vm_compute; repeat split; congruence.
Qed.

(** The same lane makes [matches_even_vec.u64 + matches_odd_vec.u64] wrap to
    zero when the needle "\0\0" ends the window: the match at position 6
    is dropped. *)
Lemma find_2byte_misses_a_match (abi : ABI) :
  sz_find_serial nul_pair_case 4096 8 8192 2 = Some NULL
  /\ find_ref (bytes_at nul_pair_case 4096 8) (bytes_at nul_pair_case 8192 2)
     = Some 6%nat.
Proof.
  destruct abi as [[|]]; vm_compute; split; reflexivity.
Qed.

(** For needles longer than 64 bytes, a failed verification moves [i] past
    the whole 64-byte prefix, so a match that overlaps the rejected
    candidate is never tried. *)
Lemma find_long_skips_overlapping_candidates (abi : ABI) :
  sz_find_serial long_needle_case 4096 66 8192 65 = Some NULL
  /\ find_ref (bytes_at long_needle_case 4096 66) (bytes_at long_needle_case 8192 65)
     = Some 1%nat.
Proof.
  destruct abi as [[|]]; vm_compute; split; reflexivity.
Qed.

(** Where [char] is signed, [(sz_u64_t)needle[0]] sign-extends a byte above
    127 and the broadcast needle no longer repeats it. *)
Lemma find_byte_misses_high_bytes_when_char_is_signed :
  sz_find_serial (abi := x86_64_abi) high_byte_case 4096 8 8192 1 = Some NULL
  /\ sz_find_serial (abi := aarch64_abi) high_byte_case 4096 8 8192 1
     = Some (Ptr (4096 + 1)).
Proof. vm_compute; split; reflexivity. Qed.

(** C5, at the 16-byte haystack "abcdefghijklmnop" placed at an 8-aligned
    address.  The byte 'i' occurs only at position 8, the first byte of the
    aligned word the SWAR loop loads; the loop returns
    [text - 8 + clz / 8], position 7.  The byte 'c' at position 2 is never
    read: the SWAR loop stops one word early and the tail loop starts at an
    aligned address, where it only reads position 0. *)
Theorem rfind_byte_reports_a_wrong_position (abi : ABI) :
  sz_rfind_byte_serial rfind_case 4096 16 8192 = Some (Ptr (4096 + 7))
  /\ rfind_byte_ref (bytes_at rfind_case 4096 16) (rfind_case 8192) = Some 8%nat
  /\ sz_rfind_byte_serial rfind_case 4096 16 8200 = Some NULL
  /\ rfind_byte_ref (bytes_at rfind_case 4096 16) (rfind_case 8200) = Some 2%nat.
Proof. destruct abi as [[|]]; vm_compute; repeat split; reflexivity. Qed.

(** ** Order *)

(** The specification's sixth scenario. *)
Example order_apple_apples (abi : ABI) :
  sz_order_serial (mem_of [(4096, text "apple"); (8192, text "apples")])
    4096 5 8192 6 = Some sz_less_k.
Proof. destruct abi as [[|]]; vm_compute; reflexivity. Qed.

(** C2, at the one-byte strings 0x80 and 0x01 where [char] is signed.  The
    tail loop compares [*a < *b] on [char]s, so it orders 0x80 (-128) below
    0x01 and returns [sz_less_k]; on unsigned bytes the order is
    [sz_greater_k], which is also what the 8-byte loop of the same function
    returns when the two bytes are followed by seven equal ones. *)
Theorem order_tail_compares_chars_signed :
  sz_order_serial (abi := x86_64_abi) order_case 4096 1 8192 1 = Some sz_less_k
  /\ order_ref (bytes_at order_case 4096 1) (bytes_at order_case 8192 1)
     = sz_greater_k
  /\ sz_order_serial (abi := x86_64_abi) order_case8 4096 8 8192 8
     = Some sz_greater_k.
Proof. vm_compute; repeat split; reflexivity. Qed.

Lemma order_tail_is_unsigned_when_char_is :
  sz_order_serial (abi := aarch64_abi) order_case 4096 1 8192 1
  = Some sz_greater_k.
Proof. vm_compute; reflexivity. Qed.

(** Big-endian words and the lexicographic order. *)

Lemma be_val_range l : 0 <= be_val l < 256 ^ Z.of_nat (length l).
Proof.
  induction l as [|x l IH]; cbn [be_val length].
  - cbn. lia.
  - pose proof (byte_val_range x).
    rewrite Nat2Z.inj_succ, Z.pow_succ_r by lia. nia.
Qed.

Lemma order_ref_app_same p : forall x y,
  order_ref (p ++ x) (p ++ y) = order_ref x y.
Proof.
  induction p as [|c p IH]; intros x y; [reflexivity|].
  cbn [app order_ref]. rewrite Z.ltb_irrefl. apply IH.
Qed.

Lemma be_val_order : forall x y, length x = length y ->
  (be_val x = be_val y -> x = y) /\
  (be_val x <> be_val y ->
   forall x' y', order_ref (x ++ x') (y ++ y') = ordering_lookup (be_val x <? be_val y)).
Proof.
  induction x as [|cx x IH]; intros [|cy y] L; try discriminate.
  - split; [reflexivity | congruence].
  - cbn [length] in L. injection L as L.
    destruct (IH y L) as [IHeq IHne].
    pose proof (be_val_range x) as Rx. pose proof (be_val_range y) as Ry.
    pose proof (byte_val_range cx) as Rcx. pose proof (byte_val_range cy) as Rcy.
    cbn [be_val]. rewrite <- L in *.
    set (w := 256 ^ Z.of_nat (length x)) in *.
    destruct (Z.lt_trichotomy (byte_val cx) (byte_val cy)) as [Hlt|[Heq|Hgt]].
    + split; [nia|]. intros _ x' y'. cbn [app order_ref].
      destruct (Z.ltb_spec (byte_val cx) (byte_val cy)); [|lia].
      destruct (Z.ltb_spec (byte_val cx * w + be_val x) (byte_val cy * w + be_val y));
        [reflexivity | nia].
    + apply byte_val_inj in Heq. subst cy. split.
      * intros E. f_equal. apply IHeq. lia.
      * intros Hne x' y'. cbn [app order_ref]. rewrite Z.ltb_irrefl.
        rewrite IHne by lia.
        f_equal.
        destruct (Z.ltb_spec (be_val x) (be_val y));
          destruct (Z.ltb_spec (byte_val cx * w + be_val x) (byte_val cx * w + be_val y));
          try reflexivity; lia.
    + split; [nia|]. intros _ x' y'. cbn [app order_ref].
      destruct (Z.ltb_spec (byte_val cx) (byte_val cy)); [lia|].
      destruct (Z.ltb_spec (byte_val cy) (byte_val cx)); [|lia].
      destruct (Z.ltb_spec (byte_val cx * w + be_val x) (byte_val cy * w + be_val y));
        [nia | reflexivity].
Qed.

Lemma byte_of_le_load m : forall i n p, (i < n)%nat ->
  byte_of (le_load m p n) (Z.of_nat i) = byte_val (nth i (bytes_at m p n) Byte.x00).
Proof.
  unfold byte_of.
  induction i as [|i IH]; intros [|n] p Hi; try lia.
  - rewrite le_load_step. cbn [nth bytes_at Z.of_nat]. rewrite Z.mul_0_r, Z.shiftr_0_r.
    change 255 with (Z.ones 8). rewrite Z.land_ones by lia.
    change (2 ^ 8) with 256. pose proof (byte_val_range (m p)).
    rewrite Z.mod_add by lia. apply Z.mod_small. lia.
  - rewrite le_load_step. cbn [nth bytes_at].
    rewrite <- (IH n (p + 1)) by lia.
    f_equal.
    replace (8 * Z.of_nat (S i)) with (8 + 8 * Z.of_nat i) by lia.
    rewrite <- Z.shiftr_shiftr by lia. f_equal.
    rewrite Z.shiftr_div_pow2 by lia. change (2 ^ 8) with 256.
    pose proof (byte_val_range (m p)).
    rewrite Z.div_add by lia. rewrite Z.div_small by lia. reflexivity.
Qed.

Lemma lor_acc acc lo k q :
  acc = q * 2 ^ k -> 0 <= k -> 0 <= lo < 2 ^ k -> Z.lor acc lo = acc + lo.
Proof.
  intros -> Hk Hlo. rewrite Z.lor_comm, <- Z.shiftl_mul_pow2 by assumption.
  rewrite lor_shiftl_add by assumption. rewrite Z.shiftl_mul_pow2 by assumption. lia.
Qed.

Lemma byte_reverse_le_load m p :
  sz_u64_byte_reverse (le_load m p 8) = be_val (bytes_at m p 8).
Proof.
  unfold sz_u64_byte_reverse. cbn [fold_left].
  pose proof (byte_of_le_load m 0 8 p ltac:(lia)) as H0.
  pose proof (byte_of_le_load m 1 8 p ltac:(lia)) as H1.
  pose proof (byte_of_le_load m 2 8 p ltac:(lia)) as H2.
  pose proof (byte_of_le_load m 3 8 p ltac:(lia)) as H3.
  pose proof (byte_of_le_load m 4 8 p ltac:(lia)) as H4.
  pose proof (byte_of_le_load m 5 8 p ltac:(lia)) as H5.
  pose proof (byte_of_le_load m 6 8 p ltac:(lia)) as H6.
  pose proof (byte_of_le_load m 7 8 p ltac:(lia)) as H7.
  change (Z.of_nat 0) with 0 in H0. change (Z.of_nat 1) with 1 in H1.
  change (Z.of_nat 2) with 2 in H2. change (Z.of_nat 3) with 3 in H3.
  change (Z.of_nat 4) with 4 in H4. change (Z.of_nat 5) with 5 in H5.
  change (Z.of_nat 6) with 6 in H6. change (Z.of_nat 7) with 7 in H7.
  rewrite H0, H1, H2, H3, H4, H5, H6, H7. clear H0 H1 H2 H3 H4 H5 H6 H7.
  cbn [bytes_at nth be_val length].
  generalize (byte_val_range (m p)) (byte_val_range (m (p + 1)))
    (byte_val_range (m (p + 1 + 1))) (byte_val_range (m (p + 1 + 1 + 1)))
    (byte_val_range (m (p + 1 + 1 + 1 + 1)))
    (byte_val_range (m (p + 1 + 1 + 1 + 1 + 1)))
    (byte_val_range (m (p + 1 + 1 + 1 + 1 + 1 + 1)))
    (byte_val_range (m (p + 1 + 1 + 1 + 1 + 1 + 1 + 1))).
  generalize (byte_val (m p)) (byte_val (m (p + 1)))
    (byte_val (m (p + 1 + 1))) (byte_val (m (p + 1 + 1 + 1)))
    (byte_val (m (p + 1 + 1 + 1 + 1)))
    (byte_val (m (p + 1 + 1 + 1 + 1 + 1)))
    (byte_val (m (p + 1 + 1 + 1 + 1 + 1 + 1)))
    (byte_val (m (p + 1 + 1 + 1 + 1 + 1 + 1 + 1))).
  intros b0 b1 b2 b3 b4 b5 b6 b7 R0 R1 R2 R3 R4 R5 R6 R7.
  rewrite !Z.shiftl_mul_pow2 by lia.
  rewrite Z.lor_0_l.
  cbn [Z.of_nat Pos.of_succ_nat Pos.succ Z.sub Z.add Z.opp Z.pos_sub Z.mul Pos.mul
       Pos.add Pos.pred_double Z.succ_double Z.pred_double Z.double].
  rewrite (lor_acc (b0 * 2 ^ 56) _ 56 b0) by pow_lia.
  rewrite (lor_acc _ (b2 * 2 ^ 40) 48 (b0 * 2 ^ 8 + b1)) by pow_lia.
  rewrite (lor_acc _ (b3 * 2 ^ 32) 40 (b0 * 2 ^ 16 + b1 * 2 ^ 8 + b2)) by pow_lia.
  rewrite (lor_acc _ (b4 * 2 ^ 24) 32
             (b0 * 2 ^ 24 + b1 * 2 ^ 16 + b2 * 2 ^ 8 + b3)) by pow_lia.
  rewrite (lor_acc _ (b5 * 2 ^ 16) 24
             (b0 * 2 ^ 32 + b1 * 2 ^ 24 + b2 * 2 ^ 16 + b3 * 2 ^ 8 + b4)) by pow_lia.
  rewrite (lor_acc _ (b6 * 2 ^ 8) 16
             (b0 * 2 ^ 40 + b1 * 2 ^ 32 + b2 * 2 ^ 24 + b3 * 2 ^ 16 + b4 * 2 ^ 8 + b5))
    by pow_lia.
  rewrite (lor_acc _ (b7 * 2 ^ 0) 8
             (b0 * 2 ^ 48 + b1 * 2 ^ 40 + b2 * 2 ^ 32 + b3 * 2 ^ 24 + b4 * 2 ^ 16
              + b5 * 2 ^ 8 + b6)) by pow_lia.
  pow_lia.
Qed.

Lemma length_bytes_at m n : forall p, length (bytes_at m p n) = n.
Proof. induction n as [|n IH]; intros p; cbn; auto. Qed.

(** Comparing the next [w] bytes as one big-endian number, after [k] equal
    bytes, either extends the equal prefix or decides the order. *)
Lemma order_ref_chunk m a b k w la lb :
  (k + w <= la)%nat -> (k + w <= lb)%nat ->
  bytes_at m a k = bytes_at m b k ->
  let x := be_val (bytes_at m (a + Z.of_nat k) w) in
  let y := be_val (bytes_at m (b + Z.of_nat k) w) in
  (x = y -> bytes_at m a (k + w) = bytes_at m b (k + w)) /\
  (x <> y ->
   order_ref (bytes_at m a la) (bytes_at m b lb) = ordering_lookup (x <? y)).
Proof.
  intros Ha Hb P x y.
  destruct (be_val_order (bytes_at m (a + Z.of_nat k) w) (bytes_at m (b + Z.of_nat k) w))
    as [Heq Hne].
  { now rewrite !length_bytes_at. }
  split.
  - intros E. rewrite !bytes_at_app, P. f_equal. now apply Heq.
  - intros N.
    replace la with (k + (w + (la - k - w)))%nat by lia.
    replace lb with (k + (w + (lb - k - w)))%nat by lia.
    rewrite (bytes_at_app m k), (bytes_at_app m k (w + (lb - k - w))), P.
    rewrite order_ref_app_same.
    rewrite (bytes_at_app m w), (bytes_at_app m w (lb - k - w)).
    now apply Hne.
Qed.

Lemma be_val_one c : be_val [c] = byte_val c.
Proof. cbn. lia. Qed.

(** Once the common prefix is equal, the lengths decide. *)
Lemma order_ref_after_prefix m a b la lb :
  bytes_at m a (Nat.min la lb) = bytes_at m b (Nat.min la lb) ->
  order_ref (bytes_at m a la) (bytes_at m b lb) =
  if negb (la =? lb)%nat then ordering_lookup (la <? lb)%nat else sz_equal_k.
Proof.
  intros P.
  assert (Ea : bytes_at m a la
               = bytes_at m a (Nat.min la lb)
                 ++ bytes_at m (a + Z.of_nat (Nat.min la lb)) (la - Nat.min la lb))
    by (rewrite <- bytes_at_app; f_equal; lia).
  assert (Eb : bytes_at m b lb
               = bytes_at m b (Nat.min la lb)
                 ++ bytes_at m (b + Z.of_nat (Nat.min la lb)) (lb - Nat.min la lb))
    by (rewrite <- bytes_at_app; f_equal; lia).
  rewrite Ea, Eb, P, order_ref_app_same. clear Ea Eb P.
  destruct (Nat.eqb_spec la lb) as [->|N]; cbn [negb].
  - rewrite Nat.min_id, Nat.sub_diag. reflexivity.
  - destruct (Nat.ltb_spec la lb).
    + replace (la - Nat.min la lb)%nat with 0%nat by lia.
      destruct (lb - Nat.min la lb)%nat eqn:E; [lia|]. reflexivity.
    + replace (lb - Nat.min la lb)%nat with 0%nat by lia.
      destruct (la - Nat.min la lb)%nat eqn:E; [lia|]. reflexivity.
Qed.

(** The value of [sz_order_serial] where [char] is unsigned: the loop over
    eight-byte chunks, the byte loop and the length tie-break. *)
Lemma order_serial_spec {abi : ABI}
  (m : mem) (a : Z) (a_length : nat) (b : Z) (b_length : nat) :
  plain_chars m a a_length -> plain_chars m b b_length ->
  sz_order_serial m a a_length b b_length
  = Some (order_ref (bytes_at m a a_length) (bytes_at m b b_length)).
Proof.
  intros Hpa Hpb. unfold sz_order_serial.
  set (min_length := if (a_length <? b_length)%nat then a_length else b_length).
  assert (Hmin : min_length = Nat.min a_length b_length).
  { subst min_length. destruct (Nat.ltb_spec a_length b_length); lia. }
  set (min_end := a + Z.of_nat min_length).
  set (Inv := fun ab : Z * Z =>
    exists k : nat, fst ab = a + Z.of_nat k /\ snd ab = b + Z.of_nat k /\
                    (k <= min_length)%nat /\ bytes_at m a k = bytes_at m b k).
  set (Post := fun r : sz_ordering_t =>
    r = order_ref (bytes_at m a a_length) (bytes_at m b b_length)).
  set (mu := fun ab : Z * Z => Z.to_nat (min_end - fst ab)).
  match goal with |- context [for_loop ?f ?g ?bd ?n (a, b)] =>
    destruct (for_loop_spec g bd n mu Inv Post) with (fuel := f) (s := (a, b))
      as (r1 & E1 & H1) end.
  { intros s _ G. apply Z.leb_le in G. subst mu. cbn [fst]. lia. }
  { intros [a' b'] (k & Ea & Eb & Hk & P) G. cbn [fst snd] in *.
    apply Z.leb_le in G. subst a' b'.
    destruct (order_ref_chunk m a b k 8 a_length b_length) as [Heq Hne];
      [subst min_end; lia | subst min_end; lia | exact P |].
    unfold sz_u64_unaligned_load. rewrite !byte_reverse_le_load.
    destruct (Z.eqb_spec (be_val (bytes_at m (a + Z.of_nat k) 8))
                         (be_val (bytes_at m (b + Z.of_nat k) 8))) as [E|N];
      cbn [negb].
    - exists (k + 8)%nat. subst min_end. cbn [fst snd].
      split; [lia|]. split; [lia|]. split; [lia|]. now apply Heq.
    - subst Post. cbv beta. symmetry. now apply Hne. }
  { subst mu min_end. cbn [fst]. lia. }
  { exists 0%nat. cbn [fst snd].
    split; [lia|]. split; [lia|]. split; [lia|]. reflexivity. }
  unfold after at 1. rewrite E1. cbn [bind].
  destruct r1 as [r|ab1]; [now rewrite H1|].
  destruct H1 as (I1 & _ & M1).
  match goal with |- context [for_loop ?f ?g ?bd ?n ab1] =>
    destruct (for_loop_spec g bd n mu Inv Post) with (fuel := f) (s := ab1)
      as (r2 & E2 & H2) end.
  { intros [a' b'] (k & Ea & Eb & Hk & P) G. cbn [fst snd] in *.
    apply negb_true_iff, Z.eqb_neq in G. subst mu min_end. cbn [fst]. lia. }
  { intros [a' b'] (k & Ea & Eb & Hk & P) G. cbn [fst snd] in *.
    apply negb_true_iff, Z.eqb_neq in G. subst a' b'.
    assert (k < min_length)%nat by (subst min_end; lia).
    destruct (order_ref_chunk m a b k 1 a_length b_length) as [Heq Hne];
      [lia | lia | exact P |].
    cbn [bytes_at] in Heq, Hne. rewrite !be_val_one in Heq, Hne.
    rewrite (plain_char_val m a a_length Hpa), (plain_char_val m b b_length Hpb)
      by lia.
    destruct (char_eq m (a + Z.of_nat k) (b + Z.of_nat k)) eqn:E; cbn [negb].
    - apply char_eq_true in E.
      exists (k + 1)%nat. cbn [fst snd].
      split; [lia|]. split; [lia|]. split; [lia|]. apply Heq. now rewrite E.
    - subst Post. cbv beta. symmetry. apply Hne. intros N.
      apply byte_val_inj in N. apply char_eq_true in N. congruence. }
  { subst mu min_end. cbn [fst] in *. lia. }
  { exact I1. }
  unfold after. rewrite E2. cbn [bind].
  destruct r2 as [r|ab2]; [now rewrite H2|].
  destruct H2 as ((k & Ea & Eb & Hk & P) & G & _).
  apply negb_false_iff, Z.eqb_eq in G.
  assert (k = min_length) by (subst min_end; lia). subst k.
  rewrite Hmin in P. rewrite (order_ref_after_prefix m a b a_length b_length P).
  reflexivity.
Qed.

(** Where [char] is unsigned, [sz_order_serial] returns, and returns the
    lexicographic order of the two strings on unsigned bytes, the shorter
    first on a tie. *)
Theorem order_serial_is_lexicographic_when_char_is_unsigned {abi : ABI}
  (m : mem) (a : Z) (a_length : nat) (b : Z) (b_length : nat) :
  char_signed = false ->
  sz_order_serial m a a_length b b_length
  = Some (order_ref (bytes_at m a a_length) (bytes_at m b b_length)).
Proof. intros Hc. apply order_serial_spec; now left. Qed.

(** [sz_order_serial] returns the lexicographic order of the two strings
    on unsigned bytes, the shorter first on a tie, where [char] is unsigned
    and, where it is signed, for strings of bytes below 128. *)
Theorem order_serial_is_lexicographic_on_plain_chars {abi : ABI}
  (m : mem) (a : Z) (a_length : nat) (b : Z) (b_length : nat) :
  plain_chars m a a_length -> plain_chars m b b_length ->
  sz_order_serial m a a_length b b_length
  = Some (order_ref (bytes_at m a a_length) (bytes_at m b b_length)).
Proof. apply order_serial_spec. Qed.

Lemma order_serial_plain_chars_witness :
  sz_order_serial (abi := x86_64_abi) order_chain_case 4096 5 8192 6
  = Some (order_ref (bytes_at order_chain_case 4096 5)
                    (bytes_at order_chain_case 8192 6)).
Proof.
  apply (order_serial_is_lexicographic_on_plain_chars (abi := x86_64_abi)
           order_chain_case 4096 5 8192 6).
  - right. intros i Hi.
    do 5 (destruct i as [|i]; [vm_compute; reflexivity|]). lia.
  - right. intros i Hi.
    do 6 (destruct i as [|i]; [vm_compute; reflexivity|]). lia.
Defined.

Lemma order_serial_is_lexicographic_witness :
  sz_order_serial (abi := aarch64_abi) order_case8 4096 8 8192 3
  = Some (order_ref (bytes_at order_case8 4096 8) (bytes_at order_case8 8192 3)).
Proof.
  apply (order_serial_is_lexicographic_when_char_is_unsigned
           (abi := aarch64_abi) order_case8 4096 8 8192 3).
  reflexivity.
Defined.

Lemma same_bytes_same_length m a la b lb :
  bytes_at m a la = bytes_at m b lb -> la = lb.
Proof.
  intros E. apply (f_equal (@length byte)) in E.
  now rewrite !length_bytes_at in E.
Qed.

Lemma order_ref_equal : forall x y, order_ref x y = sz_equal_k <-> x = y.
Proof.
  induction x as [|c x IH]; intros [|d y]; cbn [order_ref];
    try (split; [reflexivity || discriminate | reflexivity || discriminate]).
  destruct (Z.ltb_spec (byte_val c) (byte_val d)).
  { split; [discriminate|]. intros E. injection E as -> _. lia. }
  destruct (Z.ltb_spec (byte_val d) (byte_val c)).
  { split; [discriminate|]. intros E. injection E as -> _. lia. }
  assert (c = d) by (apply byte_val_inj; lia). subst d.
  rewrite IH. split; [now intros ->|]. intros E. now injection E.
Qed.

(** Where [char] is unsigned, [sz_order_serial] answers [sz_equal_k] exactly
    for two strings of the same length and bytes. *)
Theorem order_is_equal_iff_same_strings {abi : ABI} (m : mem)
  (a : Z) (a_length : nat) (b : Z) (b_length : nat) :
  char_signed = false ->
  (sz_order_serial m a a_length b b_length = Some sz_equal_k
   <-> a_length = b_length /\ sz_equal_serial m a b a_length = true).
Proof.
  intros Hc.
  rewrite (order_serial_spec m a a_length b b_length) by now left.
  rewrite equal_serial_spec. split.
  - intros E. injection E as E. apply order_ref_equal in E.
    pose proof (same_bytes_same_length _ _ _ _ _ E). subst b_length. auto.
  - intros [<- E]. f_equal. now apply order_ref_equal.
Qed.

Lemma order_is_equal_iff_same_strings_witness :
  sz_order_serial (abi := aarch64_abi) order_case8 4096 8 4096 8 = Some sz_equal_k
  <-> 8%nat = 8%nat /\ sz_equal_serial order_case8 4096 4096 8 = true.
Proof.
  apply (order_is_equal_iff_same_strings (abi := aarch64_abi) order_case8 4096 8 4096 8).
  reflexivity.
Defined.

Lemma order_ref_mirrored : forall x y, order_ref y x = mirrored (order_ref x y).
Proof.
  induction x as [|c x IH]; intros [|d y]; cbn [order_ref mirrored];
    try reflexivity.
  destruct (Z.ltb_spec (byte_val d) (byte_val c)),
    (Z.ltb_spec (byte_val c) (byte_val d)); try reflexivity; try lia.
  apply IH.
Qed.

Lemma order_ref_less_trans : forall x y z,
  order_ref x y = sz_less_k -> order_ref y z = sz_less_k ->
  order_ref x z = sz_less_k.
Proof.
  induction x as [|c x IH]; intros [|d y] [|e z]; cbn [order_ref];
    try discriminate; try reflexivity.
  destruct (Z.ltb_spec (byte_val c) (byte_val d)),
    (Z.ltb_spec (byte_val d) (byte_val c)),
    (Z.ltb_spec (byte_val d) (byte_val e)),
    (Z.ltb_spec (byte_val e) (byte_val d)),
    (Z.ltb_spec (byte_val c) (byte_val e)),
    (Z.ltb_spec (byte_val e) (byte_val c));
    try discriminate; try reflexivity; try lia.
  apply IH.
Qed.

(** Where [char] is unsigned, or the strings hold bytes below 128,
    exchanging the two strings mirrors the answer of [sz_order_serial]. *)
Theorem order_serial_mirrors_when_exchanged {abi : ABI} (m : mem)
  (a : Z) (a_length : nat) (b : Z) (b_length : nat) :
  plain_chars m a a_length -> plain_chars m b b_length ->
  exists o,
    sz_order_serial m a a_length b b_length = Some o
    /\ sz_order_serial m b b_length a a_length = Some (mirrored o).
Proof.
  intros Hpa Hpb. rewrite !order_serial_spec by assumption.
  eexists. split; [reflexivity|]. f_equal. apply order_ref_mirrored.
Qed.

Lemma order_serial_mirrors_witness :
  exists o,
    sz_order_serial (abi := aarch64_abi) order_case8 4096 8 8192 3 = Some o
    /\ sz_order_serial (abi := aarch64_abi) order_case8 8192 3 4096 8
       = Some (mirrored o).
Proof.
  apply (order_serial_mirrors_when_exchanged (abi := aarch64_abi)
           order_case8 4096 8 8192 3); now left.
Defined.

(** Where [char] is unsigned, or the strings hold bytes below 128, the
    [sz_less_k] answers of [sz_order_serial] chain: it is a comparison a
    sort can use. *)
Theorem order_serial_less_is_transitive {abi : ABI} (m : mem)
  (a : Z) (a_length : nat) (b : Z) (b_length : nat) (c : Z) (c_length : nat) :
  plain_chars m a a_length -> plain_chars m b b_length ->
  plain_chars m c c_length ->
  sz_order_serial m a a_length b b_length = Some sz_less_k ->
  sz_order_serial m b b_length c c_length = Some sz_less_k ->
  sz_order_serial m a a_length c c_length = Some sz_less_k.
Proof.
  intros Hpa Hpb Hpc. rewrite !order_serial_spec by assumption.
  intros [= H1] [= H2]. f_equal. eapply order_ref_less_trans; eauto.
Qed.

Lemma order_serial_less_witness :
  sz_order_serial (abi := aarch64_abi) order_chain_case 4096 5 12288 6
  = Some sz_less_k.
Proof.
  apply (order_serial_less_is_transitive (abi := aarch64_abi)
           order_chain_case 4096 5 8192 6 12288 6);
    first [now left | vm_compute; reflexivity].
Defined.

(** ** Alignment score *)

(** C7.  With an empty first string [sz_alignment_score_serial] returns the
    length of the second, and with an empty second string the length of the
    first, for every gap penalty, substitution matrix and scratch buffer
    (lengths being those of objects in memory, below 2^63). *)
Theorem alignment_score_of_empty_is_length {abi : ABI} (m : mem)
  (a : Z) (a_length : nat) (b : Z) (b_length : nat)
  (gap : byte) (subs : Z) (buffer : list Z) :
  Z.of_nat a_length < 2 ^ 63 -> Z.of_nat b_length < 2 ^ 63 ->
  sz_alignment_score_serial m a 0 b b_length gap subs buffer
    = Some (Z.of_nat b_length)
  /\ sz_alignment_score_serial m a a_length b 0 gap subs buffer
    = Some (Z.of_nat a_length).
Proof.
  intros Ha Hb. unfold sz_alignment_score_serial. split.
  - cbn [Nat.eqb]. rewrite s64_small by lia. reflexivity.
  - destruct a_length as [|n]; [reflexivity|].
    cbn [Nat.eqb]. rewrite s64_small by lia. reflexivity.
Qed.

Lemma alignment_score_of_empty_witness :
  sz_alignment_score_serial (abi := x86_64_abi)
    kitten_case 4096 0 8192 7 "007"%byte 65536 [] = Some 7
  /\ sz_alignment_score_serial (abi := x86_64_abi)
    kitten_case 4096 6 8192 0 "007"%byte 65536 [] = Some 6.
Proof.
  apply (alignment_score_of_empty_is_length (abi := x86_64_abi)
           kitten_case 4096 6 8192 7 "007"%byte 65536 []);
    vm_compute; reflexivity.
Defined.

(** ** Edit distance *)

Lemma length_list_set {A} (l : list A) : forall i v,
  length (list_set l i v) = length l.
Proof.
  induction l as [|h t IH]; intros [|i] v; cbn; auto.
Qed.

Lemma nth_error_list_set_eq {A} (l : list A) : forall i v,
  (i < length l)%nat -> nth_error (list_set l i v) i = Some v.
Proof.
  induction l as [|h t IH]; intros [|i] v H; cbn in *; try lia; auto.
  apply IH. lia.
Qed.

Lemma nth_error_list_set_neq {A} (l : list A) : forall i j v,
  i <> j -> nth_error (list_set l i v) j = nth_error l j.
Proof.
  induction l as [|h t IH]; intros [|i] [|j] v H; cbn; auto; try congruence.
Qed.

Lemma cell_set_ok buf i v :
  (i < length buf)%nat ->
  exists buf',
    cell_set buf i v = Some buf' /\
    length buf' = length buf /\
    cell_get buf' i = Some v /\
    (forall j, j <> i -> cell_get buf' j = cell_get buf j).
Proof.
  intros H. exists (list_set buf i v). unfold cell_set, cell_get.
  destruct (Nat.ltb_spec i (length buf)); [|lia].
  repeat split.
  - apply length_list_set.
  - now apply nth_error_list_set_eq.
  - intros j Hj. apply nth_error_list_set_neq. congruence.
Qed.

Lemma min3_cases x y z :
  sz_min_of_three x y z = x \/ sz_min_of_three x y z = y \/ sz_min_of_three x y z = z.
Proof.
  unfold sz_min_of_three, sz_min_of_two.
  destruct (y <? z); destruct (x <? _); auto.
Qed.

Lemma min3_le x y z :
  sz_min_of_three x y z <= x /\ sz_min_of_three x y z <= y /\ sz_min_of_three x y z <= z.
Proof.
  unfold sz_min_of_three, sz_min_of_two.
  destruct (Z.ltb_spec y z);
    match goal with |- context [?u <? ?v] => destruct (Z.ltb_spec u v) end; lia.
Qed.

Lemma min3_swap x y z : sz_min_of_three x y z = sz_min_of_three y x z.
Proof.
  unfold sz_min_of_three, sz_min_of_two.
  destruct (Z.ltb_spec y z); destruct (Z.ltb_spec x z);
    repeat match goal with |- context [?u <? ?v] => destruct (Z.ltb_spec u v) end; lia.
Qed.

Lemma min2_le x y : sz_min_of_two x y <= x /\ sz_min_of_two x y <= y.
Proof. unfold sz_min_of_two. destruct (Z.ltb_spec x y); lia. Qed.

Section KernelFacts.
Variable cell : Z -> Z.
Variables (m : mem) (a b : Z) (b_length : nat) (bound : Z).

Let T := dp_table cell (differ m a b).

Lemma dp_table_step i j :
  T (S i) (S j) =
  sz_min_of_three (cell (T i (S j) + 1)) (cell (T (S i) j + 1))
                  (cell (T i j + differ m a b i j)).
Proof. reflexivity. Qed.

Lemma lev_init_spec previous : forall todo j buf,
  (j + todo = b_length + 1)%nat ->
  (previous + b_length < length buf)%nat ->
  row_below buf previous (T 0) j ->
  exists buf',
    lev_init cell todo j previous buf = Some buf' /\
    length buf' = length buf /\
    row_below buf' previous (T 0) (b_length + 1).
Proof.
  induction todo as [|todo IH]; intros j buf Hj Hlen Hrow.
  - exists buf. cbn. replace (b_length + 1)%nat with j by lia. auto.
  - cbn [lev_init].
    destruct (cell_set_ok buf (previous + j) (cell (Z.of_nat j)))
      as (buf1 & E & L1 & G1 & O1); [lia|].
    rewrite E. cbn [bind].
    destruct (IH (S j) buf1) as (buf' & E' & L' & R'); try lia.
    + intros k Hk. destruct (Nat.eq_dec k j) as [->|Hne].
      * exact G1.
      * rewrite O1 by lia. apply Hrow. lia.
    + exists buf'. split; [assumption|]. split; [congruence|assumption].
Qed.

Lemma lev_row_spec i previous current : forall todo j buf md,
  (j + todo = b_length)%nat ->
  rows_apart previous current (b_length + 1) ->
  (previous + b_length < length buf)%nat ->
  (current + b_length < length buf)%nat ->
  row_below buf previous (T i) (b_length + 1) ->
  row_below buf current (T (S i)) (j + 1) ->
  exists buf' md',
    lev_row cell m a b todo j i previous current buf md = Some (buf', md') /\
    length buf' = length buf /\
    row_below buf' previous (T i) (b_length + 1) /\
    row_below buf' current (T (S i)) (b_length + 1) /\
    md' <= md /\
    (forall k, (j < k <= b_length)%nat -> md' <= T (S i) k).
Proof.
  induction todo as [|todo IH]; intros j buf md Hj Hap Hlp Hlc Hprev Hcur.
  - assert (j = b_length) by lia. subst j. exists buf, md.
    split; [reflexivity|]. split; [reflexivity|]. split; [assumption|].
    split; [assumption|]. split; [lia|]. intros k Hk. lia.
  - cbn [lev_row].
    replace (previous + j + 1)%nat with (previous + (j + 1))%nat by lia.
    rewrite (Hprev (j + 1)%nat) by lia.
    rewrite (Hcur j) by lia.
    rewrite (Hprev j) by lia.
    cbn [bind].
    replace (j + 1)%nat with (S j) by lia.
    fold (differ m a b i j).
    rewrite <- dp_table_step.
    destruct (cell_set_ok buf (current + j + 1) (T (S i) (S j)))
      as (buf1 & E & L1 & G1 & O1); [lia|].
    rewrite E. cbn [bind]. rewrite G1. cbn [bind].
    destruct (IH (S j) buf1 (sz_min_of_two (T (S i) (S j)) md))
      as (buf' & md' & E' & L' & P' & C' & M1 & M2); try lia; auto.
    + intros k Hk. rewrite O1; [apply Hprev; lia|].
      unfold rows_apart in Hap. lia.
    + intros k Hk. destruct (Nat.eq_dec k (S j)) as [->|Hne].
      * replace (current + S j)%nat with (current + j + 1)%nat by lia. exact G1.
      * rewrite O1 by lia. apply Hcur. lia.
    + exists buf', md'. rewrite E'.
      pose proof (min2_le (T (S i) (S j)) md) as [Ha Hb].
      split; [reflexivity|]. split; [congruence|]. split; [assumption|].
      split; [assumption|]. split; [lia|].
      intros k Hk. destruct (Nat.eq_dec k (S j)) as [->|Hne]; [lia|].
      apply M2. lia.
Qed.

Lemma lev_rows_spec a_length : forall todo i previous current buf,
  (i + todo = a_length)%nat ->
  (1 <= b_length)%nat ->
  rows_apart previous current (b_length + 1) ->
  (previous + b_length < length buf)%nat ->
  (current + b_length < length buf)%nat ->
  (forall i' k, (i' <= a_length)%nat -> (k <= b_length)%nat -> T i' k < bound) ->
  row_below buf previous (T i) (b_length + 1) ->
  lev_rows cell m a b b_length bound todo i previous current buf
  = Some (T a_length b_length).
Proof.
  induction todo as [|todo IH]; intros i previous current buf Hi Hb Hap Hlp Hlc Hbd Hprev.
  - cbn [lev_rows]. rewrite (Hprev b_length) by lia. cbn [bind].
    replace i with a_length by lia.
    destruct (Z.ltb_spec (T a_length b_length) bound); [reflexivity|].
    specialize (Hbd a_length b_length). lia.
  - cbn [lev_rows].
    destruct (cell_set_ok buf current (cell (Z.of_nat i + 1)))
      as (buf1 & E & L1 & G1 & O1); [lia|].
    rewrite E. cbn [bind].
    destruct (lev_row_spec i previous current b_length 0%nat buf1 bound)
      as (buf2 & md & E2 & L2 & P2 & C2 & M1 & M2); try lia; auto.
    + intros k Hk. rewrite O1; [apply Hprev; lia|].
      unfold rows_apart in Hap. lia.
    + intros k Hk. replace k with 0%nat by lia.
      rewrite Nat.add_0_r. exact G1.
    + rewrite E2. cbn [bind].
      assert (md < bound) as Hmd.
      { specialize (M2 1%nat). specialize (Hbd (S i) 1%nat). lia. }
      destruct (Z.leb_spec bound md); [lia|].
      apply IH; try lia; auto.
      unfold rows_apart in *. lia.
Qed.

(** Whatever the bound, the rows loop returns, and never more than the
    bound. *)
Lemma lev_rows_total : forall todo i previous current buf,
  rows_apart previous current (b_length + 1) ->
  (previous + b_length < length buf)%nat ->
  (current + b_length < length buf)%nat ->
  row_below buf previous (T i) (b_length + 1) ->
  exists d,
    lev_rows cell m a b b_length bound todo i previous current buf = Some d
    /\ d <= bound.
Proof.
  induction todo as [|todo IH]; intros i previous current buf Hap Hlp Hlc Hprev.
  - cbn [lev_rows]. rewrite (Hprev b_length) by lia. cbn [bind].
    destruct (Z.ltb_spec (T i b_length) bound); eexists; split;
      try reflexivity; lia.
  - cbn [lev_rows].
    destruct (cell_set_ok buf current (cell (Z.of_nat i + 1)))
      as (buf1 & E & L1 & G1 & O1); [lia|].
    rewrite E. cbn [bind].
    destruct (lev_row_spec i previous current b_length 0%nat buf1 bound)
      as (buf2 & md & E2 & L2 & P2 & C2 & M1 & M2); try lia; auto.
    + intros k Hk. rewrite O1; [apply Hprev; lia|].
      unfold rows_apart in Hap. lia.
    + intros k Hk. replace k with 0%nat by lia.
      rewrite Nat.add_0_r. exact G1.
    + rewrite E2. cbn [bind].
      destruct (Z.leb_spec bound md).
      * exists bound. split; [reflexivity | lia].
      * apply IH; try lia; auto.
        unfold rows_apart in *. lia.
Qed.

Lemma levenshtein_kernel_total a_length buffer :
  (2 * (b_length + 1) <= length buffer)%nat ->
  exists d,
    levenshtein_kernel cell m a a_length b b_length bound buffer = Some d
    /\ d <= bound.
Proof.
  intros Hlen. unfold levenshtein_kernel.
  destruct (lev_init_spec 0%nat (b_length + 1) 0%nat buffer)
    as (buf1 & E & L1 & R1); try lia.
  { intros k Hk. lia. }
  rewrite E. cbn [bind].
  apply lev_rows_total; try lia; auto.
  unfold rows_apart. lia.
Qed.

Lemma levenshtein_kernel_spec a_length buffer :
  (1 <= b_length)%nat ->
  (2 * (b_length + 1) <= length buffer)%nat ->
  (forall i k, (i <= a_length)%nat -> (k <= b_length)%nat -> T i k < bound) ->
  levenshtein_kernel cell m a a_length b b_length bound buffer
  = Some (T a_length b_length).
Proof.
  intros Hb Hlen Hbd. unfold levenshtein_kernel.
  destruct (lev_init_spec 0%nat (b_length + 1) 0%nat buffer)
    as (buf1 & E & L1 & R1); try lia.
  { intros k Hk. lia. }
  rewrite E. cbn [bind].
  apply lev_rows_spec; try lia; auto.
  unfold rows_apart. lia.
Qed.

End KernelFacts.

(** The table of the swapped call is the transposed table. *)
Lemma dp_table_transpose cell d : forall i j,
  dp_table cell d i j = dp_table cell (fun j i => d i j) j i.
Proof.
  induction i as [|i IHi].
  - intros [|j]; cbn; [reflexivity|].
    f_equal. lia.
  - induction j as [|j IHj].
    + cbn. f_equal. lia.
    + change (dp_table cell d (S i) (S j)) with
        (sz_min_of_three (cell (dp_table cell d i (S j) + 1))
                         (cell (dp_table cell d (S i) j + 1))
                         (cell (dp_table cell d i j + d i j))).
      change (dp_table cell (fun j i => d i j) (S j) (S i)) with
        (sz_min_of_three (cell (dp_table cell (fun j i => d i j) j (S i) + 1))
                         (cell (dp_table cell (fun j i => d i j) (S j) i + 1))
                         (cell (dp_table cell (fun j i => d i j) j i + d i j))).
      rewrite IHj, (IHi (S j)), (IHi j). apply min3_swap.
Qed.

Lemma dp_table_u8_bound d i j : 0 <= dp_table u8 d i j < 256.
Proof.
  destruct i as [|i]; [apply u8_range|].
  destruct j as [|j]; [apply u8_range|].
  change (dp_table u8 d (S i) (S j)) with
    (sz_min_of_three (u8 (dp_table u8 d i (S j) + 1))
                     (u8 (dp_table u8 d (S i) j + 1))
                     (u8 (dp_table u8 d i j + d i j))).
  destruct (min3_cases (u8 (dp_table u8 d i (S j) + 1))
                       (u8 (dp_table u8 d (S i) j + 1))
                       (u8 (dp_table u8 d i j + d i j))) as [E|[E|E]];
    rewrite E; apply u8_range.
Qed.

Lemma dp_table_u64_bound d : forall i j,
  0 <= dp_table u64 d i j <= Z.of_nat i + Z.of_nat j.
Proof.
  induction i as [|i IHi].
  - intros j. cbn [dp_table].
    pose proof (u64_range (Z.of_nat j)). pose proof (u64_le (Z.of_nat j)). lia.
  - intros [|j].
    + cbn [dp_table].
      pose proof (u64_range (Z.of_nat i + 1)).
      pose proof (u64_le (Z.of_nat i + 1)). lia.
    + change (dp_table u64 d (S i) (S j)) with
        (sz_min_of_three (u64 (dp_table u64 d i (S j) + 1))
                         (u64 (dp_table u64 d (S i) j + 1))
                         (u64 (dp_table u64 d i j + d i j))).
      split.
      * destruct (min3_cases (u64 (dp_table u64 d i (S j) + 1))
                             (u64 (dp_table u64 d (S i) j + 1))
                             (u64 (dp_table u64 d i j + d i j))) as [E|[E|E]];
          rewrite E; apply u64_range.
      * pose proof (min3_le (u64 (dp_table u64 d i (S j) + 1))
                            (u64 (dp_table u64 d (S i) j + 1))
                            (u64 (dp_table u64 d i j + d i j))) as [H1 _].
        specialize (IHi (S j)).
        pose proof (u64_le (dp_table u64 d i (S j) + 1)). lia.
Qed.

Lemma differ_swap m a b i j : differ m a b i j = differ m b a j i.
Proof.
  unfold differ, char_eq.
  destruct (Byte.eqb (m (a + Z.of_nat i)) (m (b + Z.of_nat j))) eqn:E.
  - apply Byte.byte_dec_bl in E. rewrite E.
    rewrite (Byte.byte_dec_lb eq_refl). reflexivity.
  - destruct (Byte.eqb (m (b + Z.of_nat j)) (m (a + Z.of_nat i))) eqn:E'; [|reflexivity].
    apply Byte.byte_dec_bl in E'. rewrite E' in E.
    rewrite (Byte.byte_dec_lb eq_refl) in E. discriminate.
Qed.

Lemma dp_table_ext cell d d' : (forall i j, d i j = d' i j) ->
  forall i j, dp_table cell d i j = dp_table cell d' i j.
Proof.
  intros H. induction i as [|i IHi]; [reflexivity|].
  induction j as [|j IHj]; [reflexivity|].
  change (dp_table cell d (S i) (S j)) with
    (sz_min_of_three (cell (dp_table cell d i (S j) + 1))
                     (cell (dp_table cell d (S i) j + 1))
                     (cell (dp_table cell d i j + d i j))).
  change (dp_table cell d' (S i) (S j)) with
    (sz_min_of_three (cell (dp_table cell d' i (S j) + 1))
                     (cell (dp_table cell d' (S i) j + 1))
                     (cell (dp_table cell d' i j + d' i j))).
  rewrite IHj, !IHi, H. reflexivity.
Qed.

Lemma dp_table_swap cell m a b i j :
  dp_table cell (differ m a b) i j = dp_table cell (differ m b a) j i.
Proof.
  rewrite dp_table_transpose. apply dp_table_ext.
  intros. symmetry. apply differ_swap.
Qed.

Lemma scratch_holds_two_rows a_length b_length buffer :
  Z.of_nat b_length < 2 ^ 59 ->
  sz_levenshtein_memory_needed a_length b_length
    <= scratch_bytes a_length b_length buffer ->
  (2 * (b_length + 1) <= length buffer)%nat.
Proof.
  intros Hb. unfold sz_levenshtein_memory_needed, scratch_bytes, mul64.
  rewrite (u64_small (Z.of_nat b_length + Z.of_nat b_length + 2)) by word_lia.
  destruct ((a_length <? 256)%nat && (b_length <? 256)%nat);
    rewrite u64_small by word_lia; lia.
Qed.

(** C4.  With the bound at the largest [sz_size_t] and a scratch buffer of
    at least [sz_levenshtein_memory_needed] bytes for each call,
    [sz_levenshtein_serial] returns, and returns the same distance for
    [(x, y)] and for [(y, x)] (lengths being those of strings whose scratch
    buffers fit the address space, below 2^59). *)
Theorem levenshtein_unbounded_is_symmetric (m : mem) (x : Z) (x_length : nat)
  (y : Z) (y_length : nat) (buffer_xy buffer_yx : list Z) :
  Z.of_nat x_length < 2 ^ 59 -> Z.of_nat y_length < 2 ^ 59 ->
  sz_levenshtein_memory_needed x_length y_length
    <= scratch_bytes x_length y_length buffer_xy ->
  sz_levenshtein_memory_needed y_length x_length
    <= scratch_bytes y_length x_length buffer_yx ->
  exists d,
    sz_levenshtein_serial m x x_length y y_length buffer_xy max_u64 = Some d /\
    sz_levenshtein_serial m y y_length x x_length buffer_yx max_u64 = Some d.
Proof.
  intros Hx Hy Mxy Myx.
  apply scratch_holds_two_rows in Mxy; [|assumption].
  apply scratch_holds_two_rows in Myx; [|assumption].
  unfold sz_levenshtein_serial.
  rewrite !(u64_small (Z.of_nat x_length)), !(u64_small (Z.of_nat y_length))
    by word_lia.
  assert (Hmax : max_u64 = 18446744073709551615) by reflexivity.
  assert (H59 : 2 ^ 59 = 576460752303423488) by reflexivity.
  assert (H64 : 2 ^ 64 = 18446744073709551616) by reflexivity.
  destruct x_length as [|lx], y_length as [|ly]; cbn [Nat.eqb].
  - exists 0. split; reflexivity.
  - exists (Z.of_nat (S ly)).
    destruct (Z.leb_spec (Z.of_nat (S ly)) max_u64); [auto | lia].
  - exists (Z.of_nat (S lx)).
    destruct (Z.leb_spec (Z.of_nat (S lx)) max_u64); [auto | lia].
  - set (la := S lx) in *. set (lb := S ly) in *.
    assert (Hgap1 : (if Z.of_nat lb <? Z.of_nat la
                     then max_u64 <? Z.of_nat la - Z.of_nat lb
                     else max_u64 <? Z.of_nat lb - Z.of_nat la) = false).
    { destruct (Z.of_nat lb <? Z.of_nat la);
        match goal with |- (?u <? ?v) = false => destruct (Z.ltb_spec u v) end; lia. }
    assert (Hgap2 : (if Z.of_nat la <? Z.of_nat lb
                     then max_u64 <? Z.of_nat lb - Z.of_nat la
                     else max_u64 <? Z.of_nat la - Z.of_nat lb) = false).
    { destruct (Z.of_nat la <? Z.of_nat lb);
        match goal with |- (?u <? ?v) = false => destruct (Z.ltb_spec u v) end; lia. }
    rewrite Hgap1, Hgap2.
    rewrite (andb_comm (lb <? 256)%nat (la <? 256)%nat).
    destruct ((la <? 256)%nat && (lb <? 256)%nat).
    + exists (dp_table u8 (differ m x y) la lb).
      unfold sz_levenshtein_serial_upto256bytes. split.
      * apply levenshtein_kernel_spec; try (subst la lb; lia).
        intros i k _ _. pose proof (dp_table_u8_bound (differ m x y) i k). lia.
      * rewrite dp_table_swap.
        apply levenshtein_kernel_spec; try (subst la lb; lia).
        intros i k _ _. pose proof (dp_table_u8_bound (differ m y x) i k). lia.
    + exists (dp_table u64 (differ m x y) la lb).
      unfold sz_levenshtein_serial_over256bytes. split.
      * apply levenshtein_kernel_spec; try (subst la lb; lia).
        intros i k Hi Hk. pose proof (dp_table_u64_bound (differ m x y) i k). lia.
      * rewrite dp_table_swap.
        apply levenshtein_kernel_spec; try (subst la lb; lia).
        intros i k Hi Hk. pose proof (dp_table_u64_bound (differ m y x) i k). lia.
Qed.

Lemma levenshtein_unbounded_symmetric_witness :
  exists d,
    sz_levenshtein_serial kitten_case 4096 6 8192 7 (repeat 0 16) max_u64 = Some d /\
    sz_levenshtein_serial kitten_case 8192 7 4096 6 (repeat 7 14) max_u64 = Some d.
Proof.
  apply (levenshtein_unbounded_is_symmetric kitten_case
           4096 6 8192 7 (repeat 0 16) (repeat 7 14));
    vm_compute; congruence.
Defined.

(** *** The reference distance *)

Lemma lev_nil_r x : levenshtein_ref x [] = length x.
Proof. destruct x; reflexivity. Qed.

Lemma lev_cons_cons c x d y :
  levenshtein_ref (c :: x) (d :: y) =
  Nat.min (S (levenshtein_ref x (d :: y)))
    (Nat.min (S (levenshtein_ref (c :: x) y)) (levenshtein_ref x y + neq c d)).
Proof. reflexivity. Qed.

Lemma same_lower_bounds (x y : nat) :
  (forall t, t <= x <-> t <= y)%nat -> x = y.
Proof.
  intros H. apply Nat.le_antisymm.
  - apply H. apply Nat.le_refl.
  - apply H. apply Nat.le_refl.
Qed.

(** The recurrence on the last characters, which is the one the rows of the
    kernels follow. *)
Lemma lev_snoc : forall n x y c d, (length x + length y <= n)%nat ->
  levenshtein_ref (x ++ [c]) (y ++ [d]) =
  Nat.min (S (levenshtein_ref x (y ++ [d])))
    (Nat.min (S (levenshtein_ref (x ++ [c]) y)) (levenshtein_ref x y + neq c d)).
Proof.
  induction n as [|n IH]; intros x y c d Hn.
  - destruct x, y; cbn [length] in Hn; try lia. cbn. unfold neq. lia.
  - destruct x as [|a x], y as [|b y].
    + cbn. unfold neq. lia.
    + cbn [app]. rewrite lev_cons_cons.
      change ([c]) with ([] ++ [c]).
      rewrite (IH [] y c d) by (cbn [length] in *; lia).
      cbn [app]. rewrite (lev_cons_cons c [] b y).
      cbn [levenshtein_ref]. rewrite !length_app. cbn [length]. lia.
    + cbn [app]. rewrite lev_cons_cons.
      change ([d]) with ([] ++ [d]).
      rewrite (IH x [] c d) by (cbn [length] in *; lia).
      cbn [app]. rewrite (lev_cons_cons a x d []).
      rewrite (lev_nil_r x), (lev_nil_r (x ++ [c])), (lev_nil_r (a :: x ++ [c])),
        (lev_nil_r (a :: x)).
      cbn [length]. rewrite !length_app. cbn [length]. lia.
    + cbn [app]. rewrite lev_cons_cons.
      change (b :: y ++ [d]) with ((b :: y) ++ [d]).
      change (a :: x ++ [c]) with ((a :: x) ++ [c]).
      rewrite (IH x (b :: y) c d) by (cbn [length] in *; lia).
      rewrite (IH (a :: x) y c d) by (cbn [length] in *; lia).
      rewrite (IH x y c d) by (cbn [length] in *; lia).
      cbn [app]. rewrite !lev_cons_cons.
      repeat match goal with
        | |- context [levenshtein_ref ?u ?v] =>
            let t := fresh "t" in
            generalize (levenshtein_ref u v); intros t
        end.
      generalize (neq a b) (neq c d). intros.
      apply same_lower_bounds. intros lo.
      rewrite <- ?Nat.succ_min_distr, <- ?Nat.add_min_distr_r.
      rewrite !Nat.min_glb_iff. lia.
Qed.

Lemma lev_le_max : forall x y,
  (levenshtein_ref x y <= Nat.max (length x) (length y))%nat.
Proof.
  induction x as [|c x IH]; intros y; [cbn; lia|].
  destruct y as [|d y]; [cbn; lia|].
  rewrite lev_cons_cons. specialize (IH y). unfold neq.
  cbn [length]. destruct (Byte.eqb c d); lia.
Qed.

Lemma lev_ge_gap : forall x y,
  (length x - length y <= levenshtein_ref x y
   /\ length y - length x <= levenshtein_ref x y)%nat.
Proof.
  induction x as [|c x IHx]; intros y; [cbn; lia|].
  induction y as [|d y IHy]; [cbn; lia|].
  rewrite lev_cons_cons.
  pose proof (IHx (d :: y)) as H. pose proof (IHx y) as H0. cbn [length] in *.
  revert IHy H H0.
  generalize (levenshtein_ref x (d :: y)) (levenshtein_ref (c :: x) y)
    (levenshtein_ref x y) (neq c d) (length x) (length y).
  intros t1 t2 t3 e lx ly [] [] []. split; repeat apply Nat.min_glb; lia.
Qed.

Lemma bytes_at_snoc m n : forall p,
  bytes_at m p (S n) = bytes_at m p n ++ [m (p + Z.of_nat n)].
Proof.
  induction n as [|n IH]; intros p.
  - cbn. now rewrite Z.add_0_r.
  - change (bytes_at m p (S (S n))) with (m p :: bytes_at m (p + 1) (S n)).
    rewrite IH. cbn [bytes_at app]. do 4 f_equal. lia.
Qed.

Lemma min3_is_min x y z : sz_min_of_three x y z = Z.min x (Z.min y z).
Proof.
  unfold sz_min_of_three, sz_min_of_two.
  destruct (Z.ltb_spec y z);
    match goal with |- context [?u <? ?v] => destruct (Z.ltb_spec u v) end; lia.
Qed.

Section Prefixes.
Variables (m : mem) (a b : Z).

Lemma prefix_distance_step i j :
  prefix_distance m a b (S i) (S j) =
  sz_min_of_three (prefix_distance m a b i (S j) + 1) (prefix_distance m a b (S i) j + 1)
                  (prefix_distance m a b i j + differ m a b i j).
Proof.
  unfold prefix_distance. rewrite min3_is_min.
  rewrite (bytes_at_snoc m i a), (bytes_at_snoc m j b).
  rewrite (lev_snoc _ _ _ _ _ (Nat.le_refl _)).
  rewrite <- !bytes_at_snoc.
  unfold differ, char_eq, neq.
  destruct (Byte.eqb (m (a + Z.of_nat i)) (m (b + Z.of_nat j))); lia.
Qed.

Lemma prefix_distance_0_l j : prefix_distance m a b 0 j = Z.of_nat j.
Proof. unfold prefix_distance. cbn [bytes_at levenshtein_ref]. now rewrite length_bytes_at. Qed.

Lemma prefix_distance_0_r i : prefix_distance m a b i 0 = Z.of_nat i.
Proof. unfold prefix_distance. cbn [bytes_at]. now rewrite lev_nil_r, length_bytes_at. Qed.

Lemma prefix_distance_bounds i j :
  0 <= prefix_distance m a b i j <= Z.max (Z.of_nat i) (Z.of_nat j)
  /\ Z.of_nat i - Z.of_nat j <= prefix_distance m a b i j
  /\ Z.of_nat j - Z.of_nat i <= prefix_distance m a b i j.
Proof.
  unfold prefix_distance.
  pose proof (lev_le_max (bytes_at m a i) (bytes_at m b j)) as H1.
  pose proof (lev_ge_gap (bytes_at m a i) (bytes_at m b j)) as H2.
  rewrite !length_bytes_at in *. lia.
Qed.

(** A bound below every cell of a row right of column 0 is below every
    such cell of the later rows: this is what the early return relies on. *)
Lemma row_floor_persists lb c i : (1 <= i)%nat ->
  (forall k, (1 <= k <= lb)%nat -> c <= prefix_distance m a b i k) ->
  forall n k, (1 <= k <= lb)%nat -> c <= prefix_distance m a b (i + n) k.
Proof.
  intros Hi H n. induction n as [|n IH].
  - intros k Hk. rewrite Nat.add_0_r. now apply H.
  - replace (i + S n)%nat with (S (i + n)) by lia.
    induction k as [|k IHk]; intros Hk; [lia|].
    rewrite prefix_distance_step, min3_is_min.
    pose proof (IH (S k) Hk) as H1.
    destruct (Nat.eq_dec k 0) as [->|Hk0].
    + rewrite !prefix_distance_0_r.
      pose proof (prefix_distance_bounds (i + n) 1) as [[_ Hmax] _].
      assert (0 <= differ m a b (i + n) 0)
        by (unfold differ; destruct (char_eq _ _ _); lia).
      lia.
    + pose proof (IHk ltac:(lia)) as H2. pose proof (IH k ltac:(lia)) as H3.
      assert (0 <= differ m a b (i + n) k)
        by (unfold differ; destruct (char_eq _ _ _); lia).
      lia.
Qed.

(** Where no cost leaves the range on which the conversion to the cell type
    is the identity, the table of the kernel holds the distances. *)
Lemma dp_table_is_prefix_distance cell top la lb :
  (forall z, 0 <= z <= top -> cell z = z) ->
  Z.max (Z.of_nat la) (Z.of_nat lb) < top ->
  forall i j, (i <= la)%nat -> (j <= lb)%nat ->
  dp_table cell (differ m a b) i j = prefix_distance m a b i j.
Proof.
  intros Hcell Htop.
  induction i as [|i IHi].
  - intros j _ Hj. cbn [dp_table]. rewrite prefix_distance_0_l. apply Hcell. lia.
  - induction j as [|j IHj]; intros Hi Hj.
    + cbn [dp_table]. rewrite prefix_distance_0_r. rewrite Hcell; lia.
    + change (dp_table cell (differ m a b) (S i) (S j)) with
        (sz_min_of_three (cell (dp_table cell (differ m a b) i (S j) + 1))
                         (cell (dp_table cell (differ m a b) (S i) j + 1))
                         (cell (dp_table cell (differ m a b) i j + differ m a b i j))).
      rewrite IHj, !IHi by lia.
      pose proof (prefix_distance_bounds i (S j)) as [[? ?] _].
      pose proof (prefix_distance_bounds (S i) j) as [[? ?] _].
      pose proof (prefix_distance_bounds i j) as [[? ?] _].
      assert (0 <= differ m a b i j <= 1)
        by (unfold differ; destruct (char_eq _ _ _); lia).
      rewrite !Hcell by lia.
      symmetry. apply prefix_distance_step.
Qed.

End Prefixes.

Section KernelDistance.
Variable cell : Z -> Z.
Variables (m : mem) (a b : Z) (a_length b_length : nat) (bound : Z).
Let T := dp_table cell (differ m a b).
Let D := prefix_distance m a b.
Hypothesis T_is_D :
  forall i k, (i <= a_length)%nat -> (k <= b_length)%nat -> T i k = D i k.

Lemma lev_rows_clamped : forall todo i previous current buf,
  (i + todo = a_length)%nat ->
  (1 <= b_length)%nat ->
  rows_apart previous current (b_length + 1) ->
  (previous + b_length < length buf)%nat ->
  (current + b_length < length buf)%nat ->
  row_below buf previous (T i) (b_length + 1) ->
  lev_rows cell m a b b_length bound todo i previous current buf
  = Some (Z.min bound (D a_length b_length)).
Proof.
  induction todo as [|todo IH]; intros i previous current buf Hi Hb Hap Hlp Hlc Hprev.
  - cbn [lev_rows]. rewrite (Hprev b_length) by lia. cbn [bind].
    replace i with a_length by lia. rewrite T_is_D by lia.
    destruct (Z.ltb_spec (D a_length b_length) bound); f_equal; lia.
  - cbn [lev_rows].
    destruct (cell_set_ok buf current (cell (Z.of_nat i + 1)))
      as (buf1 & E & L1 & G1 & O1); [lia|].
    rewrite E. cbn [bind].
    destruct (lev_row_spec cell m a b b_length i previous current b_length 0%nat buf1 bound)
      as (buf2 & md & E2 & L2 & P2 & C2 & M1 & M2); try lia; auto.
    + intros k Hk. rewrite O1; [apply Hprev; lia|].
      unfold rows_apart in Hap. lia.
    + intros k Hk. replace k with 0%nat by lia.
      rewrite Nat.add_0_r. exact G1.
    + rewrite E2. cbn [bind].
      destruct (Z.leb_spec bound md) as [Hexit|Hgo].
      * f_equal.
        assert (bound <= D a_length b_length); [|lia].
        replace a_length with (S i + (a_length - S i))%nat by lia.
        apply (row_floor_persists m a b b_length bound (S i)); try lia.
        intros k Hk. subst D. rewrite <- T_is_D by lia.
        specialize (M2 k). subst T. lia.
      * apply IH; try lia; auto.
        unfold rows_apart in *. lia.
Qed.

Lemma levenshtein_kernel_clamped buffer :
  (1 <= b_length)%nat ->
  (2 * (b_length + 1) <= length buffer)%nat ->
  levenshtein_kernel cell m a a_length b b_length bound buffer
  = Some (Z.min bound (D a_length b_length)).
Proof.
  intros Hb Hlen. unfold levenshtein_kernel.
  destruct (lev_init_spec cell m a b b_length 0%nat (b_length + 1) 0%nat buffer)
    as (buf1 & E & L1 & R1); try lia.
  { intros k Hk. lia. }
  rewrite E. cbn [bind].
  apply lev_rows_clamped; try lia; auto.
  unfold rows_apart. lia.
Qed.

End KernelDistance.

(** The value of [sz_levenshtein_serial] through its early returns and both
    kernels, as long as the one-byte cells cannot wrap. *)
Lemma levenshtein_serial_spec (m : mem) (a : Z) (a_length : nat)
  (b : Z) (b_length : nat) (buffer : list Z) (bound : Z) :
  Z.of_nat a_length < 2 ^ 59 -> Z.of_nat b_length < 2 ^ 59 ->
  Nat.max a_length b_length <> 255%nat ->
  sz_levenshtein_memory_needed a_length b_length
    <= scratch_bytes a_length b_length buffer ->
  sz_levenshtein_serial m a a_length b b_length buffer bound
  = Some (Z.min bound
            (Z.of_nat (levenshtein_ref (bytes_at m a a_length) (bytes_at m b b_length)))).
Proof.
  intros Ha Hb Hmax Hmem.
  apply scratch_holds_two_rows in Hmem; [|assumption].
  fold (prefix_distance m a b a_length b_length).
  pose proof (prefix_distance_bounds m a b a_length b_length) as (_ & G1 & G2).
  unfold sz_levenshtein_serial.
  rewrite !(u64_small (Z.of_nat a_length)), !(u64_small (Z.of_nat b_length))
    by word_lia.
  destruct a_length as [|la'] eqn:Ea.
  { cbn [Nat.eqb]. rewrite prefix_distance_0_l.
    destruct (Z.leb_spec (Z.of_nat b_length) bound); f_equal; lia. }
  destruct b_length as [|lb'] eqn:Eb.
  { cbn [Nat.eqb]. rewrite prefix_distance_0_r.
    destruct (Z.leb_spec (Z.of_nat (S la')) bound); f_equal; lia. }
  cbn [Nat.eqb]. rewrite <- Ea, <- Eb in *.
  match goal with |- context [if (if ?c then ?u else ?v) then _ else _] =>
    destruct (if c then u else v) eqn:Egap end.
  { f_equal.
    destruct (Z.ltb_spec (Z.of_nat b_length) (Z.of_nat a_length));
      apply Z.ltb_lt in Egap; lia. }
  destruct ((a_length <? 256)%nat && (b_length <? 256)%nat) eqn:Esmall.
  - apply andb_true_iff in Esmall as [S1 S2].
    apply Nat.ltb_lt in S1, S2.
    apply levenshtein_kernel_clamped; try lia.
    apply (dp_table_is_prefix_distance m a b u8 255 a_length b_length); [|lia].
    intros z Hz. unfold u8, wrap. apply Z.mod_small. lia.
  - apply levenshtein_kernel_clamped; try lia.
    apply (dp_table_is_prefix_distance m a b u64 (2 ^ 64 - 1) a_length b_length);
      [|word_lia].
    intros z Hz. apply u64_small. lia.
Qed.

(** Unless the longer string has exactly 255 bytes, [sz_levenshtein_serial]
    returns the smaller of the bound and the edit distance. *)
Theorem levenshtein_is_clamped_distance (m : mem) (a : Z) (a_length : nat)
  (b : Z) (b_length : nat) (buffer : list Z) (bound : Z) :
  Z.of_nat a_length < 2 ^ 59 -> Z.of_nat b_length < 2 ^ 59 ->
  Nat.max a_length b_length <> 255%nat ->
  sz_levenshtein_memory_needed a_length b_length
    <= scratch_bytes a_length b_length buffer ->
  sz_levenshtein_serial m a a_length b b_length buffer bound
  = Some (Z.min bound
            (Z.of_nat (levenshtein_ref (bytes_at m a a_length) (bytes_at m b b_length)))).
Proof. apply levenshtein_serial_spec. Qed.

Lemma levenshtein_is_clamped_distance_witness :
  sz_levenshtein_serial kitten_case 4096 6 8192 7 (repeat 0 16) 2
  = Some (Z.min 2 (Z.of_nat (levenshtein_ref (bytes_at kitten_case 4096 6)
                                             (bytes_at kitten_case 8192 7)))).
Proof.
  apply (levenshtein_is_clamped_distance kitten_case 4096 6 8192 7 (repeat 0 16) 2);
    first [lia | vm_compute; congruence].
Defined.

Lemma lev_same x : levenshtein_ref x x = 0%nat.
Proof.
  induction x as [|c x IH]; [reflexivity|].
  rewrite lev_cons_cons, IH. unfold neq.
  replace (Byte.eqb c c) with true by (symmetry; apply (Byte.byte_dec_lb eq_refl)).
  now rewrite Nat.add_0_r, !Nat.min_0_r.
Qed.

Lemma lev_zero : forall x y, levenshtein_ref x y = 0%nat -> x = y.
Proof.
  induction x as [|c x IH]; intros [|d y] H; try reflexivity; try discriminate.
  rewrite lev_cons_cons in H.
  assert (levenshtein_ref x y = 0%nat /\ neq c d = 0%nat) as [H1 H2] by lia.
  unfold neq in H2. destruct (Byte.eqb c d) eqn:E; [|discriminate].
  apply Byte.byte_dec_bl in E. f_equal; [exact E | now apply IH].
Qed.

(** Unless the longer string has exactly 255 bytes, the unbounded distance
    is 0 exactly for two strings of the same length and bytes. *)
Theorem levenshtein_zero_iff_same_strings (m : mem) (a : Z) (a_length : nat)
  (b : Z) (b_length : nat) (buffer : list Z) :
  Z.of_nat a_length < 2 ^ 59 -> Z.of_nat b_length < 2 ^ 59 ->
  Nat.max a_length b_length <> 255%nat ->
  sz_levenshtein_memory_needed a_length b_length
    <= scratch_bytes a_length b_length buffer ->
  (sz_levenshtein_serial m a a_length b b_length buffer max_u64 = Some 0
   <-> a_length = b_length /\ sz_equal_serial m a b a_length = true).
Proof.
  intros Ha Hb Hmax Hmem.
  rewrite (levenshtein_serial_spec m a a_length b b_length buffer max_u64)
    by assumption.
  rewrite equal_serial_spec.
  assert (Hm : max_u64 = 18446744073709551615) by reflexivity.
  split.
  - intros E. injection E as E.
    assert (levenshtein_ref (bytes_at m a a_length) (bytes_at m b b_length) = 0%nat)
      as Z0 by lia.
    apply lev_zero in Z0.
    pose proof (same_bytes_same_length _ _ _ _ _ Z0). subst b_length. auto.
  - intros [<- E]. rewrite E, lev_same. reflexivity.
Qed.

Lemma levenshtein_zero_iff_same_strings_witness :
  sz_levenshtein_serial kitten_case 4096 6 4096 6 (repeat 0 16) max_u64 = Some 0
  <-> 6%nat = 6%nat /\ sz_equal_serial kitten_case 4096 4096 6 = true.
Proof.
  apply (levenshtein_zero_iff_same_strings kitten_case 4096 6 4096 6 (repeat 0 16));
    first [lia | vm_compute; congruence].
Defined.

(** The unbounded distance lies between the difference of the two lengths
    and the greater of them, unless the longer string has exactly 255
    bytes. *)
Theorem levenshtein_is_between_gap_and_longer_length (m : mem) (a : Z)
  (a_length : nat) (b : Z) (b_length : nat) (buffer : list Z) :
  Z.of_nat a_length < 2 ^ 59 -> Z.of_nat b_length < 2 ^ 59 ->
  Nat.max a_length b_length <> 255%nat ->
  sz_levenshtein_memory_needed a_length b_length
    <= scratch_bytes a_length b_length buffer ->
  exists d,
    sz_levenshtein_serial m a a_length b b_length buffer max_u64 = Some d
    /\ Z.abs (Z.of_nat a_length - Z.of_nat b_length) <= d
    /\ d <= Z.max (Z.of_nat a_length) (Z.of_nat b_length).
Proof.
  intros Ha Hb Hmax Hmem.
  rewrite (levenshtein_serial_spec m a a_length b b_length buffer max_u64)
    by assumption.
  eexists. split; [reflexivity|].
  pose proof (lev_le_max (bytes_at m a a_length) (bytes_at m b b_length)) as H1.
  pose proof (lev_ge_gap (bytes_at m a a_length) (bytes_at m b b_length)) as H2.
  rewrite !length_bytes_at in *.
  assert (max_u64 = 18446744073709551615) as -> by reflexivity.
  word_lia.
Qed.

Lemma levenshtein_is_between_witness :
  exists d,
    sz_levenshtein_serial kitten_case 4096 6 8192 7 (repeat 0 16) max_u64 = Some d
    /\ Z.abs (Z.of_nat 6 - Z.of_nat 7) <= d
    /\ d <= Z.max (Z.of_nat 6) (Z.of_nat 7).
Proof.
  apply (levenshtein_is_between_gap_and_longer_length
           kitten_case 4096 6 8192 7 (repeat 0 16));
    first [lia | vm_compute; congruence].
Defined.

(** The specification's fourth and fifth scenarios. *)
Example levenshtein_kitten_sitting :
  sz_levenshtein_serial kitten_case 4096 6 8192 7 (repeat 0 16) 100 = Some 3.
Proof. vm_compute; reflexivity. Qed.

(** C3, at a one-byte [a] = "a", [b] = 255 times "b" and the bound 1000,
    with a 512-byte scratch buffer.  Both lengths are below 256, so the
    [sz_u8_t] kernel runs; [previous_distances[255]] is 255 and
    [cost_deletion = previous_distances[255] + 1] wraps to 0, which is
    returned, while the distance is 255. *)
Theorem levenshtein_upto256_wraps_past_255 :
  sz_levenshtein_serial wrap_case 4096 1 8192 255 (repeat 0 512) 1000 = Some 0
  /\ levenshtein_ref (bytes_at wrap_case 4096 1) (bytes_at wrap_case 8192 255)
     = 255%nat
  /\ sz_levenshtein_memory_needed 1 255 <= scratch_bytes 1 255 (repeat 0 512).
Proof. vm_compute; repeat split; congruence. Qed.

(** The part of C3 that holds: with an adequate scratch buffer
    [sz_levenshtein_serial] returns, and never more than the bound. *)
Theorem levenshtein_never_exceeds_bound (m : mem) (a : Z) (a_length : nat)
  (b : Z) (b_length : nat) (buffer : list Z) (bound : Z) :
  Z.of_nat b_length < 2 ^ 59 ->
  sz_levenshtein_memory_needed a_length b_length
    <= scratch_bytes a_length b_length buffer ->
  exists d,
    sz_levenshtein_serial m a a_length b b_length buffer bound = Some d
    /\ d <= bound.
Proof.
  intros Hb Hmem.
  apply scratch_holds_two_rows in Hmem; [|assumption].
  unfold sz_levenshtein_serial.
  destruct (a_length =? 0)%nat.
  { destruct (Z.leb_spec (u64 (Z.of_nat b_length)) bound);
      eexists; split; try reflexivity; lia. }
  destruct (b_length =? 0)%nat.
  { destruct (Z.leb_spec (u64 (Z.of_nat a_length)) bound);
      eexists; split; try reflexivity; lia. }
  match goal with |- context [if (if ?c then ?u else ?v) then _ else _] =>
    destruct (if c then u else v) end.
  { exists bound. split; [reflexivity | lia]. }
  destruct ((a_length <? 256)%nat && (b_length <? 256)%nat).
  - now apply levenshtein_kernel_total.
  - now apply levenshtein_kernel_total.
Qed.

Lemma levenshtein_never_exceeds_bound_witness :
  exists d,
    sz_levenshtein_serial kitten_case 4096 6 8192 7 (repeat 0 16) 2 = Some d
    /\ d <= 2.
Proof.
  apply (levenshtein_never_exceeds_bound kitten_case 4096 6 8192 7 (repeat 0 16) 2);
    vm_compute; congruence.
Defined.

(** ** Alignment score: the two rows against the table *)

Section ScoreFacts.
Context {abi : ABI}.
Variables (m : mem) (a b : Z) (b_length : nat) (gap : byte) (subs : Z).

Let T := score_table (char_val gap) (subs_cost m subs a b).





End ScoreFacts.







(** ** Bitap *)

Lemma testbit_wrap w x j : 0 <= j < w -> Z.testbit (wrap w x) j = Z.testbit x j.
Proof. intros H. unfold wrap. apply Z.mod_pow2_bits_low. lia. Qed.

Lemma wrap_range w x : 0 <= w -> 0 <= wrap w x < 2 ^ w.
Proof. intros H. unfold wrap. apply Z.mod_pos_bound. apply Z.pow_pos_nonneg; lia. Qed.

Lemma testbit_all_ones w j :
  0 <= w -> 0 <= j -> Z.testbit (2 ^ w - 1) j = (j <? w).
Proof.
  intros Hw Hj.
  replace (2 ^ w - 1) with (Z.ones w) by (rewrite Z.ones_equiv; lia).
  destruct (Z.ltb_spec j w).
  - apply Z.ones_spec_low. lia.
  - apply Z.ones_spec_high. lia.
Qed.

Lemma testbit_one_shifted i j :
  0 <= i -> 0 <= j -> Z.testbit (Z.shiftl 1 i) j = (j =? i).
Proof.
  intros Hi Hj. rewrite Z.shiftl_1_l, Z.pow2_bits_eqb by lia. apply Z.eqb_sym.
Qed.

Lemma land_pow2_zero x k :
  0 <= k -> (Z.land x (Z.shiftl 1 k) =? 0) = negb (Z.testbit x k).
Proof.
  intros Hk. destruct (Z.testbit x k) eqn:E; cbn [negb].
  - apply Z.eqb_neq. intros H.
    assert (Z.testbit (Z.land x (Z.shiftl 1 k)) k = false) by (rewrite H; apply Z.bits_0).
    rewrite Z.land_spec, E, testbit_one_shifted, Z.eqb_refl in H0 by lia. discriminate.
  - apply Z.eqb_eq. apply Z.bits_inj'. intros n Hn.
    rewrite Z.land_spec, Z.bits_0, testbit_one_shifted by lia.
    destruct (Z.eqb_spec n k) as [->|]; [now rewrite E | apply andb_false_r].
Qed.

Section BitapFacts.
Context {abi : ABI}.
Variables w sw : Z.
Hypothesis w_pos : 0 < w.
Hypothesis w_le_sw : w <= sw.
Variables (m : mem) (haystack : Z) (haystack_length : nat).
Variables (needle : Z) (needle_length : nat).
Hypothesis needle_fits : Z.of_nat needle_length <= w.
Hypothesis plain_haystack : plain_chars m haystack haystack_length.
Hypothesis plain_needle : plain_chars m needle needle_length.

Lemma masks_hold_init : masks_hold w m needle (repeat (2 ^ w - 1) 256) 0.
Proof.
  split; [apply repeat_length|].
  intros c Hc. exists (2 ^ w - 1). split; [|split].
  - rewrite nth_error_repeat by lia. reflexivity.
  - assert (0 < 2 ^ w) by (apply Z.pow_pos_nonneg; lia). lia.
  - intros j Hj. rewrite testbit_all_ones by lia.
    unfold mask_bit. cbn [Nat.ltb Nat.leb andb negb]. apply Z.ltb_lt. lia.
Qed.

Lemma bitap_masks_spec : forall todo i pattern_mask,
  (i + todo = needle_length)%nat ->
  masks_hold w m needle pattern_mask i ->
  exists pattern_mask',
    bitap_masks w sw m needle todo i pattern_mask = Some pattern_mask' /\
    masks_hold w m needle pattern_mask' needle_length.
Proof.
  induction todo as [|todo IH]; intros i pm Hi [Hlen Hpm].
  - exists pm. split; [reflexivity|]. replace needle_length with i by lia.
    split; assumption.
  - cbn [bitap_masks]. rewrite (plain_char_val m needle needle_length plain_needle) by lia.
    pose proof (byte_val_range (m (needle + Z.of_nat i))) as Hc.
    set (c := byte_val (m (needle + Z.of_nat i))) in *.
    destruct (Hpm (Z.to_nat c)) as (old & Eold & Rold & Bold); [lia|].
    unfold table_get at 1. destruct (Z.ltb_spec c 0); [lia|].
    rewrite Eold. cbn [bind].
    apply IH; [lia|].
    split; [rewrite length_list_set; exact Hlen|].
    intros c' Hc'.
    destruct (Nat.eq_dec c' (Z.to_nat c)) as [->|Hne].
    + eexists. split; [apply nth_error_list_set_eq; lia|]. split.
      * apply wrap_range. lia.
      * intros j Hj. rewrite testbit_wrap by lia.
        rewrite Z.land_spec, Z.lxor_spec, testbit_wrap by lia.
        rewrite testbit_one_shifted, testbit_all_ones by lia.
        rewrite Bold by lia. rewrite Z2Nat.id by lia.
        unfold mask_bit.
        destruct (Z.ltb_spec (Z.of_nat j) sw); [|lia].
        destruct (Z.eqb_spec (Z.of_nat j) (Z.of_nat i)) as [Eji|Nji].
        -- apply Nat2Z.inj in Eji. subst j. fold c.
           rewrite Z.eqb_refl, Nat.ltb_irrefl.
           destruct (Nat.ltb_spec i (S i)); [|lia]. reflexivity.
        -- assert (j <> i) by congruence.
           destruct (Nat.ltb_spec j i); destruct (Nat.ltb_spec j (S i)); try lia;
             cbn [andb negb xorb]; rewrite ?andb_true_r; reflexivity.
    + destruct (Hpm c' Hc') as (v & Ev & Rv & Bv).
      exists v. split; [rewrite nth_error_list_set_neq by congruence; exact Ev|].
      split; [exact Rv|].
      intros j Hj. rewrite Bv by lia. unfold mask_bit.
      destruct (Nat.ltb_spec j i); destruct (Nat.ltb_spec j (S i)); try lia;
        cbn [andb negb]; try reflexivity.
      assert (j = i) by lia. subst j. fold c.
      destruct (Z.eqb_spec c (Z.of_nat c')); [lia | reflexivity].
Qed.

Lemma same_bytes_snoc p q n :
  same_bytes m p q (S n)
  = same_bytes m p q n && Byte.eqb (m (p + Z.of_nat n)) (m (q + Z.of_nat n)).
Proof.
  unfold same_bytes. rewrite !bytes_at_snoc.
  destruct (list_eq_dec Byte.byte_eq_dec (bytes_at m p n) (bytes_at m q n)) as [E|N].
  - rewrite E. cbn [andb].
    destruct (Byte.eqb (m (p + Z.of_nat n)) (m (q + Z.of_nat n))) eqn:B.
    + apply Byte.byte_dec_bl in B. rewrite B.
      destruct (list_eq_dec _ _ _); [reflexivity | congruence].
    + destruct (list_eq_dec _ _ _) as [E'|]; [|reflexivity].
      apply app_inj_tail in E' as [_ E'].
      rewrite E' in B. rewrite (Byte.byte_dec_lb eq_refl) in B. discriminate.
  - cbn [andb]. destruct (list_eq_dec _ _ _) as [E'|]; [|reflexivity].
    apply app_inj_tail in E' as [E' _]. contradiction.
Qed.

Lemma ends_at_0 i :
  ends_at m haystack needle (S i) 0 = Byte.eqb (m (haystack + Z.of_nat i)) (m needle).
Proof.
  unfold ends_at. cbn [Nat.ltb Nat.leb andb]. rewrite same_bytes_snoc.
  unfold same_bytes at 1. cbn [bytes_at].
  destruct (list_eq_dec _ _ _); [|congruence]. cbn [andb].
  replace (S i - 1 - 0)%nat with i by lia.
  cbn [Z.of_nat]. now rewrite !Z.add_0_r.
Qed.

Lemma ends_at_S i j :
  ends_at m haystack needle (S i) (S j)
  = ends_at m haystack needle i j && Byte.eqb (m (haystack + Z.of_nat i)) (m (needle + Z.of_nat (S j))).
Proof.
  unfold ends_at. rewrite same_bytes_snoc.
  destruct (Nat.ltb_spec j i); destruct (Nat.ltb_spec (S j) (S i)); try lia;
    cbn [andb]; try reflexivity.
  replace (S i - 1 - S j)%nat with (i - 1 - j)%nat by lia.
  replace (haystack + Z.of_nat (i - 1 - j) + Z.of_nat (S j))
    with (haystack + Z.of_nat i) by lia.
  reflexivity.
Qed.

Lemma byte_eqb_sym x y : Byte.eqb x y = Byte.eqb y x.
Proof.
  destruct (Byte.eqb x y) eqn:E.
  - apply Byte.byte_dec_bl in E. subst. symmetry. apply (Byte.byte_dec_lb eq_refl).
  - destruct (Byte.eqb y x) eqn:E'; [|reflexivity].
    apply Byte.byte_dec_bl in E'. subst.
    rewrite (Byte.byte_dec_lb eq_refl) in E. discriminate.
Qed.

Lemma byte_val_eqb x y : (byte_val x =? byte_val y) = Byte.eqb x y.
Proof.
  destruct (Byte.eqb x y) eqn:E.
  - apply Byte.byte_dec_bl in E. subst. apply Z.eqb_refl.
  - apply Z.eqb_neq. intros H. apply byte_val_inj in H. subst.
    rewrite (Byte.byte_dec_lb eq_refl) in E. discriminate.
Qed.

Lemma bitap_scan_spec pattern_mask :
  (1 <= needle_length)%nat ->
  masks_hold w m needle pattern_mask needle_length ->
  forall todo i running_match,
    (i + todo <= haystack_length)%nat ->
    state_holds w m haystack needle needle_length running_match i ->
    bitap_scan w sw m pattern_mask haystack needle_length todo i running_match
    = Some (scan_ref m haystack needle needle_length todo i).
Proof.
  intros Hn [Hlen Hpm].
  induction todo as [|todo IH]; intros i rm Hi [Hrm Hbits]; [reflexivity|].
  cbn [bitap_scan scan_ref].
  rewrite (plain_char_val m haystack haystack_length plain_haystack) by lia.
  pose proof (byte_val_range (m (haystack + Z.of_nat i))) as Hc.
  set (h := m (haystack + Z.of_nat i)) in *.
  destruct (Hpm (Z.to_nat (byte_val h))) as (mask & Emask & Rmask & Bmask); [lia|].
  unfold table_get. destruct (Z.ltb_spec (byte_val h) 0); [lia|].
  rewrite Emask. cbn [bind].
  set (rm' := wrap w (Z.lor (Z.shiftl rm 1) mask)).
  assert (Hstate : state_holds w m haystack needle needle_length rm' (S i)).
  { split; [apply wrap_range; lia|].
    intros j Hj. subst rm'. rewrite testbit_wrap by lia.
    rewrite Z.lor_spec, Z.shiftl_spec by lia.
    rewrite Bmask by lia. unfold mask_bit. rewrite Z2Nat.id by lia.
    rewrite byte_val_eqb.
    destruct j as [|j].
    - cbn [Z.of_nat Z.sub Z.opp]. rewrite Z.testbit_neg_r by lia.
      rewrite ends_at_0. cbn [orb]. rewrite Z.add_0_r.
      fold h. now rewrite (byte_eqb_sym (m needle) h).
    - replace (Z.of_nat (S j) - 1) with (Z.of_nat j) by lia.
      rewrite Hbits by lia. rewrite ends_at_S. fold h.
      rewrite (byte_eqb_sym (m (needle + Z.of_nat (S j))) h).
      destruct (Nat.ltb_spec j needle_length);
        destruct (Nat.ltb_spec (S j) needle_length); try lia;
        cbn [andb negb orb]; try reflexivity;
        destruct (ends_at m haystack needle i j), (Byte.eqb h (m (needle + Z.of_nat (S j))));
        reflexivity. }
  assert (Etop : wrap sw (Z.shiftl 1 (Z.of_nat needle_length - 1))
                 = Z.shiftl 1 (Z.of_nat (needle_length - 1))).
  { replace (Z.of_nat needle_length - 1) with (Z.of_nat (needle_length - 1)) by lia.
    unfold wrap. apply Z.mod_small. rewrite Z.shiftl_1_l.
    split; [apply Z.pow_nonneg; lia|]. apply Z.pow_lt_mono_r; lia. }
  rewrite Etop, land_pow2_zero by lia.
  destruct Hstate as [Hrm' Hbits'] eqn:Es. clear Es.
  rewrite Hbits' by lia.
  destruct (Nat.ltb_spec (needle_length - 1) needle_length); [|lia].
  cbn [andb]. rewrite negb_involutive.
  destruct (ends_at m haystack needle (S i) (needle_length - 1)); [reflexivity|].
  apply IH; [lia | split; assumption].
Qed.

Lemma skipn_bytes_at p n q :
  (p <= n)%nat -> skipn p (bytes_at m q n) = bytes_at m (q + Z.of_nat p) (n - p).
Proof.
  intros H. replace n with (p + (n - p))%nat at 1 by lia.
  rewrite bytes_at_app, skipn_app, length_bytes_at, Nat.sub_diag.
  rewrite skipn_all2 by (rewrite length_bytes_at; lia). reflexivity.
Qed.

Lemma firstn_bytes_at k n q :
  (k <= n)%nat -> firstn k (bytes_at m q n) = bytes_at m q k.
Proof.
  intros H. replace n with (k + (n - k))%nat by lia.
  rewrite bytes_at_app, firstn_app, length_bytes_at, Nat.sub_diag.
  rewrite firstn_all2 by (rewrite length_bytes_at; lia).
  cbn [firstn]. apply app_nil_r.
Qed.

Lemma occurs_at_bytes p :
  (p + needle_length <= haystack_length)%nat ->
  occurs_at (bytes_at m haystack haystack_length) (bytes_at m needle needle_length) p
  = same_bytes m (haystack + Z.of_nat p) needle needle_length.
Proof.
  intros H. unfold occurs_at, same_bytes.
  rewrite length_bytes_at, skipn_bytes_at, firstn_bytes_at by lia. reflexivity.
Qed.

Lemma scan_ref_skip : forall k i t,
  (i + k <= needle_length - 1)%nat -> scan_ref m haystack needle needle_length (k + t) i = scan_ref m haystack needle needle_length t (i + k).
Proof.
  induction k as [|k IH]; intros i t H.
  - now rewrite Nat.add_0_r.
  - cbn [Nat.add scan_ref]. unfold ends_at at 1.
    destruct (Nat.ltb_spec (needle_length - 1) (S i)); [lia|]. cbn [andb].
    rewrite IH by lia. f_equal. lia.
Qed.

Lemma scan_ref_first : forall t p,
  (1 <= needle_length)%nat ->
  (p + t + needle_length <= haystack_length + 1)%nat ->
  scan_ref m haystack needle needle_length t (p + needle_length - 1)
  = match first_occurrence (bytes_at m haystack haystack_length)
            (bytes_at m needle needle_length) t p with
    | Some q => Ptr (haystack + Z.of_nat q)
    | None => NULL
    end.
Proof.
  induction t as [|t IH]; intros p Hn H; [reflexivity|].
  cbn [scan_ref first_occurrence]. rewrite occurs_at_bytes by lia.
  unfold ends_at.
  destruct (Nat.ltb_spec (needle_length - 1) (S (p + needle_length - 1))); [|lia].
  cbn [andb].
  replace (S (p + needle_length - 1) - 1 - (needle_length - 1))%nat with p by lia.
  replace (S (needle_length - 1)) with needle_length by lia.
  destruct (same_bytes m (haystack + Z.of_nat p) needle needle_length).
  - f_equal. lia.
  - replace (S (p + needle_length - 1)) with (S p + needle_length - 1)%nat by lia.
    apply IH; lia.
Qed.

Lemma find_ref_too_short :
  (haystack_length < needle_length)%nat ->
  find_ref (bytes_at m haystack haystack_length) (bytes_at m needle needle_length)
  = None.
Proof.
  intros H. unfold find_ref. rewrite !length_bytes_at.
  replace (haystack_length - needle_length)%nat with 0%nat by lia.
  cbn [first_occurrence]. unfold occurs_at. cbn [skipn].
  destruct (list_eq_dec _ _ _) as [E|]; [|reflexivity].
  apply (f_equal (@length byte)) in E.
  rewrite length_firstn, !length_bytes_at in E. lia.
Qed.

Lemma scan_ref_is_find_ref :
  (1 <= needle_length)%nat ->
  scan_ref m haystack needle needle_length haystack_length 0
  = match find_ref (bytes_at m haystack haystack_length)
            (bytes_at m needle needle_length) with
    | Some q => Ptr (haystack + Z.of_nat q)
    | None => NULL
    end.
Proof.
  intros Hn. destruct (Nat.lt_ge_cases haystack_length needle_length) as [Hs|Hl].
  - rewrite find_ref_too_short by assumption.
    replace haystack_length with (haystack_length + 0)%nat at 1 by lia.
    rewrite scan_ref_skip by lia. reflexivity.
  - unfold find_ref. rewrite !length_bytes_at.
    replace haystack_length
      with ((needle_length - 1) + S (haystack_length - needle_length))%nat at 1 by lia.
    rewrite scan_ref_skip by lia.
    replace (0 + (needle_length - 1))%nat with (0 + needle_length - 1)%nat by lia.
    apply scan_ref_first; lia.
Qed.

(** A Bitap kernel whose state is wide enough for the needle returns the
    first occurrence of the needle, or [NULL] when there is none. *)
Lemma bitap_finds_first_occurrence :
  (1 <= needle_length)%nat ->
  bitap w sw m haystack haystack_length needle needle_length
  = Some match find_ref (bytes_at m haystack haystack_length)
                 (bytes_at m needle needle_length) with
         | Some q => Ptr (haystack + Z.of_nat q)
         | None => NULL
         end.
Proof.
  intros Hn. unfold bitap.
  destruct (bitap_masks_spec needle_length 0 (repeat (2 ^ w - 1) 256))
    as (pm & E & Hpm); [lia | apply masks_hold_init |].
  rewrite E. cbn [bind].
  rewrite (bitap_scan_spec pm Hn Hpm).
  - now rewrite scan_ref_is_find_ref.
  - lia.
  - split.
    + assert (0 < 2 ^ w) by (apply Z.pow_pos_nonneg; lia). lia.
    + intros j Hj. rewrite testbit_all_ones by lia.
      unfold ends_at. cbn [Nat.ltb Nat.leb andb]. rewrite andb_false_r.
      apply Z.ltb_lt. lia.
Qed.

End BitapFacts.

(** ** SWAR comparison of bytes *)

Lemma in_below n x : 0 <= x < Z.of_nat n -> In x (below n).
Proof.
  intros H. unfold below. rewrite <- (Z2Nat.id x) by lia.
  apply in_map, in_seq. lia.
Qed.

Lemma land_range k a b : 0 <= k -> 0 <= a < 2 ^ k -> 0 <= Z.land a b < 2 ^ k.
Proof.
  intros Hk Ha.
  rewrite <- (Z.mod_small a (2 ^ k)) by assumption.
  rewrite <- Z.land_ones, <- Z.land_assoc, (Z.land_comm (Z.ones k)), Z.land_assoc,
    Z.land_ones by assumption.
  apply Z.mod_pos_bound. apply Z.pow_pos_nonneg; lia.
Qed.

Lemma land_lxor_distr a b c :
  Z.land (Z.lxor a b) c = Z.lxor (Z.land a c) (Z.land b c).
Proof.
  apply Z.bits_inj'. intros i _.
  rewrite Z.land_spec, !Z.lxor_spec, !Z.land_spec.
  now destruct (Z.testbit a i), (Z.testbit b i), (Z.testbit c i).
Qed.

Lemma lxor_range k a b :
  0 <= k -> 0 <= a < 2 ^ k -> 0 <= b < 2 ^ k -> 0 <= Z.lxor a b < 2 ^ k.
Proof.
  intros Hk Ha Hb.
  rewrite <- (Z.mod_small a (2 ^ k)), <- (Z.mod_small b (2 ^ k)) by assumption.
  rewrite <- !Z.land_ones, <- land_lxor_distr, Z.land_ones by assumption.
  apply Z.mod_pos_bound. apply Z.pow_pos_nonneg; lia.
Qed.

Lemma split_low a A : 0 <= a < 256 -> (a + 256 * A) mod 2 ^ 8 = a.
Proof.
  intros H. change (2 ^ 8) with 256.
  replace (a + 256 * A) with (a + A * 256) by lia.
  rewrite Z.mod_add by lia. apply Z.mod_small. lia.
Qed.

Lemma split_high a A : 0 <= a < 256 -> Z.shiftr (a + 256 * A) 8 = A.
Proof.
  intros H. rewrite Z.shiftr_div_pow2 by lia. change (2 ^ 8) with 256.
  replace (a + 256 * A) with (a + A * 256) by lia.
  rewrite Z.div_add, (Z.div_small a) by lia. lia.
Qed.

Lemma join_bytes x : x = x mod 2 ^ 8 + 256 * Z.shiftr x 8.
Proof.
  rewrite Z.shiftr_div_pow2 by lia. change (2 ^ 8) with 256.
  pose proof (Z.div_mod x 256). lia.
Qed.

Lemma split_land a A b B :
  0 <= a < 256 -> 0 <= b < 256 ->
  Z.land (a + 256 * A) (b + 256 * B) = Z.land a b + 256 * Z.land A B.
Proof.
  intros Ha Hb.
  rewrite (join_bytes (Z.land _ _)).
  rewrite Z.shiftr_land, !split_high by assumption.
  rewrite <- Z.land_ones by lia.
  rewrite <- (Z.land_diag (Z.ones 8)) at 1.
  rewrite Z.land_assoc, <- (Z.land_assoc (a + 256 * A)),
    (Z.land_comm (b + 256 * B)), Z.land_assoc, <- Z.land_assoc.
  rewrite !Z.land_ones, !split_low by (assumption || lia). reflexivity.
Qed.

Lemma split_lxor a A b B :
  0 <= a < 256 -> 0 <= b < 256 ->
  Z.lxor (a + 256 * A) (b + 256 * B) = Z.lxor a b + 256 * Z.lxor A B.
Proof.
  intros Ha Hb.
  rewrite (join_bytes (Z.lxor _ _)).
  rewrite Z.shiftr_lxor, !split_high by assumption.
  rewrite <- Z.land_ones, land_lxor_distr, !Z.land_ones, !split_low
    by (assumption || lia).
  reflexivity.
Qed.

Lemma byte_flag_table :
  forallb (fun x => forallb (fun c =>
    Z.land (Z.land (Z.lxor (Z.lxor x c) 255) 127 + 1)
           (Z.land (Z.lxor (Z.lxor x c) 255) 128)
    =? (if x =? c then 128 else 0)) (below 256)) (below 256) = true.
Proof. vm_compute. reflexivity. Qed.

Lemma byte_flag x c :
  0 <= x < 256 -> 0 <= c < 256 ->
  Z.land (Z.land (Z.lxor (Z.lxor x c) 255) 127 + 1)
         (Z.land (Z.lxor (Z.lxor x c) 255) 128)
  = if x =? c then 128 else 0.
Proof.
  intros Hx Hc. pose proof byte_flag_table as T.
  rewrite forallb_forall in T. specialize (T x (in_below 256 x Hx)).
  rewrite forallb_forall in T. specialize (T c (in_below 256 c Hc)).
  now apply Z.eqb_eq.
Qed.

Lemma each_byte_equal_step n x X c C :
  0 <= x < 256 -> 0 <= c < 256 ->
  each_byte_equal_n (S n) (x + 256 * X) (c + 256 * C)
  = (if x =? c then 128 else 0) + 256 * each_byte_equal_n n X C.
Proof.
  intros Hx Hc. unfold each_byte_equal_n. cbn [rep_byte].
  pose proof (lxor_range 8 x c) as R1.
  pose proof (lxor_range 8 (Z.lxor x c) 255) as R2.
  pose proof (land_range 8 (Z.lxor (Z.lxor x c) 255) 127) as R3.
  pose proof (land_range 8 (Z.lxor (Z.lxor x c) 255) 128) as R4.
  change (2 ^ 8) with 256 in *.
  rewrite (split_lxor x X c C), split_lxor, !split_land by lia.
  replace (Z.land (Z.lxor (Z.lxor x c) 255) 127
           + 256 * Z.land (Z.lxor (Z.lxor X C) (rep_byte 255 n)) (rep_byte 127 n)
           + (1 + 256 * rep_byte 1 n))
    with (Z.land (Z.lxor (Z.lxor x c) 255) 127 + 1
          + 256 * (Z.land (Z.lxor (Z.lxor X C) (rep_byte 255 n)) (rep_byte 127 n)
                   + rep_byte 1 n)) by lia.
  assert (Z.land (Z.lxor (Z.lxor x c) 255) 127 < 128).
  { pose proof (land_range 7 127 (Z.lxor (Z.lxor x c) 255)) as R5.
    rewrite Z.land_comm in R5. change (2 ^ 7) with 128 in R5. lia. }
  rewrite split_land by lia.
  rewrite byte_flag by lia. reflexivity.
Qed.

Lemma each_byte_equal_flags m c n : forall p,
  0 <= c < 256 ->
  each_byte_equal_n n (le_load m p n) (rep_byte c n) = flags m p n c.
Proof.
  induction n as [|n IH]; intros p Hc; [reflexivity|].
  rewrite le_load_step. cbn [rep_byte flags].
  rewrite (Z.mul_comm _ 256), each_byte_equal_step, IH;
    auto using byte_val_range.
Qed.

Lemma rep_byte_range b n : 0 <= b < 256 -> 0 <= rep_byte b n < 256 ^ Z.of_nat n.
Proof.
  intros Hb. induction n as [|n IH]; [cbn; lia|].
  cbn [rep_byte]. rewrite Nat2Z.inj_succ, Z.pow_succ_r by lia. lia.
Qed.

Lemma each_byte_equal_is_n a b :
  0 <= a < 2 ^ 64 -> 0 <= b < 2 ^ 64 ->
  sz_u64_each_byte_equal a b = each_byte_equal_n 8 a b.
Proof.
  intros Ha Hb. unfold sz_u64_each_byte_equal, each_byte_equal_n, not64, add64.
  pose proof (lxor_range 64 a b) as R1.
  rewrite (u64_small (Z.lxor a b)) by lia.
  change max_u64 with (rep_byte 255 8).
  change 0x7F7F7F7F7F7F7F7F with (rep_byte 127 8).
  change 0x0101010101010101 with (rep_byte 1 8).
  change 0x8080808080808080 with (rep_byte 128 8).
  pose proof (land_range 63 (rep_byte 127 8)
                (Z.lxor (Z.lxor a b) (rep_byte 255 8))) as R2.
  rewrite Z.land_comm in R2.
  rewrite u64_small; [reflexivity|].
  assert (0 <= rep_byte 127 8 < 2 ^ 63) by (vm_compute; split; congruence).
  assert (0 <= rep_byte 1 8 < 2 ^ 63) by (vm_compute; split; congruence).
  change (2 ^ 64) with (2 ^ 63 + 2 ^ 63). lia.
Qed.

Lemma flags_range m c n : forall p, 0 <= flags m p n c < 256 ^ Z.of_nat n.
Proof.
  induction n as [|n IH]; intros p; [cbn; lia|].
  cbn [flags]. specialize (IH (p + 1)).
  rewrite Nat2Z.inj_succ, Z.pow_succ_r by lia.
  destruct (byte_val (m p) =? c); lia.
Qed.

Lemma testbit_above_byte f F i :
  0 <= f < 256 -> 0 <= i -> Z.testbit (f + 256 * F) (i + 8) = Z.testbit F i.
Proof.
  intros Hf Hi.
  rewrite <- (split_high f F Hf) at 2. now rewrite Z.shiftr_spec.
Qed.

Lemma testbit_in_byte f F i :
  0 <= f < 256 -> 0 <= i < 8 -> Z.testbit (f + 256 * F) i = Z.testbit f i.
Proof.
  intros Hf Hi.
  rewrite <- (split_low f F Hf) at 2. now rewrite Z.mod_pow2_bits_low.
Qed.

Lemma ctz_from_above_byte f F : forall n i,
  0 <= f < 256 -> 0 <= i ->
  ctz_from n (i + 8) (f + 256 * F) = ctz_from n i F + 8.
Proof.
  induction n as [|n IH]; intros i Hf Hi; [reflexivity|].
  cbn [ctz_from]. rewrite testbit_above_byte by assumption.
  destruct (Z.testbit F i); [reflexivity|].
  replace (i + 8 + 1) with (i + 1 + 8) by lia. apply IH; lia.
Qed.

Lemma ctz_from_flag F n : ctz_from (8 + n) 0 (128 + 256 * F) = 7.
Proof.
  cbn [Nat.add ctz_from].
  rewrite !testbit_in_byte by lia. reflexivity.
Qed.

Lemma ctz_from_no_flag F n :
  ctz_from (8 + n) 0 (0 + 256 * F) = ctz_from n 0 F + 8.
Proof.
  cbn [Nat.add ctz_from].
  rewrite !testbit_in_byte by lia.
  rewrite !Z.testbit_0_l.
  apply (ctz_from_above_byte 0 F n 0); lia.
Qed.

(** The flags of [n] bytes are 0 where no byte is [c]; otherwise the lowest
    set bit is in the first byte that is [c]. *)
Lemma flags_first m c n : forall p,
  (flags m p n c = 0 /\
   forall k : nat, (k < n)%nat -> byte_val (m (p + Z.of_nat k)) <> c)
  \/ (flags m p n c <> 0 /\
      exists k : nat, (k < n)%nat /\
        ctz_from (8 * n) 0 (flags m p n c) / 8 = Z.of_nat k /\
        byte_val (m (p + Z.of_nat k)) = c /\
        forall k' : nat, (k' < k)%nat -> byte_val (m (p + Z.of_nat k')) <> c).
Proof.
  induction n as [|n IH]; intros p.
  { left. split; [reflexivity|]. intros k Hk. lia. }
  replace (8 * S n)%nat with (8 + 8 * n)%nat by lia.
  cbn [flags]. pose proof (flags_range m c n (p + 1)) as R.
  destruct (Z.eqb_spec (byte_val (m p)) c) as [E|E].
  - right. split; [lia|]. exists 0%nat. rewrite ctz_from_flag.
    rewrite Z.add_0_r.
    split; [lia|]. split; [reflexivity|]. split; [assumption|]. intros; lia.
  - destruct (IH (p + 1)) as [[Z0 N]|[NZ (k & Hk & Hc & Hm & Hf)]].
    + left. rewrite Z0. split; [reflexivity|].
      intros [|k] Hk; [now rewrite Z.add_0_r|].
      replace (p + Z.of_nat (S k)) with (p + 1 + Z.of_nat k) by lia.
      apply N. lia.
    + right. split; [lia|]. exists (S k). rewrite ctz_from_no_flag.
      replace (p + Z.of_nat (S k)) with (p + 1 + Z.of_nat k) by lia.
      split; [lia|]. split; [|split; [assumption|]].
      * replace (ctz_from (8 * n) 0 (flags m (p + 1) n c) + 8)
          with (ctz_from (8 * n) 0 (flags m (p + 1) n c) + 1 * 8) by lia.
        rewrite Z.div_add by lia. lia.
      * intros [|k'] Hk'; [now rewrite Z.add_0_r|].
        replace (p + Z.of_nat (S k')) with (p + 1 + Z.of_nat k') by lia.
        apply Hf. lia.
Qed.

(** ** First occurrences, by what the haystack holds *)

Section Occurrences.
Variables (m : mem) (haystack : Z) (haystack_length : nat).
Variables (needle : Z) (needle_length : nat).

Lemma first_occurrence_some : forall t p q,
  (p <= q < p + t)%nat -> (q + needle_length <= haystack_length)%nat ->
  (forall q', (p <= q' < q)%nat ->
     same_bytes m (haystack + Z.of_nat q') needle needle_length = false) ->
  same_bytes m (haystack + Z.of_nat q) needle needle_length = true ->
  first_occurrence (bytes_at m haystack haystack_length)
    (bytes_at m needle needle_length) t p = Some q.
Proof.
  induction t as [|t IH]; intros p q Hq Hl Hb Hs; [lia|].
  cbn [first_occurrence]. rewrite occurs_at_bytes by lia.
  destruct (Nat.eq_dec p q) as [->|N].
  - now rewrite Hs.
  - rewrite Hb by lia. apply IH; try lia; auto.
    intros q' Hq'. apply Hb. lia.
Qed.

Lemma first_occurrence_none : forall t p,
  (p + t + needle_length <= haystack_length + 1)%nat ->
  (forall q, (p <= q < p + t)%nat ->
     same_bytes m (haystack + Z.of_nat q) needle needle_length = false) ->
  first_occurrence (bytes_at m haystack haystack_length)
    (bytes_at m needle needle_length) t p = None.
Proof.
  induction t as [|t IH]; intros p Hl Hb; [reflexivity|].
  cbn [first_occurrence]. rewrite occurs_at_bytes by lia.
  rewrite Hb by lia. apply IH; [lia|]. intros q Hq. apply Hb. lia.
Qed.

Lemma find_ref_some q :
  (q + needle_length <= haystack_length)%nat ->
  (forall q', (q' < q)%nat ->
     same_bytes m (haystack + Z.of_nat q') needle needle_length = false) ->
  same_bytes m (haystack + Z.of_nat q) needle needle_length = true ->
  find_ref (bytes_at m haystack haystack_length) (bytes_at m needle needle_length)
  = Some q.
Proof.
  intros Hl Hb Hs. unfold find_ref. rewrite !length_bytes_at.
  apply first_occurrence_some; try lia; auto.
  intros q' Hq'. apply Hb. lia.
Qed.

Lemma find_ref_none :
  (forall q, (q + needle_length <= haystack_length)%nat ->
     same_bytes m (haystack + Z.of_nat q) needle needle_length = false) ->
  find_ref (bytes_at m haystack haystack_length) (bytes_at m needle needle_length)
  = None.
Proof.
  intros Hb.
  destruct (Nat.ltb_spec haystack_length needle_length) as [L|L].
  { now apply find_ref_too_short. }
  unfold find_ref. rewrite !length_bytes_at.
  apply first_occurrence_none; [lia|]. intros q Hq. apply Hb. lia.
Qed.

Lemma found_at text :
  unseen m haystack needle needle_length text ->
  haystack <= text ->
  text + Z.of_nat needle_length <= haystack + Z.of_nat haystack_length ->
  same_bytes m text needle needle_length = true ->
  Ptr text = found m haystack haystack_length needle needle_length.
Proof.
  intros U H1 H2 Hs. unfold found.
  rewrite (find_ref_some (Z.to_nat (text - haystack))).
  - f_equal. lia.
  - lia.
  - intros q' Hq'. apply U. lia.
  - now replace (haystack + Z.of_nat (Z.to_nat (text - haystack))) with text by lia.
Qed.

Lemma found_nothing text :
  unseen m haystack needle needle_length text ->
  haystack + Z.of_nat haystack_length < text + Z.of_nat needle_length ->
  NULL = found m haystack haystack_length needle needle_length.
Proof.
  intros U H. unfold found. rewrite find_ref_none; [reflexivity|].
  intros q Hq. apply U. lia.
Qed.

Lemma unseen_start : unseen m haystack needle needle_length haystack.
Proof. intros q Hq. lia. Qed.

Lemma unseen_next text k :
  unseen m haystack needle needle_length text -> 0 <= k ->
  (forall j : nat, Z.of_nat j < k ->
     same_bytes m (text + Z.of_nat j) needle needle_length = false) ->
  unseen m haystack needle needle_length (text + k).
Proof.
  intros U Hk Hj q Hq.
  destruct (Z.lt_ge_cases (haystack + Z.of_nat q) text) as [L|L]; [now apply U|].
  replace (haystack + Z.of_nat q)
    with (text + Z.of_nat (Z.to_nat (haystack + Z.of_nat q - text))) by lia.
  apply Hj. lia.
Qed.

End Occurrences.

Lemma same_bytes_one m p q : same_bytes m p q 1 = true <-> m p = m q.
Proof.
  unfold same_bytes. cbn [bytes_at].
  destruct (list_eq_dec _ _ _) as [E|N]; split; intros H;
    try reflexivity; try discriminate.
  - now injection E.
  - exfalso. apply N. now rewrite H.
Qed.

Lemma same_bytes_one_false m p q : m p <> m q -> same_bytes m p q 1 = false.
Proof.
  intros H. destruct (same_bytes m p q 1) eqn:E; [|reflexivity].
  apply same_bytes_one in E. contradiction.
Qed.

(** Runs the first loop of the goal with the invariant [Inv] and the
    measure [mu]; what is left is the loop's step, and the code after it. *)
Ltac scan_loop mu Inv Post :=
  match goal with
  | |- context [after (for_loop ?f ?g ?bd ?n ?st) _] =>
      let r := fresh "r" in
      let E := fresh "E" in
      let H := fresh "H" in
      destruct (for_loop_spec g bd n mu Inv Post)
        with (fuel := f) (s := st) as (r & E & H);
      [ | | | |
        unfold after at 1; rewrite E; cbn [bind];
        destruct r as [?|?text]; [now rewrite H | destruct H as (H & ?G & _)] ]
  end.

(** ** The single-byte finder *)

Section FindByteFacts.
Context {abi : ABI}.
Variables (m : mem) (haystack : Z) (haystack_length : nat) (needle : Z).
Hypothesis plain_needle : plain_chars m needle 1.

Lemma broadcast_byte_rep :
  broadcast_byte m needle = rep_byte (byte_val (m needle)) 8.
Proof.
  unfold broadcast_byte, mul64. rewrite (plain_char_val_first m needle 0 plain_needle).
  pose proof (byte_val_range (m needle)).
  rewrite (u64_small (byte_val _)) by word_lia.
  rewrite u64_small by word_lia. cbn [rep_byte]. lia.
Qed.

Lemma byte_step text :
  unseen m haystack needle 1 text -> haystack <= text ->
  text < haystack + Z.of_nat haystack_length ->
  match (if char_eq m text needle then Some (Ptr text) else None) with
  | Some r => r = found m haystack haystack_length needle 1
  | None => unseen m haystack needle 1 (text + 1)
  end.
Proof.
  intros U H1 H2. destruct (char_eq m text needle) eqn:E.
  - apply char_eq_true in E. apply found_at; auto; [lia|].
    now apply same_bytes_one.
  - apply unseen_next; [assumption|lia|].
    intros j Hj. replace (Z.of_nat j) with 0 by lia. rewrite Z.add_0_r.
    apply same_bytes_one_false. intros C. apply char_eq_true in C. congruence.
Qed.

Lemma swar_step text :
  unseen m haystack needle 1 text -> haystack <= text ->
  text + 8 <= haystack + Z.of_nat haystack_length ->
  match (let text_slice := le_load m text 8 in
         let match_indicators :=
           sz_u64_each_byte_equal text_slice (broadcast_byte m needle) in
         if negb (match_indicators =? 0)
         then Some (Ptr (text + sz_ctz64 match_indicators / 8))
         else None) with
  | Some r => r = found m haystack haystack_length needle 1
  | None => unseen m haystack needle 1 (text + 8)
  end.
Proof.
  intros U H1 H2. cbv zeta.
  pose proof (byte_val_range (m needle)) as Rc.
  pose proof (le_load_range m 8 text) as Rl.
  pose proof (rep_byte_range (byte_val (m needle)) 8 Rc) as Rr.
  rewrite broadcast_byte_rep, each_byte_equal_is_n, each_byte_equal_flags
    by (assumption || (change (2 ^ 64) with (256 ^ Z.of_nat 8); assumption)).
  unfold sz_ctz64. change 64%nat with (8 * 8)%nat.
  destruct (flags_first m (byte_val (m needle)) 8 text)
    as [[Z0 N]|[NZ (k & Hk & Hc & Hm & Hf)]].
  - rewrite Z0. cbn [Z.eqb negb].
    apply unseen_next; [assumption|lia|].
    intros j Hj. apply same_bytes_one_false. intros C.
    apply (N j); [lia|]. now rewrite C.
  - destruct (Z.eqb_spec (flags m text 8 (byte_val (m needle))) 0); [contradiction|].
    cbn [negb]. rewrite Hc. apply found_at.
    + apply unseen_next; [assumption|lia|].
      intros j Hj. apply same_bytes_one_false. intros C.
      apply (Hf j); [lia|]. now rewrite C.
    + lia.
    + lia.
    + apply same_bytes_one. now apply byte_val_inj.
Qed.

Lemma find_byte_spec :
  sz_find_byte_serial m haystack haystack_length needle
  = Some (found m haystack haystack_length needle 1).
Proof.
  unfold sz_find_byte_serial.
  set (end_ := haystack + Z.of_nat haystack_length).
  set (mu := fun text : Z => Z.to_nat (end_ - text)).
  set (Inv := fun text : Z =>
    haystack <= text <= end_ /\ unseen m haystack needle 1 text).
  set (Post := fun r : sz_cptr_t => r = found m haystack haystack_length needle 1).
  scan_loop mu Inv Post.
  { intros text _ G. guard_facts G. subst mu. cbv beta. lia. }
  { intros text [B U] G. guard_facts G.
    pose proof (byte_step text U) as St.
    destruct (char_eq m text needle); [apply St; lia|].
    split; [lia | apply St; lia]. }
  { subst mu end_. cbv beta. lia. }
  { split; [subst end_; lia | apply unseen_start]. }
  destruct H as [B U].
  scan_loop mu Inv Post.
  { intros t _ G'. guard_facts G'. subst mu. cbv beta. lia. }
  { intros t [B' U'] G'. guard_facts G'.
    pose proof (swar_step t U') as St. cbv zeta in St |- *.
    match goal with |- match (if ?c then _ else _) with _ => _ end =>
      destruct c end; [apply St; lia|].
    split; [lia | apply St; lia]. }
  { subst mu end_. cbv beta. lia. }
  { split; assumption. }
  destruct H as [B' U'].
  scan_loop mu Inv Post.
  { intros t _ G'. guard_facts G'. subst mu. cbv beta. lia. }
  { intros t [B'' U''] G'. guard_facts G'.
    pose proof (byte_step t U'') as St.
    destruct (char_eq m t needle); [apply St; lia|].
    split; [lia | apply St; lia]. }
  { subst mu end_. cbv beta. lia. }
  { split; assumption. }
  destruct H as [B'' U''].
  f_equal.
  match goal with G : (?t <? end_) = false |- _ =>
    apply (found_nothing _ _ _ _ _ t); [assumption|];
    apply Z.ltb_ge in G; subst end_; lia
  end.
Qed.

End FindByteFacts.

(** ** Words as lists of bytes *)

Lemma le_val_range l : bytes_ok l -> 0 <= le_val l < 256 ^ Z.of_nat (length l).
Proof.
  induction 1 as [|x l Hx Hl IH]; [cbn; lia|].
  cbn [le_val length]. rewrite Nat2Z.inj_succ, Z.pow_succ_r by lia. lia.
Qed.

Lemma nth_bytes_ok l k : bytes_ok l -> 0 <= nth k l 0 < 256.
Proof.
  intros H. revert k. induction H as [|x l Hx Hl IH]; intros [|k]; cbn [nth];
    try lia. apply IH.
Qed.

Lemma testbit_le_val : forall l k j,
  bytes_ok l -> 0 <= j < 8 ->
  Z.testbit (le_val l) (8 * Z.of_nat k + j) = Z.testbit (nth k l 0) j.
Proof.
  induction l as [|x l IH]; intros k j Hl Hj.
  { cbn [le_val]. destruct k; cbn [nth]; now rewrite !Z.testbit_0_l. }
  inversion Hl as [|? ? Hx Hl']; subst. cbn [le_val].
  destruct k as [|k]; cbn [nth].
  - rewrite testbit_in_byte by (cbn; lia). f_equal.
  - replace (8 * Z.of_nat (S k) + j) with (8 * Z.of_nat k + j + 8) by lia.
    rewrite testbit_above_byte by lia. now apply IH.
Qed.

Lemma le_load_le_val m n : forall p,
  le_load m p n = le_val (map byte_val (bytes_at m p n)).
Proof.
  induction n as [|n IH]; intros p; [reflexivity|].
  rewrite le_load_step. cbn [bytes_at map le_val]. rewrite IH. lia.
Qed.

Lemma bytes_ok_map_byte_val l : bytes_ok (map byte_val l).
Proof.
  induction l; constructor; auto. apply byte_val_range.
Qed.

Lemma byte_ext a b :
  0 <= a < 256 -> 0 <= b < 256 ->
  (forall j, 0 <= j < 8 -> Z.testbit a j = Z.testbit b j) -> a = b.
Proof.
  intros Ha Hb H. apply Z.bits_inj'. intros n Hn.
  destruct (Z.lt_ge_cases n 8) as [L|L]; [apply H; lia|].
  rewrite <- (Z.mod_small a (2 ^ 8)), <- (Z.mod_small b (2 ^ 8)) by (cbn; lia).
  now rewrite !Z.mod_pow2_bits_high by lia.
Qed.

(** ** Bits of the word operations *)

Lemma testbit_not64 y i :
  0 <= i < 64 -> Z.testbit (not64 y) i = negb (Z.testbit y i).
Proof.
  intros Hi. unfold not64, u64, wrap.
  rewrite Z.lxor_spec, Z.mod_pow2_bits_low by lia.
  change max_u64 with (Z.ones 64). rewrite Z.ones_spec_low by lia.
  apply xorb_true_r.
Qed.

Lemma testbit_shr64 x n i k :
  0 <= i -> 0 <= n -> k = i + n -> k < 64 ->
  Z.testbit (shr64 x n) i = Z.testbit x k.
Proof.
  intros Hi Hn -> Hk. unfold shr64, u64, wrap.
  rewrite Z.shiftr_spec, Z.mod_pow2_bits_low by lia. reflexivity.
Qed.

Lemma fold_byte_spec y i :
  0 <= i -> i + 7 < 64 ->
  Z.testbit (fold_byte y) i = true
  <-> forall j, 0 <= j < 8 -> Z.testbit y (i + j) = true.
Proof.
  intros Hi Hk. unfold fold_byte. cbv zeta.
  rewrite !Z.land_spec.
  rewrite (testbit_shr64 _ 4 i (i + 4)) by lia.
  rewrite !Z.land_spec.
  rewrite (testbit_shr64 _ 2 i (i + 2)), (testbit_shr64 _ 2 (i + 4) (i + 6)) by lia.
  rewrite !Z.land_spec.
  rewrite (testbit_shr64 _ 1 i (i + 1)), (testbit_shr64 _ 1 (i + 2) (i + 3)),
    (testbit_shr64 _ 1 (i + 4) (i + 5)), (testbit_shr64 _ 1 (i + 6) (i + 7)) by lia.
  rewrite !andb_true_iff. split.
  - intros H j Hj.
    assert (j = 0 \/ j = 1 \/ j = 2 \/ j = 3 \/ j = 4 \/ j = 5 \/ j = 6 \/ j = 7)
      as C by lia.
    rewrite Z.add_0_r in H || idtac.
    repeat destruct C as [C|C]; subst j; rewrite ?Z.add_0_r; tauto.
  - intros H.
    pose proof (H 0 ltac:(lia)) as H0. rewrite Z.add_0_r in H0.
    repeat split; auto; apply H; lia.
Qed.

(** Bit [8k] of the folded comparison of two words tells whether their
    bytes [k] agree. *)
Lemma lane_equal a b k :
  bytes_ok a -> bytes_ok b -> (k < 8)%nat ->
  Z.testbit (fold_byte (not64 (Z.lxor (le_val a) (le_val b)))) (8 * Z.of_nat k)
  = (nth k a 0 =? nth k b 0).
Proof.
  intros Ha Hb Hk. apply eq_iff_eq_true.
  rewrite fold_byte_spec, Z.eqb_eq by lia. split.
  - intros H. apply byte_ext; auto using nth_bytes_ok.
    intros j Hj. specialize (H j Hj).
    rewrite testbit_not64, Z.lxor_spec, !testbit_le_val in H by (auto; lia).
    destruct (Z.testbit (nth k a 0) j), (Z.testbit (nth k b 0) j);
      cbn in H; congruence.
  - intros E j Hj.
    rewrite testbit_not64, Z.lxor_spec, !testbit_le_val, E by (auto; lia).
    now rewrite xorb_nilpotent.
Qed.

Lemma land_pow2 z a :
  0 <= a -> Z.land z (2 ^ a) = if Z.testbit z a then 2 ^ a else 0.
Proof.
  intros Ha. apply Z.bits_inj'. intros n Hn.
  rewrite Z.land_spec, Z.pow2_bits_eqb by assumption.
  destruct (Z.eqb_spec a n) as [->|N].
  - destruct (Z.testbit z n); [now rewrite Z.pow2_bits_true | now rewrite Z.testbit_0_l].
  - rewrite andb_false_r.
    destruct (Z.testbit z a); [|now rewrite Z.testbit_0_l].
    rewrite Z.pow2_bits_eqb by assumption. symmetry. now apply Z.eqb_neq.
Qed.

(** [three_way] leaves bit 16 for the bytes 2, 3, 4 and bit 40 for the
    bytes 5, 6, 7. *)
Lemma three_way_value y :
  three_way y
  = (if Z.testbit (fold_byte y) 16 && Z.testbit (fold_byte y) 24
        && Z.testbit (fold_byte y) 32 then 2 ^ 16 else 0)
    + (if Z.testbit (fold_byte y) 40 && Z.testbit (fold_byte y) 48
          && Z.testbit (fold_byte y) 56 then 2 ^ 40 else 0).
Proof.
  unfold three_way. cbv zeta. generalize (fold_byte y) as z. intros z.
  change 0x0000010000010000 with (Z.lor (2 ^ 16) (2 ^ 40)).
  rewrite Z.land_lor_distr_r, !land_pow2 by lia.
  rewrite !Z.land_spec.
  rewrite (testbit_shr64 z 16 16 32), (testbit_shr64 z 8 16 24),
    (testbit_shr64 z 0 16 16), (testbit_shr64 z 16 40 56),
    (testbit_shr64 z 8 40 48), (testbit_shr64 z 0 40 40) by lia.
  destruct (Z.testbit z 16), (Z.testbit z 24), (Z.testbit z 32),
    (Z.testbit z 40), (Z.testbit z 48), (Z.testbit z 56); reflexivity.
Qed.

(** [four_way] leaves bit 0 for the bytes 0 to 3 and bit 32 for the bytes
    4 to 7. *)
Lemma four_way_value y :
  four_way y
  = (if Z.testbit (fold_byte y) 0 && Z.testbit (fold_byte y) 8
        && Z.testbit (fold_byte y) 16 && Z.testbit (fold_byte y) 24
     then 1 else 0)
    + (if Z.testbit (fold_byte y) 32 && Z.testbit (fold_byte y) 40
          && Z.testbit (fold_byte y) 48 && Z.testbit (fold_byte y) 56
       then 2 ^ 32 else 0).
Proof.
  unfold four_way. cbv zeta. generalize (fold_byte y) as z. intros z.
  change 0x0000000100000001 with (Z.lor (2 ^ 0) (2 ^ 32)).
  rewrite Z.land_lor_distr_r, !land_pow2 by lia.
  rewrite !Z.land_spec.
  rewrite (testbit_shr64 _ 16 0 16), (testbit_shr64 _ 16 32 48) by lia.
  rewrite !Z.land_spec.
  rewrite (testbit_shr64 z 8 0 8), (testbit_shr64 z 8 16 24),
    (testbit_shr64 z 8 32 40), (testbit_shr64 z 8 48 56) by lia.
  destruct (Z.testbit z 0), (Z.testbit z 8), (Z.testbit z 16), (Z.testbit z 24),
    (Z.testbit z 32), (Z.testbit z 40), (Z.testbit z 48), (Z.testbit z 56);
    reflexivity.
Qed.

Lemma three_way_lanes a b :
  bytes_ok a -> bytes_ok b ->
  three_way (not64 (Z.lxor (le_val a) (le_val b)))
  = (if (nth 2 a 0 =? nth 2 b 0) && (nth 3 a 0 =? nth 3 b 0)
        && (nth 4 a 0 =? nth 4 b 0) then 2 ^ 16 else 0)
    + (if (nth 5 a 0 =? nth 5 b 0) && (nth 6 a 0 =? nth 6 b 0)
          && (nth 7 a 0 =? nth 7 b 0) then 2 ^ 40 else 0).
Proof.
  intros Ha Hb. rewrite three_way_value.
  rewrite <- (lane_equal a b 2), <- (lane_equal a b 3), <- (lane_equal a b 4),
    <- (lane_equal a b 5), <- (lane_equal a b 6), <- (lane_equal a b 7)
    by (auto; lia).
  reflexivity.
Qed.

Lemma four_way_lanes a b :
  bytes_ok a -> bytes_ok b ->
  four_way (not64 (Z.lxor (le_val a) (le_val b)))
  = (if (nth 0 a 0 =? nth 0 b 0) && (nth 1 a 0 =? nth 1 b 0)
        && (nth 2 a 0 =? nth 2 b 0) && (nth 3 a 0 =? nth 3 b 0) then 1 else 0)
    + (if (nth 4 a 0 =? nth 4 b 0) && (nth 5 a 0 =? nth 5 b 0)
          && (nth 6 a 0 =? nth 6 b 0) && (nth 7 a 0 =? nth 7 b 0)
       then 2 ^ 32 else 0).
Proof.
  intros Ha Hb. rewrite four_way_value.
  rewrite <- (lane_equal a b 0), <- (lane_equal a b 1), <- (lane_equal a b 2),
    <- (lane_equal a b 3), <- (lane_equal a b 4), <- (lane_equal a b 5),
    <- (lane_equal a b 6), <- (lane_equal a b 7) by (auto; lia).
  reflexivity.
Qed.

Lemma split_lor a A b B :
  0 <= a < 256 -> 0 <= b < 256 ->
  Z.lor (a + 256 * A) (b + 256 * B) = Z.lor a b + 256 * Z.lor A B.
Proof.
  intros Ha Hb.
  rewrite (join_bytes (Z.lor _ _)).
  rewrite Z.shiftr_lor, !split_high by assumption.
  rewrite <- Z.land_ones, Z.land_lor_distr_l, !Z.land_ones, !split_low
    by (assumption || lia).
  reflexivity.
Qed.

Lemma land_le_val : forall a b,
  bytes_ok a -> bytes_ok b -> length a = length b ->
  Z.land (le_val a) (le_val b) = le_val (zip_bytes Z.land a b).
Proof.
  induction a as [|x a IH]; intros [|y b] Ha Hb L; try discriminate;
    [reflexivity|].
  inversion Ha; inversion Hb; subst. cbn [le_val zip_bytes].
  rewrite split_land, IH by (auto; cbn in L; lia). reflexivity.
Qed.

Lemma lor_le_val : forall a b,
  bytes_ok a -> bytes_ok b -> length a = length b ->
  Z.lor (le_val a) (le_val b) = le_val (zip_bytes Z.lor a b).
Proof.
  induction a as [|x a IH]; intros [|y b] Ha Hb L; try discriminate;
    [reflexivity|].
  inversion Ha; inversion Hb; subst. cbn [le_val zip_bytes].
  rewrite split_lor, IH by (auto; cbn in L; lia). reflexivity.
Qed.

Lemma land_255 x : 0 <= x < 256 -> Z.land x 255 = x.
Proof.
  intros H. change 255 with (Z.ones 8). rewrite Z.land_ones by lia.
  apply Z.mod_small. cbn. lia.
Qed.

(** Splits a hypothesis on the bytes of a list into bounds, and proves
    such a goal from bounds. *)
Ltac bytes_bounds H :=
  unfold bytes_ok in H; repeat (apply Forall_cons_iff in H as [? H]).

Ltac bytes_ok_tac :=
  unfold bytes_ok;
  repeat (apply Forall_cons; [first [apply byte_val_range | lia] | ]);
  apply Forall_nil.

Section ByteShifts.
Variables x0 x1 x2 x3 x4 x5 x6 x7 : Z.
Hypothesis ok : bytes_ok [x0; x1; x2; x3; x4; x5; x6; x7].

Lemma shl64_bytes_1 :
  shl64 (le_val [x0; x1; x2; x3; x4; x5; x6; x7]) 8
  = le_val [0; x0; x1; x2; x3; x4; x5; x6].
Proof.
  pose proof ok as H. bytes_bounds H.
  unfold shl64, u64, wrap. rewrite Z.shiftl_mul_pow2 by lia.
  replace (le_val [x0; x1; x2; x3; x4; x5; x6; x7] * 2 ^ 8)
    with (le_val [0; x0; x1; x2; x3; x4; x5; x6] + x7 * 2 ^ 64)
    by (cbn [le_val]; pow_lia).
  rewrite Z.mod_add by (cbn; lia). apply Z.mod_small.
  apply (le_val_range [0; x0; x1; x2; x3; x4; x5; x6]). bytes_ok_tac.
Qed.

Lemma shl64_bytes_2 :
  shl64 (le_val [x0; x1; x2; x3; x4; x5; x6; x7]) 16
  = le_val [0; 0; x0; x1; x2; x3; x4; x5].
Proof.
  pose proof ok as H. bytes_bounds H.
  unfold shl64, u64, wrap. rewrite Z.shiftl_mul_pow2 by lia.
  replace (le_val [x0; x1; x2; x3; x4; x5; x6; x7] * 2 ^ 16)
    with (le_val [0; 0; x0; x1; x2; x3; x4; x5] + (x6 + 256 * x7) * 2 ^ 64)
    by (cbn [le_val]; pow_lia).
  rewrite Z.mod_add by (cbn; lia). apply Z.mod_small.
  apply (le_val_range [0; 0; x0; x1; x2; x3; x4; x5]). bytes_ok_tac.
Qed.

Lemma shl64_bytes_3 :
  shl64 (le_val [x0; x1; x2; x3; x4; x5; x6; x7]) 24
  = le_val [0; 0; 0; x0; x1; x2; x3; x4].
Proof.
  pose proof ok as H. bytes_bounds H.
  unfold shl64, u64, wrap. rewrite Z.shiftl_mul_pow2 by lia.
  replace (le_val [x0; x1; x2; x3; x4; x5; x6; x7] * 2 ^ 24)
    with (le_val [0; 0; 0; x0; x1; x2; x3; x4]
          + (x5 + 256 * x6 + 65536 * x7) * 2 ^ 64)
    by (cbn [le_val]; pow_lia).
  rewrite Z.mod_add by (cbn; lia). apply Z.mod_small.
  apply (le_val_range [0; 0; 0; x0; x1; x2; x3; x4]). bytes_ok_tac.
Qed.

Lemma shr64_bytes_2 :
  shr64 (le_val [x0; x1; x2; x3; x4; x5; x6; x7]) 16
  = le_val [x2; x3; x4; x5; x6; x7; 0; 0].
Proof.
  pose proof ok as H.
  pose proof (le_val_range _ ok) as R.
  change (256 ^ Z.of_nat (length [x0; x1; x2; x3; x4; x5; x6; x7]))
    with (2 ^ 64) in R.
  bytes_bounds H.
  unfold shr64. rewrite u64_small by assumption.
  rewrite Z.shiftr_div_pow2 by lia.
  replace (le_val [x0; x1; x2; x3; x4; x5; x6; x7])
    with (x0 + 256 * x1 + le_val [x2; x3; x4; x5; x6; x7; 0; 0] * 2 ^ 16)
    by (cbn [le_val]; pow_lia).
  rewrite Z.div_add by (cbn; lia).
  rewrite Z.div_small by pow_lia. lia.
Qed.

End ByteShifts.

Lemma le_load_8 m p :
  le_load m p 8
  = le_val [byte_val (m p); byte_val (m (p + 1)); byte_val (m (p + 2));
            byte_val (m (p + 3)); byte_val (m (p + 4)); byte_val (m (p + 5));
            byte_val (m (p + 6)); byte_val (m (p + 7))].
Proof.
  rewrite le_load_le_val. cbn [bytes_at map].
  repeat (f_equal; try (f_equal; f_equal; lia)).
Qed.

Lemma same_bytes_3 m p p1 p2 q :
  p1 = p + 1 -> p2 = p + 2 ->
  same_bytes m p q 3
  = (byte_val (m p) =? byte_val (m q))
    && (byte_val (m p1) =? byte_val (m (q + 1)))
    && (byte_val (m p2) =? byte_val (m (q + 2))).
Proof.
  intros -> ->. unfold same_bytes. cbn [bytes_at].
  replace (p + 1 + 1) with (p + 2) by lia.
  replace (q + 1 + 1) with (q + 2) by lia.
  destruct (list_eq_dec _ _ _) as [E|N].
  - injection E as -> -> ->. now rewrite !Z.eqb_refl.
  - destruct (Z.eqb_spec (byte_val (m p)) (byte_val (m q))) as [E0|]; [|reflexivity].
    destruct (Z.eqb_spec (byte_val (m (p + 1))) (byte_val (m (q + 1)))) as [E1|];
      [|reflexivity].
    destruct (Z.eqb_spec (byte_val (m (p + 2))) (byte_val (m (q + 2)))) as [E2|];
      [|reflexivity].
    apply byte_val_inj in E0, E1, E2. exfalso. apply N. congruence.
Qed.

Lemma same_bytes_4 m p p1 p2 p3 q :
  p1 = p + 1 -> p2 = p + 2 -> p3 = p + 3 ->
  same_bytes m p q 4
  = (byte_val (m p) =? byte_val (m q))
    && (byte_val (m p1) =? byte_val (m (q + 1)))
    && (byte_val (m p2) =? byte_val (m (q + 2)))
    && (byte_val (m p3) =? byte_val (m (q + 3))).
Proof.
  intros -> -> ->. unfold same_bytes. cbn [bytes_at].
  replace (p + 1 + 1) with (p + 2) by lia.
  replace (q + 1 + 1) with (q + 2) by lia.
  replace (p + 2 + 1) with (p + 3) by lia.
  replace (q + 2 + 1) with (q + 3) by lia.
  destruct (list_eq_dec _ _ _) as [E|N].
  - injection E as -> -> -> ->. now rewrite !Z.eqb_refl.
  - destruct (Z.eqb_spec (byte_val (m p)) (byte_val (m q))) as [E0|]; [|reflexivity].
    destruct (Z.eqb_spec (byte_val (m (p + 1))) (byte_val (m (q + 1)))) as [E1|];
      [|reflexivity].
    destruct (Z.eqb_spec (byte_val (m (p + 2))) (byte_val (m (q + 2)))) as [E2|];
      [|reflexivity].
    destruct (Z.eqb_spec (byte_val (m (p + 3))) (byte_val (m (q + 3)))) as [E3|];
      [|reflexivity].
    apply byte_val_inj in E0, E1, E2, E3. exfalso. apply N. congruence.
Qed.

(** The words the three-byte kernel combines, by the matches they flag. *)
Lemma pick3 (e0 e1 e2 e3 e4 e5 : bool) :
  let flag := fun b b' : bool =>
    (if b then 2 ^ 16 else 0) + (if b' then 2 ^ 40 else 0) in
  let match_indicators :=
    Z.lor (Z.lor (flag e2 e5) (shr64 (flag e1 e4) 8)) (shr64 (flag e0 e3) 16) in
  (match_indicators =? 0) = negb (e0 || e1 || e2 || e3 || e4 || e5)
  /\ sz_ctz64 match_indicators / 8
     = if e0 then 0 else if e1 then 1 else if e2 then 2
       else if e3 then 3 else if e4 then 4 else if e5 then 5 else 8.
Proof.
  destruct e0, e1, e2, e3, e4, e5; vm_compute; split; reflexivity.
Qed.

(** ** The three-byte finder *)

Section Find3Facts.
Context {abi : ABI}.
Variables (m : mem) (haystack : Z) (haystack_length : nat) (needle : Z).
Hypothesis plain_needle : plain_chars m needle 3.

Lemma broadcast_3byte :
  let nn :=
    Z.lor (Z.lor (u64 (char_val (m needle)))
                 (shl64 (u64 (char_val (m (needle + 1)))) 8))
          (shl64 (u64 (char_val (m (needle + 2)))) 16) in
  let nn := Z.lor nn (shl64 nn 24) in
  shl64 nn 16
  = le_val [0; 0; byte_val (m needle); byte_val (m (needle + 1));
            byte_val (m (needle + 2)); byte_val (m needle);
            byte_val (m (needle + 1)); byte_val (m (needle + 2))].
Proof.
  cbv zeta.
  rewrite (plain_char_val_first m needle 2 plain_needle),
    (plain_char_val_at m needle 3 1 plain_needle),
    (plain_char_val_at m needle 3 2 plain_needle) by lia.
  pose proof (byte_val_range (m needle)) as R0.
  pose proof (byte_val_range (m (needle + 1))) as R1.
  pose proof (byte_val_range (m (needle + 2))) as R2.
  generalize dependent (byte_val (m needle)). intros c0 R0.
  generalize dependent (byte_val (m (needle + 1))). intros c1 R1.
  generalize dependent (byte_val (m (needle + 2))). intros c2 R2.
  rewrite !(u64_small c0), !(u64_small c1), !(u64_small c2) by word_lia.
  unfold shl64.
  rewrite !(Z.shiftl_mul_pow2 c1), !(Z.shiftl_mul_pow2 c2) by lia.
  rewrite !(u64_small (c1 * 2 ^ 8)), !(u64_small (c2 * 2 ^ 16)) by pow_lia.
  rewrite <- !(Z.shiftl_mul_pow2 c1), <- !(Z.shiftl_mul_pow2 c2) by lia.
  rewrite !(lor_shiftl_add c0 c1 8) by pow_lia.
  rewrite !(lor_shiftl_add (c0 + c1 * 2 ^ 8) c2 16) by pow_lia.
  set (n := c0 + c1 * 2 ^ 8 + c2 * 2 ^ 16).
  assert (0 <= n < 2 ^ 24) as Rn by (subst n; pow_lia).
  rewrite (u64_small (Z.shiftl n 24)) by (rewrite Z.shiftl_mul_pow2 by lia; pow_lia).
  rewrite (lor_shiftl_add n n 24) by pow_lia.
  rewrite Z.shiftl_mul_pow2 by lia.
  rewrite u64_small by pow_lia.
  subst n. cbn [le_val]. pow_lia.
Qed.

Lemma same3_same_bytes text :
  char_eq m text needle && char_eq m (text + 1) (needle + 1)
  && char_eq m (text + 2) (needle + 2)
  = same_bytes m text needle 3.
Proof.
  rewrite (same_bytes_3 m text (text + 1) (text + 2)) by reflexivity.
  unfold char_eq. now rewrite <- !byte_val_eqb.
Qed.

Lemma swar3_indicators text :
  let nn :=
    Z.lor (Z.lor (u64 (char_val (m needle)))
                 (shl64 (u64 (char_val (m (needle + 1)))) 8))
          (shl64 (u64 (char_val (m (needle + 2)))) 16) in
  let nn := Z.lor nn (shl64 nn 24) in
  let nn := shl64 nn 16 in
  let text_slice := le_load m text 8 in
  let flag := fun b b' : bool =>
    (if b then 2 ^ 16 else 0) + (if b' then 2 ^ 40 else 0) in
  let hit := fun k => same_bytes m (text + k) needle 3 in
  three_way (not64 (Z.lxor text_slice nn)) = flag (hit 2) (hit 5)
  /\ three_way (not64 (Z.lxor (shl64 text_slice 8) nn)) = flag (hit 1) (hit 4)
  /\ three_way (not64 (Z.lxor (shl64 text_slice 16) nn)) = flag (same_bytes m text needle 3) (hit 3).
Proof.
  cbv zeta. rewrite broadcast_3byte, le_load_8.
  rewrite shl64_bytes_1, shl64_bytes_2 by bytes_ok_tac.
  rewrite !three_way_lanes by bytes_ok_tac. cbn [nth].
  rewrite (same_bytes_3 m (text + 2) (text + 3) (text + 4)),
    (same_bytes_3 m (text + 5) (text + 6) (text + 7)),
    (same_bytes_3 m (text + 1) (text + 2) (text + 3)),
    (same_bytes_3 m (text + 4) (text + 5) (text + 6)),
    (same_bytes_3 m text (text + 1) (text + 2)),
    (same_bytes_3 m (text + 3) (text + 4) (text + 5)) by lia.
  repeat split.
Qed.

Lemma same3_step text :
  unseen m haystack needle 3 text -> haystack <= text ->
  text + 3 <= haystack + Z.of_nat haystack_length ->
  match (if char_eq m text needle && char_eq m (text + 1) (needle + 1)
            && char_eq m (text + 2) (needle + 2)
         then Some (Ptr text) else None) with
  | Some r => r = found m haystack haystack_length needle 3
  | None => unseen m haystack needle 3 (text + 1)
  end.
Proof.
  intros U H1 H2. rewrite same3_same_bytes.
  destruct (same_bytes m text needle 3) eqn:E.
  - apply found_at; auto.
  - apply unseen_next; [assumption|lia|].
    intros j Hj. replace (Z.of_nat j) with 0 by lia. now rewrite Z.add_0_r.
Qed.

Lemma swar3_step text :
  unseen m haystack needle 3 text -> haystack <= text ->
  text + 8 <= haystack + Z.of_nat haystack_length ->
  match (let nn :=
           Z.lor (Z.lor (u64 (char_val (m needle)))
                        (shl64 (u64 (char_val (m (needle + 1)))) 8))
                 (shl64 (u64 (char_val (m (needle + 2)))) 16) in
         let nn := Z.lor nn (shl64 nn 24) in
         let nn := shl64 nn 16 in
         let text_slice := le_load m text 8 in
         let first_indicators := not64 (Z.lxor text_slice nn) in
         let second_indicators := not64 (Z.lxor (shl64 text_slice 8) nn) in
         let third_indicators := not64 (Z.lxor (shl64 text_slice 16) nn) in
         let first_indicators := three_way first_indicators in
         let second_indicators := three_way second_indicators in
         let third_indicators := three_way third_indicators in
         let match_indicators :=
           Z.lor (Z.lor first_indicators (shr64 second_indicators 8))
                 (shr64 third_indicators 16) in
         if negb (match_indicators =? 0)
         then Some (Ptr (text + sz_ctz64 match_indicators / 8))
         else None) with
  | Some r => r = found m haystack haystack_length needle 3
  | None => unseen m haystack needle 3 (text + 6)
  end.
Proof.
  intros U H1 H2. cbv zeta.
  destruct (swar3_indicators text) as (F1 & F2 & F3). cbv zeta in F1, F2, F3.
  rewrite F1, F2, F3. clear F1 F2 F3.
  destruct (pick3 (same_bytes m text needle 3) (same_bytes m (text + 1) needle 3)
              (same_bytes m (text + 2) needle 3) (same_bytes m (text + 3) needle 3)
              (same_bytes m (text + 4) needle 3) (same_bytes m (text + 5) needle 3))
    as [Ez Ec].
  cbv zeta in Ez, Ec. rewrite Ez, Ec. clear Ez Ec.
  destruct (same_bytes m text needle 3) eqn:E0;
    [|destruct (same_bytes m (text + 1) needle 3) eqn:E1;
      [|destruct (same_bytes m (text + 2) needle 3) eqn:E2;
        [|destruct (same_bytes m (text + 3) needle 3) eqn:E3;
          [|destruct (same_bytes m (text + 4) needle 3) eqn:E4;
            [|destruct (same_bytes m (text + 5) needle 3) eqn:E5]]]]];
    cbn [orb negb];
    try (apply found_at; [apply unseen_next; [assumption|lia|] |lia|lia|
                          rewrite ?Z.add_0_r; assumption]);
    try (apply unseen_next; [assumption|lia|]);
    intros j Hj;
    do 6 (destruct j as [|j];
          [cbn [Z.of_nat Pos.of_succ_nat Pos.succ]; rewrite ?Z.add_0_r;
           first [assumption | lia]|]);
    lia.
Qed.

Lemma find_3byte_spec :
  sz_find_3byte_serial m haystack haystack_length needle
  = Some (found m haystack haystack_length needle 3).
Proof.
  unfold sz_find_3byte_serial.
  set (end_ := haystack + Z.of_nat haystack_length).
  set (mu := fun text : Z => Z.to_nat (end_ - text)).
  set (Inv := fun text : Z =>
    haystack <= text <= Z.max haystack end_ /\ unseen m haystack needle 3 text).
  set (Post := fun r : sz_cptr_t => r = found m haystack haystack_length needle 3).
  scan_loop mu Inv Post.
  { intros t _ G. guard_facts G. subst mu. cbv beta. lia. }
  { intros t [B U] G. guard_facts G.
    pose proof (same3_step t U) as St.
    match goal with |- match (if ?c then _ else _) with _ => _ end =>
      destruct c end; [apply St; lia|].
    split; [lia | apply St; lia]. }
  { subst mu end_. cbv beta. lia. }
  { split; [subst end_; lia | apply unseen_start]. }
  destruct H as [B U].
  scan_loop mu Inv Post.
  { intros t _ G'. guard_facts G'. subst mu. cbv beta. lia. }
  { intros t [B' U'] G'. guard_facts G'.
    pose proof (swar3_step t U') as St. cbv zeta in St |- *.
    match goal with |- match (if ?c then _ else _) with _ => _ end =>
      destruct c end; [apply St; lia|].
    split; [lia | apply St; lia]. }
  { subst mu end_. cbv beta. lia. }
  { split; assumption. }
  destruct H as [B' U'].
  scan_loop mu Inv Post.
  { intros t _ G'. guard_facts G'. subst mu. cbv beta. lia. }
  { intros t [B'' U''] G'. guard_facts G'.
    pose proof (same3_step t U'') as St.
    match goal with |- match (if ?c then _ else _) with _ => _ end =>
      destruct c end; [apply St; lia|].
    split; [lia | apply St; lia]. }
  { subst mu end_. cbv beta. lia. }
  { split; assumption. }
  destruct H as [B'' U''].
  f_equal.
  match goal with G : (?t + 3 <=? end_) = false |- _ =>
    apply (found_nothing _ _ _ _ _ t); [assumption|];
    apply Z.leb_gt in G; subst end_; lia
  end.
Qed.

End Find3Facts.

(** ** The four-byte finder *)

(** The words the four-byte kernel combines, by the matches they flag, and
    the offset it reads from [offset_in_slice]. *)
Lemma pick4 (e0 e1 e2 e3 : bool) :
  let flag := fun b b' : bool =>
    (if b then 1 else 0) + (if b' then 2 ^ 32 else 0) in
  let text01_indicators := flag e0 e1 in
  let text23_indicators := flag e2 e3 in
  (add64 text01_indicators text23_indicators =? 0) = negb (e0 || e1 || e2 || e3)
  /\ nth (Z.to_nat (u8 (Z.lor (Z.lor (Z.lor (shr64 text01_indicators 31)
                                            (shl64 text01_indicators 0))
                                     (shr64 text23_indicators 29))
                              (shl64 text23_indicators 2))))
         offset_in_slice 0
     = if e0 then 0 else if e1 then 1 else if e2 then 2 else if e3 then 3 else 0.
Proof.
  destruct e0, e1, e2, e3; vm_compute; split; reflexivity.
Qed.

Section Find4Facts.
Context {abi : ABI}.
Variables (m : mem) (haystack : Z) (haystack_length : nat) (needle : Z).
Hypothesis plain_needle : plain_chars m needle 4.

Lemma broadcast_4byte :
  let nn :=
    Z.lor (Z.lor (Z.lor (u64 (char_val (m needle)))
                        (shl64 (u64 (char_val (m (needle + 1)))) 8))
                 (shl64 (u64 (char_val (m (needle + 2)))) 16))
          (shl64 (u64 (char_val (m (needle + 3)))) 24) in
  Z.lor nn (shl64 nn 32)
  = le_val [byte_val (m needle); byte_val (m (needle + 1));
            byte_val (m (needle + 2)); byte_val (m (needle + 3));
            byte_val (m needle); byte_val (m (needle + 1));
            byte_val (m (needle + 2)); byte_val (m (needle + 3))].
Proof.
  cbv zeta.
  rewrite (plain_char_val_first m needle 3 plain_needle),
    (plain_char_val_at m needle 4 1 plain_needle),
    (plain_char_val_at m needle 4 2 plain_needle),
    (plain_char_val_at m needle 4 3 plain_needle) by lia.
  pose proof (byte_val_range (m needle)) as R0.
  pose proof (byte_val_range (m (needle + 1))) as R1.
  pose proof (byte_val_range (m (needle + 2))) as R2.
  pose proof (byte_val_range (m (needle + 3))) as R3.
  generalize dependent (byte_val (m needle)). intros c0 R0.
  generalize dependent (byte_val (m (needle + 1))). intros c1 R1.
  generalize dependent (byte_val (m (needle + 2))). intros c2 R2.
  generalize dependent (byte_val (m (needle + 3))). intros c3 R3.
  rewrite !(u64_small c0), !(u64_small c1), !(u64_small c2), !(u64_small c3)
    by word_lia.
  unfold shl64.
  rewrite !(Z.shiftl_mul_pow2 c1), !(Z.shiftl_mul_pow2 c2),
    !(Z.shiftl_mul_pow2 c3) by lia.
  rewrite !(u64_small (c1 * 2 ^ 8)), !(u64_small (c2 * 2 ^ 16)),
    !(u64_small (c3 * 2 ^ 24)) by pow_lia.
  rewrite <- !(Z.shiftl_mul_pow2 c1), <- !(Z.shiftl_mul_pow2 c2),
    <- !(Z.shiftl_mul_pow2 c3) by lia.
  rewrite !(lor_shiftl_add c0 c1 8) by pow_lia.
  rewrite !(lor_shiftl_add (c0 + c1 * 2 ^ 8) c2 16) by pow_lia.
  rewrite !(lor_shiftl_add (c0 + c1 * 2 ^ 8 + c2 * 2 ^ 16) c3 24) by pow_lia.
  set (n := c0 + c1 * 2 ^ 8 + c2 * 2 ^ 16 + c3 * 2 ^ 24).
  assert (0 <= n < 2 ^ 32) as Rn by (subst n; pow_lia).
  rewrite (u64_small (Z.shiftl n 32)) by (rewrite Z.shiftl_mul_pow2 by lia; pow_lia).
  rewrite (lor_shiftl_add n n 32) by pow_lia.
  subst n. cbn [le_val]. pow_lia.
Qed.

Lemma same4_same_bytes text :
  char_eq m text needle && char_eq m (text + 1) (needle + 1)
  && char_eq m (text + 2) (needle + 2) && char_eq m (text + 3) (needle + 3)
  = same_bytes m text needle 4.
Proof.
  rewrite (same_bytes_4 m text (text + 1) (text + 2) (text + 3)) by reflexivity.
  unfold char_eq. now rewrite <- !byte_val_eqb.
Qed.

Lemma slices_4byte text :
  let text_slice := le_load m text 8 in
  let x := fun k => byte_val (m (text + k)) in
  Z.lor (Z.land text_slice 0x00000000FFFFFFFF)
        (shl64 (Z.land text_slice 0x000000FFFFFFFF00) 24)
  = le_val [byte_val (m text); x 1; x 2; x 3; x 1; x 2; x 3; x 4]
  /\ Z.lor (shr64 (Z.land text_slice 0x0000FFFFFFFF0000) 16)
           (shl64 (Z.land text_slice 0x00FFFFFFFF000000) 8)
     = le_val [x 2; x 3; x 4; x 5; x 3; x 4; x 5; x 6].
Proof.
  cbv zeta. rewrite le_load_8.
  pose proof (byte_val_range (m text)) as R0.
  pose proof (byte_val_range (m (text + 1))) as R1.
  pose proof (byte_val_range (m (text + 2))) as R2.
  pose proof (byte_val_range (m (text + 3))) as R3.
  pose proof (byte_val_range (m (text + 4))) as R4.
  pose proof (byte_val_range (m (text + 5))) as R5.
  pose proof (byte_val_range (m (text + 6))) as R6.
  pose proof (byte_val_range (m (text + 7))) as R7.
  change 0x00000000FFFFFFFF with (le_val [255; 255; 255; 255; 0; 0; 0; 0]).
  change 0x000000FFFFFFFF00 with (le_val [0; 255; 255; 255; 255; 0; 0; 0]).
  change 0x0000FFFFFFFF0000 with (le_val [0; 0; 255; 255; 255; 255; 0; 0]).
  change 0x00FFFFFFFF000000 with (le_val [0; 0; 0; 255; 255; 255; 255; 0]).
  rewrite !land_le_val by (reflexivity || bytes_ok_tac).
  cbn [zip_bytes]. rewrite !land_255, !Z.land_0_r by assumption.
  rewrite shl64_bytes_3, shr64_bytes_2, shl64_bytes_1 by bytes_ok_tac.
  rewrite !lor_le_val by (reflexivity || bytes_ok_tac).
  cbn [zip_bytes]. rewrite !Z.lor_0_r, !Z.lor_0_l. split; reflexivity.
Qed.

Lemma swar4_indicators text :
  let nn :=
    Z.lor (Z.lor (Z.lor (u64 (char_val (m needle)))
                        (shl64 (u64 (char_val (m (needle + 1)))) 8))
                 (shl64 (u64 (char_val (m (needle + 2)))) 16))
          (shl64 (u64 (char_val (m (needle + 3)))) 24) in
  let nn := Z.lor nn (shl64 nn 32) in
  let text_slice := le_load m text 8 in
  let text01 :=
    Z.lor (Z.land text_slice 0x00000000FFFFFFFF)
          (shl64 (Z.land text_slice 0x000000FFFFFFFF00) 24) in
  let text23 :=
    Z.lor (shr64 (Z.land text_slice 0x0000FFFFFFFF0000) 16)
          (shl64 (Z.land text_slice 0x00FFFFFFFF000000) 8) in
  let flag := fun b b' : bool =>
    (if b then 1 else 0) + (if b' then 2 ^ 32 else 0) in
  let hit := fun k => same_bytes m (text + k) needle 4 in
  four_way (not64 (Z.lxor text01 nn)) = flag (same_bytes m text needle 4) (hit 1)
  /\ four_way (not64 (Z.lxor text23 nn)) = flag (hit 2) (hit 3).
Proof.
  cbv zeta. destruct (slices_4byte text) as [S01 S23]. cbv zeta beta in S01, S23.
  rewrite broadcast_4byte, S01, S23.
  rewrite !four_way_lanes by bytes_ok_tac. cbn [nth].
  rewrite (same_bytes_4 m text (text + 1) (text + 2) (text + 3)),
    (same_bytes_4 m (text + 1) (text + 2) (text + 3) (text + 4)),
    (same_bytes_4 m (text + 2) (text + 3) (text + 4) (text + 5)),
    (same_bytes_4 m (text + 3) (text + 4) (text + 5) (text + 6)) by lia.
  split; reflexivity.
Qed.

Lemma same4_step text :
  unseen m haystack needle 4 text -> haystack <= text ->
  text + 4 <= haystack + Z.of_nat haystack_length ->
  match (if char_eq m text needle && char_eq m (text + 1) (needle + 1)
            && char_eq m (text + 2) (needle + 2)
            && char_eq m (text + 3) (needle + 3)
         then Some (Ptr text) else None) with
  | Some r => r = found m haystack haystack_length needle 4
  | None => unseen m haystack needle 4 (text + 1)
  end.
Proof.
  intros U H1 H2. rewrite same4_same_bytes.
  destruct (same_bytes m text needle 4) eqn:E.
  - apply found_at; auto.
  - apply unseen_next; [assumption|lia|].
    intros j Hj. replace (Z.of_nat j) with 0 by lia. now rewrite Z.add_0_r.
Qed.

Lemma swar4_step text :
  unseen m haystack needle 4 text -> haystack <= text ->
  text + 8 <= haystack + Z.of_nat haystack_length ->
  match (let nn :=
           Z.lor (Z.lor (Z.lor (u64 (char_val (m needle)))
                               (shl64 (u64 (char_val (m (needle + 1)))) 8))
                        (shl64 (u64 (char_val (m (needle + 2)))) 16))
                 (shl64 (u64 (char_val (m (needle + 3)))) 24) in
         let nn := Z.lor nn (shl64 nn 32) in
         let text_slice := le_load m text 8 in
         let text01 :=
           Z.lor (Z.land text_slice 0x00000000FFFFFFFF)
                 (shl64 (Z.land text_slice 0x000000FFFFFFFF00) 24) in
         let text23 :=
           Z.lor (shr64 (Z.land text_slice 0x0000FFFFFFFF0000) 16)
                 (shl64 (Z.land text_slice 0x00FFFFFFFF000000) 8) in
         let text01_indicators := four_way (not64 (Z.lxor text01 nn)) in
         let text23_indicators := four_way (not64 (Z.lxor text23 nn)) in
         if negb (add64 text01_indicators text23_indicators =? 0) then
           let match_indicators :=
             u8 (Z.lor (Z.lor (Z.lor (shr64 text01_indicators 31)
                                     (shl64 text01_indicators 0))
                              (shr64 text23_indicators 29))
                       (shl64 text23_indicators 2)) in
           Some (Ptr (text + nth (Z.to_nat match_indicators) offset_in_slice 0))
         else None) with
  | Some r => r = found m haystack haystack_length needle 4
  | None => unseen m haystack needle 4 (text + 4)
  end.
Proof.
  intros U H1 H2. cbv zeta.
  destruct (swar4_indicators text) as (F1 & F2). cbv zeta in F1, F2.
  rewrite F1, F2. clear F1 F2.
  destruct (pick4 (same_bytes m text needle 4) (same_bytes m (text + 1) needle 4)
              (same_bytes m (text + 2) needle 4) (same_bytes m (text + 3) needle 4))
    as [Ez Ec].
  cbv zeta in Ez, Ec. rewrite Ez, Ec. clear Ez Ec.
  destruct (same_bytes m text needle 4) eqn:E0;
    [|destruct (same_bytes m (text + 1) needle 4) eqn:E1;
      [|destruct (same_bytes m (text + 2) needle 4) eqn:E2;
        [|destruct (same_bytes m (text + 3) needle 4) eqn:E3]]];
    cbn [orb negb];
    try (apply found_at; [apply unseen_next; [assumption|lia|] |lia|lia|
                          rewrite ?Z.add_0_r; assumption]);
    try (apply unseen_next; [assumption|lia|]);
    intros j Hj;
    do 4 (destruct j as [|j];
          [cbn [Z.of_nat Pos.of_succ_nat Pos.succ]; rewrite ?Z.add_0_r;
           first [assumption | lia]|]);
    lia.
Qed.

Lemma find_4byte_spec :
  sz_find_4byte_serial m haystack haystack_length needle
  = Some (found m haystack haystack_length needle 4).
Proof.
  unfold sz_find_4byte_serial.
  set (end_ := haystack + Z.of_nat haystack_length).
  set (mu := fun text : Z => Z.to_nat (end_ - text)).
  set (Inv := fun text : Z =>
    haystack <= text <= Z.max haystack end_ /\ unseen m haystack needle 4 text).
  set (Post := fun r : sz_cptr_t => r = found m haystack haystack_length needle 4).
  scan_loop mu Inv Post.
  { intros t _ G. guard_facts G. subst mu. cbv beta. lia. }
  { intros t [B U] G. guard_facts G.
    pose proof (same4_step t U) as St.
    match goal with |- match (if ?c then _ else _) with _ => _ end =>
      destruct c end; [apply St; lia|].
    split; [lia | apply St; lia]. }
  { subst mu end_. cbv beta. lia. }
  { split; [subst end_; lia | apply unseen_start]. }
  destruct H as [B U].
  scan_loop mu Inv Post.
  { intros t _ G'. guard_facts G'. subst mu. cbv beta. lia. }
  { intros t [B' U'] G'. guard_facts G'.
    pose proof (swar4_step t U') as St. cbv zeta in St |- *.
    match goal with |- match (if ?c then _ else _) with _ => _ end =>
      destruct c end; [apply St; lia|].
    split; [lia | apply St; lia]. }
  { subst mu end_. cbv beta. lia. }
  { split; assumption. }
  destruct H as [B' U'].
  scan_loop mu Inv Post.
  { intros t _ G'. guard_facts G'. subst mu. cbv beta. lia. }
  { intros t [B'' U''] G'. guard_facts G'.
    pose proof (same4_step t U'') as St.
    match goal with |- match (if ?c then _ else _) with _ => _ end =>
      destruct c end; [apply St; lia|].
    split; [lia | apply St; lia]. }
  { subst mu end_. cbv beta. lia. }
  { split; assumption. }
  destruct H as [B'' U''].
  f_equal.
  match goal with G : (?t + 4 <=? end_) = false |- _ =>
    apply (found_nothing _ _ _ _ _ t); [assumption|];
    apply Z.leb_gt in G; subst end_; lia
  end.
Qed.

End Find4Facts.

(** ** The dispatch of [sz_find_serial] *)

Lemma find_serial_spec {abi : ABI} (m : mem)
  (haystack : Z) (haystack_length : nat) (needle : Z) (needle_length : nat) :
  plain_chars m haystack haystack_length ->
  plain_chars m needle needle_length ->
  (needle_length = 1 \/ 3 <= needle_length <= 64)%nat ->
  sz_find_serial m haystack haystack_length needle needle_length
  = Some (found m haystack haystack_length needle needle_length).
Proof.
  intros Hh Hp Hn. unfold sz_find_serial.
  destruct (Nat.ltb_spec haystack_length needle_length) as [Hs|Hl].
  { unfold found. now rewrite find_ref_too_short. }
  destruct needle_length as [|[|[|[|[|[|[|[|[|n]]]]]]]]]; try lia.
  - now apply find_byte_spec.
  - now apply find_3byte_spec.
  - now apply find_4byte_spec.
  - apply (bitap_finds_first_occurrence 8 32); first [assumption | lia].
  - apply (bitap_finds_first_occurrence 8 32); first [assumption | lia].
  - apply (bitap_finds_first_occurrence 8 32); first [assumption | lia].
  - apply (bitap_finds_first_occurrence 8 32); first [assumption | lia].
  - match goal with |- context [(?n <=? 16)%nat] => destruct (Nat.leb_spec n 16) end.
    { apply (bitap_finds_first_occurrence 16 32); first [assumption | lia]. }
    match goal with |- context [(?n <=? 64)%nat] => destruct (Nat.leb_spec n 64) end.
    { apply (bitap_finds_first_occurrence 64 64); first [assumption | lia]. }
    lia.
Qed.

(** [sz_find_serial] returns the first occurrence of every needle of one
    byte or of 3 to 64 bytes, and [NULL] when the needle does not occur,
    where [char] is unsigned and, where it is signed, for a haystack and a
    needle of bytes below 128. *)
Theorem find_serial_finds_first_occurrence_of_plain_chars {abi : ABI} (m : mem)
  (haystack : Z) (haystack_length : nat) (needle : Z) (needle_length : nat) :
  plain_chars m haystack haystack_length ->
  plain_chars m needle needle_length ->
  (needle_length = 1 \/ 3 <= needle_length <= 64)%nat ->
  sz_find_serial m haystack haystack_length needle needle_length
  = Some match find_ref (bytes_at m haystack haystack_length)
                 (bytes_at m needle needle_length) with
         | Some q => Ptr (haystack + Z.of_nat q)
         | None => NULL
         end.
Proof. intros Hh Hp Hn. now apply find_serial_spec. Qed.

Lemma find_serial_plain_chars_witness :
  sz_find_serial (abi := x86_64_abi) fox_case 4096 25 8192 5
  = Some match find_ref (bytes_at fox_case 4096 25) (bytes_at fox_case 8192 5) with
         | Some q => Ptr (4096 + Z.of_nat q)
         | None => NULL
         end.
Proof.
  apply (find_serial_finds_first_occurrence_of_plain_chars (abi := x86_64_abi)
           fox_case 4096 25 8192 5).
  - right. intros i Hi.
    do 25 (destruct i as [|i]; [vm_compute; reflexivity|]). lia.
  - right. intros i Hi.
    do 5 (destruct i as [|i]; [vm_compute; reflexivity|]). lia.
  - lia.
Defined.

(** Where [char] is unsigned, [sz_find_serial] returns the first occurrence
    of every needle of one byte or of 3 to 64 bytes, and [NULL] when the
    needle does not occur: these are the lengths served by the single-byte
    finder, the three- and four-byte kernels and the Bitap kernels. *)
Theorem find_serial_finds_first_occurrence {abi : ABI} (m : mem)
  (haystack : Z) (haystack_length : nat) (needle : Z) (needle_length : nat) :
  char_signed = false ->
  (needle_length = 1 \/ 3 <= needle_length <= 64)%nat ->
  sz_find_serial m haystack haystack_length needle needle_length
  = Some match find_ref (bytes_at m haystack haystack_length)
                 (bytes_at m needle needle_length) with
         | Some q => Ptr (haystack + Z.of_nat q)
         | None => NULL
         end.
Proof. intros Hc Hn. apply find_serial_spec; auto; now left. Qed.

Lemma find_serial_witness :
  sz_find_serial (abi := aarch64_abi) fox_case 4096 25 8192 5
  = Some match find_ref (bytes_at fox_case 4096 25) (bytes_at fox_case 8192 5) with
         | Some q => Ptr (4096 + Z.of_nat q)
         | None => NULL
         end.
Proof.
  apply (find_serial_finds_first_occurrence (abi := aarch64_abi)
           fox_case 4096 25 8192 5).
  - reflexivity.
  - lia.
Defined.

(** Where [char] is unsigned, [sz_find_byte_serial] returns the first
    position of the needle's byte in the haystack, and [NULL] when the
    haystack does not hold it. *)
Theorem find_byte_finds_first_occurrence {abi : ABI} (m : mem)
  (haystack : Z) (haystack_length : nat) (needle : Z) :
  char_signed = false ->
  sz_find_byte_serial m haystack haystack_length needle
  = Some match find_ref (bytes_at m haystack haystack_length)
                 (bytes_at m needle 1) with
         | Some q => Ptr (haystack + Z.of_nat q)
         | None => NULL
         end.
Proof. intros Hc. apply find_byte_spec. now left. Qed.

Lemma find_byte_witness :
  sz_find_byte_serial (abi := aarch64_abi) rfind_case 4096 16 8192
  = Some match find_ref (bytes_at rfind_case 4096 16) (bytes_at rfind_case 8192 1) with
         | Some q => Ptr (4096 + Z.of_nat q)
         | None => NULL
         end.
Proof.
  apply (find_byte_finds_first_occurrence (abi := aarch64_abi) rfind_case 4096 16 8192).
  reflexivity.
Defined.

Lemma first_occurrence_upto m haystack haystack_length needle needle_length :
  forall t p k,
  (p <= k < p + t)%nat -> (k + needle_length <= haystack_length)%nat ->
  same_bytes m (haystack + Z.of_nat k) needle needle_length = true ->
  exists q, (p <= q <= k)%nat /\
    first_occurrence (bytes_at m haystack haystack_length)
      (bytes_at m needle needle_length) t p = Some q /\
    same_bytes m (haystack + Z.of_nat q) needle needle_length = true.
Proof.
  induction t as [|t IH]; intros p k Hk Hl Hs; [lia|].
  cbn [first_occurrence]. rewrite occurs_at_bytes by lia.
  destruct (same_bytes m (haystack + Z.of_nat p) needle needle_length) eqn:E.
  - exists p. repeat split; auto; lia.
  - assert (p <> k) by (intros ->; congruence).
    destruct (IH (S p) k) as (q & Hq & F & Sq); try lia; auto.
    exists q. repeat split; auto; lia.
Qed.

Lemma same_bytes_equal_serial m p q n :
  same_bytes m p q n = sz_equal_serial m p q n.
Proof.
  apply eq_iff_eq_true. rewrite equal_serial_spec. unfold same_bytes.
  destruct (list_eq_dec _ _ _); split; congruence.
Qed.

(** A needle of 1 byte or of 3 to 64 bytes that the haystack holds at some
    offset is found at or before that offset, at a position where
    [sz_equal_serial] confirms it (where [char] is unsigned, or the haystack
    and the needle hold bytes below 128). *)
Theorem find_serial_finds_what_equal_confirms {abi : ABI} (m : mem)
  (haystack : Z) (haystack_length : nat) (needle : Z) (needle_length : nat)
  (k : nat) :
  plain_chars m haystack haystack_length ->
  plain_chars m needle needle_length ->
  (needle_length = 1 \/ 3 <= needle_length <= 64)%nat ->
  (k + needle_length <= haystack_length)%nat ->
  sz_equal_serial m (haystack + Z.of_nat k) needle needle_length = true ->
  exists p,
    sz_find_serial m haystack haystack_length needle needle_length = Some (Ptr p)
    /\ haystack <= p <= haystack + Z.of_nat k
    /\ sz_equal_serial m p needle needle_length = true.
Proof.
  intros Hh Hp Hn Hk He.
  rewrite <- same_bytes_equal_serial in He.
  destruct (first_occurrence_upto m haystack haystack_length needle needle_length
              (S (haystack_length - needle_length)) 0 k) as (q & Hq & F & Sq);
    try lia; auto.
  exists (haystack + Z.of_nat q). rewrite <- same_bytes_equal_serial.
  split; [|split; [lia|assumption]].
  rewrite find_serial_spec by assumption. f_equal.
  unfold found, find_ref. rewrite !length_bytes_at, F. reflexivity.
Qed.

Lemma find_serial_finds_what_equal_confirms_witness :
  exists p,
    sz_find_serial (abi := aarch64_abi) fox_case 4096 25 8192 5 = Some (Ptr p)
    /\ 4096 <= p <= 4096 + Z.of_nat 10
    /\ sz_equal_serial fox_case p 8192 5 = true.
Proof.
  apply (find_serial_finds_what_equal_confirms (abi := aarch64_abi)
           fox_case 4096 25 8192 5 10); first [now left | reflexivity | lia].
Defined.

(** ** Needles over 64 bytes *)

Lemma first_occurrence_sound m haystack haystack_length needle needle_length :
  forall t p q,
  (p + t + needle_length <= haystack_length + 1)%nat ->
  first_occurrence (bytes_at m haystack haystack_length)
    (bytes_at m needle needle_length) t p = Some q ->
  (p <= q < p + t)%nat
  /\ same_bytes m (haystack + Z.of_nat q) needle needle_length = true.
Proof.
  induction t as [|t IH]; intros p q Hl H; [discriminate|].
  cbn [first_occurrence] in H. rewrite occurs_at_bytes in H by lia.
  destruct (same_bytes m (haystack + Z.of_nat p) needle needle_length) eqn:E.
  - injection H as <-. split; [lia | assumption].
  - apply IH in H; [|lia]. split; [lia | apply H].
Qed.

Lemma find_ref_sound m haystack haystack_length needle needle_length q :
  find_ref (bytes_at m haystack haystack_length) (bytes_at m needle needle_length)
  = Some q ->
  (q + needle_length <= haystack_length)%nat
  /\ same_bytes m (haystack + Z.of_nat q) needle needle_length = true.
Proof.
  intros H.
  destruct (Nat.ltb_spec haystack_length needle_length) as [L|L].
  { rewrite find_ref_too_short in H by assumption. discriminate. }
  unfold find_ref in H. rewrite !length_bytes_at in H.
  apply first_occurrence_sound in H; [|lia]. split; [lia | apply H].
Qed.

Lemma same_bytes_app m p q k n :
  same_bytes m p q k = true ->
  same_bytes m (p + Z.of_nat k) (q + Z.of_nat k) n = true ->
  same_bytes m p q (k + n) = true.
Proof.
  unfold same_bytes. rewrite !bytes_at_app.
  repeat match goal with |- context [list_eq_dec ?d ?x ?y] =>
    destruct (list_eq_dec d x y) end; congruence.
Qed.

Section FindLongFacts.
Context {abi : ABI}.
Variables (m : mem) (haystack : Z) (haystack_length : nat).
Variables (needle : Z) (needle_length : nat).
Hypothesis long_needle : (64 < needle_length)%nat.
Hypothesis plain_haystack : plain_chars m haystack haystack_length.
Hypothesis plain_needle : plain_chars m needle needle_length.

Lemma find_long_spec : forall fuel i,
  (haystack_length - needle_length < i + fuel)%nat ->
  exists r,
    find_long fuel m haystack haystack_length needle needle_length i = Some r
    /\ match r with
       | NULL => True
       | Ptr p =>
           haystack + Z.of_nat i <= p
           /\ p + 64 <= haystack + Z.of_nat haystack_length
           /\ same_bytes m p needle needle_length = true
       end.
Proof.
  induction fuel as [|fuel IH]; intros i Hf.
  { cbn [find_long].
    destruct (Nat.leb_spec i (haystack_length - needle_length)); [lia|].
    exists NULL. split; [reflexivity | exact I]. }
  cbn [find_long].
  destruct (Nat.leb_spec i (haystack_length - needle_length)) as [Hi|Hi];
    [|exists NULL; split; [reflexivity | exact I]].
  unfold sz_find_under64byte_serial.
  rewrite (bitap_finds_first_occurrence 64 64)
    by first [lia
              | apply plain_chars_part with (n := haystack_length); [assumption|lia]
              | apply plain_chars_prefix with (n := needle_length); [assumption|lia]].
  cbn [bind].
  destruct (find_ref (bytes_at m (haystack + Z.of_nat i) (haystack_length - i))
              (bytes_at m needle 64)) as [q|] eqn:F;
    [|exists NULL; split; [reflexivity | exact I]].
  apply find_ref_sound in F as [Hq Sq].
  destruct (sz_equal_serial m (haystack + Z.of_nat i + Z.of_nat q + Z.of_nat 64)
              (needle + Z.of_nat 64) (needle_length - 64)) eqn:E.
  - exists (Ptr (haystack + Z.of_nat i + Z.of_nat q)).
    split; [reflexivity|]. split; [lia|]. split; [lia|].
    replace needle_length with (64 + (needle_length - 64))%nat by lia.
    apply same_bytes_app; [assumption|].
    now rewrite same_bytes_equal_serial.
  - destruct (IH (S (Z.to_nat (haystack + Z.of_nat i + Z.of_nat q - haystack
                                + Z.of_nat 64 - 1)))) as (r & Er & Hr); [lia|].
    exists r. split; [exact Er|].
    destruct r as [|p]; [exact I|]. split; [lia | apply Hr].
Qed.

End FindLongFacts.

(** Where [char] is unsigned, or the haystack and the needle hold bytes
    below 128, [sz_find_serial] returns for every needle of more than 64
    bytes, and what it returns is [NULL] or a position of the haystack where
    the memory holds every byte of the needle, the first 64 of them inside
    the haystack. *)
Theorem find_serial_long_needle_reports_only_matches {abi : ABI} (m : mem)
  (haystack : Z) (haystack_length : nat) (needle : Z) (needle_length : nat) :
  plain_chars m haystack haystack_length ->
  plain_chars m needle needle_length ->
  (64 < needle_length)%nat ->
  exists r,
    sz_find_serial m haystack haystack_length needle needle_length = Some r
    /\ match r with
       | NULL => True
       | Ptr p =>
           haystack <= p
           /\ p + 64 <= haystack + Z.of_nat haystack_length
           /\ sz_equal_serial m p needle needle_length = true
       end.
Proof.
  intros Hh Hp Hn. unfold sz_find_serial.
  destruct (Nat.ltb_spec haystack_length needle_length) as [Hs|Hl];
    [exists NULL; split; [reflexivity | exact I]|].
  do 9 (destruct needle_length as [|needle_length]; [lia|]).
  destruct (Nat.leb_spec (S (S (S (S (S (S (S (S (S needle_length))))))))) 16); [lia|].
  destruct (Nat.leb_spec (S (S (S (S (S (S (S (S (S needle_length))))))))) 64); [lia|].
  destruct (find_long_spec m haystack haystack_length needle
              (S (S (S (S (S (S (S (S (S needle_length))))))))) Hn Hh Hp
              (S haystack_length) 0) as (r & E & Hr); [lia|].
  exists r. split; [exact E|].
  destruct r as [|p]; [exact I|].
  rewrite <- same_bytes_equal_serial. cbn [Z.of_nat] in Hr. rewrite Z.add_0_r in Hr.
  exact Hr.
Qed.

Lemma find_serial_long_needle_witness :
  exists r,
    sz_find_serial (abi := aarch64_abi) long_needle_case 4096 66 8192 65 = Some r
    /\ match r with
       | NULL => True
       | Ptr p =>
           4096 <= p
           /\ p + 64 <= 4096 + Z.of_nat 66
           /\ sz_equal_serial long_needle_case p 8192 65 = true
       end.
Proof.
  apply (find_serial_long_needle_reports_only_matches (abi := aarch64_abi)
           long_needle_case 4096 66 8192 65).
  - now left.
  - now left.
  - lia.
Defined.

(** ** Helpers of the header *)

(** [sz_i32_min_of_two] is the smaller of two [int]s whenever their
    difference is an [int]. *)
Theorem i32_min_of_two_is_min (x y : Z) :
  - 2 ^ 31 <= x < 2 ^ 31 -> - 2 ^ 31 <= y < 2 ^ 31 ->
  - 2 ^ 31 <= x - y < 2 ^ 31 ->
  sz_i32_min_of_two x y = Some (Z.min x y).
Proof.
  intros Hx Hy Hd. unfold sz_i32_min_of_two, i32_ok. cbv zeta.
  destruct (Z.leb_spec (- 2 ^ 31) (x - y)); [|lia].
  destruct (Z.ltb_spec (x - y) (2 ^ 31)); [|lia]. cbn [andb].
  assert (Z.land (x - y) (Z.shiftr (x - y) 31) = Z.min (x - y) 0) as ->.
  { rewrite Z.shiftr_div_pow2 by lia.
    destruct (Z.lt_ge_cases (x - y) 0) as [N|P].
    - replace ((x - y) / 2 ^ 31) with (-1)
        by (apply Z.div_unique with (r := x - y + 2 ^ 31); lia).
      rewrite Z.land_m1_r. lia.
    - rewrite Z.div_small by lia. rewrite Z.land_0_r. lia. }
  replace (y + Z.min (x - y) 0) with (Z.min x y) by lia.
  destruct (Z.leb_spec (- 2 ^ 31) (Z.min x y)); [|lia].
  destruct (Z.ltb_spec (Z.min x y) (2 ^ 31)); [|lia]. reflexivity.
Qed.

Lemma i32_min_of_two_witness : sz_i32_min_of_two (-7) 5 = Some (Z.min (-7) 5).
Proof. apply (i32_min_of_two_is_min (-7) 5); cbn; lia. Defined.

Lemma u8_char_val {abi : ABI} c : u8 (char_val c) = byte_val c.
Proof.
  pose proof (byte_val_range c) as R. unfold char_val, u8, wrap.
  destruct char_signed; [destruct (Z.leb_spec 128 (byte_val c))|].
  - replace (byte_val c - 256) with (byte_val c + (-1) * 2 ^ 8) by (cbn; lia).
    rewrite Z.mod_add by (cbn; lia). apply Z.mod_small. cbn. lia.
  - apply Z.mod_small. cbn. lia.
  - apply Z.mod_small. cbn. lia.
Qed.

Lemma u32_of_u8s_le_val b0 b1 b2 b3 :
  bytes_ok [b0; b1; b2; b3] -> u32_of_u8s b0 b1 b2 b3 = le_val [b0; b1; b2; b3].
Proof.
  intros H. bytes_bounds H. unfold u32_of_u8s.
  rewrite (lor_shiftl_add b0 b1 8) by pow_lia.
  rewrite (lor_shiftl_add (b0 + b1 * 2 ^ 8) b2 16) by pow_lia.
  rewrite (lor_shiftl_add (b0 + b1 * 2 ^ 8 + b2 * 2 ^ 16) b3 24) by pow_lia.
  cbn [le_val]. pow_lia.
Qed.

Lemma le_load_4 m p :
  le_load m p 4
  = le_val [byte_val (m p); byte_val (m (p + 1)); byte_val (m (p + 2));
            byte_val (m (p + 3))].
Proof.
  rewrite le_load_le_val. cbn [bytes_at map].
  repeat (f_equal; try (f_equal; f_equal; lia)).
Qed.

(** [sz_export_prefix_u32] exports what a four-byte load at [text] reads,
    cut down by the mask to the first [length] bytes when there are fewer
    than four; at [length = 0] it takes the branch of the long strings and
    exports all four bytes. *)
Theorem export_prefix_is_masked_load {abi : ABI} (m : mem) (text : Z)
  (length : nat) :
  let k := if (length =? 0)%nat then 4%nat else Nat.min length 4 in
  let prefix := fst (sz_export_prefix_u32 m text length) in
  let mask := snd (sz_export_prefix_u32 m text length) in
  mask = 2 ^ (8 * Z.of_nat k) - 1
  /\ prefix = Z.land (sz_u32_unaligned_load m text) mask
  /\ prefix = le_load m text k.
Proof.
  pose proof (byte_val_range (m text)) as R0.
  pose proof (byte_val_range (m (text + 1))) as R1.
  pose proof (byte_val_range (m (text + 2))) as R2.
  pose proof (byte_val_range (m (text + 3))) as R3.
  unfold sz_u32_unaligned_load. rewrite le_load_4.
  destruct length as [|[|[|[|n]]]];
    cbn [Nat.eqb Nat.min sz_export_prefix_u32 fst snd]; cbv zeta beta;
    rewrite !u8_char_val, ?Z.add_0_r;
    rewrite !u32_of_u8s_le_val by bytes_ok_tac.
  - split; [reflexivity|]. rewrite le_load_4.
    change 0xFFFFFFFF with (le_val [255; 255; 255; 255]).
    rewrite land_le_val by (reflexivity || bytes_ok_tac).
    cbn [zip_bytes]. rewrite !land_255 by assumption. split; reflexivity.
  - split; [reflexivity|].
    rewrite land_le_val by (reflexivity || bytes_ok_tac).
    cbn [zip_bytes]. rewrite !land_255, !Z.land_0_r by assumption.
    split; [reflexivity|]. cbn [le_load le_val Z.shiftl]. rewrite Z.lor_0_r. lia.
  - split; [reflexivity|].
    rewrite land_le_val by (reflexivity || bytes_ok_tac).
    cbn [zip_bytes]. rewrite !land_255, !Z.land_0_r by assumption.
    split; [reflexivity|]. rewrite le_load_le_val. cbn [bytes_at map le_val]. lia.
  - split; [reflexivity|].
    rewrite land_le_val by (reflexivity || bytes_ok_tac).
    cbn [zip_bytes]. rewrite !land_255, !Z.land_0_r by assumption.
    split; [reflexivity|]. rewrite le_load_le_val. cbn [bytes_at map le_val].
    replace (text + 1 + 1) with (text + 2) by lia. lia.
  - rewrite Nat.min_0_r. split; [reflexivity|]. rewrite le_load_4.
    change 0xFFFFFFFF with (le_val [255; 255; 255; 255]).
    rewrite land_le_val by (reflexivity || bytes_ok_tac).
    cbn [zip_bytes]. rewrite !land_255 by assumption. split; reflexivity.
Qed.

(** Where [char] is unsigned, or the strings hold bytes below 128,
    [sz_order_terminated] on two strings that end with a zero byte gives,
    once the fuel exceeds the shorter length, what [sz_order_serial] gives
    on the same strings with their lengths: their lexicographic order on
    unsigned bytes. *)
Theorem order_terminated_is_order_serial {abi : ABI} (fuel : nat) (m : mem)
  (a : Z) (a_length : nat) (b : Z) (b_length : nat) :
  plain_chars m a a_length -> plain_chars m b b_length ->
  terminated m a a_length -> terminated m b b_length ->
  (Nat.min a_length b_length < fuel)%nat ->
  sz_order_terminated fuel m a b
  = Some (order_ref (bytes_at m a a_length) (bytes_at m b b_length))
  /\ sz_order_terminated fuel m a b = sz_order_serial m a a_length b b_length.
Proof.
  intros Hpa Hpb [Na Za] [Nb Zb] Hf.
  rewrite (order_serial_spec m a a_length b b_length Hpa Hpb).
  assert (Hc : forall k : nat, (k <= Nat.min a_length b_length)%nat ->
            char_val (m (a + Z.of_nat k)) = byte_val (m (a + Z.of_nat k))
            /\ char_val (m (b + Z.of_nat k)) = byte_val (m (b + Z.of_nat k))).
  { intros k Hk. split.
    - destruct (Nat.eq_dec k a_length) as [->|];
        [apply char_val_ascii; lia | apply (plain_char_val m a a_length Hpa); lia].
    - destruct (Nat.eq_dec k b_length) as [->|];
        [apply char_val_ascii; lia | apply (plain_char_val m b b_length Hpb); lia]. }
  assert (sz_order_terminated fuel m a b
          = Some (order_ref (bytes_at m a a_length) (bytes_at m b b_length))) as E;
    [|split; exact E].
  unfold sz_order_terminated.
  set (min_length := Nat.min a_length b_length) in *.
  set (Inv := fun ab : Z * Z =>
    exists k : nat, fst ab = a + Z.of_nat k /\ snd ab = b + Z.of_nat k /\
                    (k <= min_length)%nat /\ bytes_at m a k = bytes_at m b k).
  set (Post := fun r : sz_ordering_t =>
    r = order_ref (bytes_at m a a_length) (bytes_at m b b_length)).
  set (mu := fun ab : Z * Z => Z.to_nat (a + Z.of_nat min_length - fst ab)).
  assert (Hlt : forall k : nat, (k <= min_length)%nat ->
            (byte_val (m (a + Z.of_nat k)) =? 0) = false ->
            (byte_val (m (b + Z.of_nat k)) =? 0) = false ->
            (k < min_length)%nat).
  { intros k Hk Ha Hb. apply Z.eqb_neq in Ha, Hb.
    assert (k <> a_length) by (intros ->; contradiction).
    assert (k <> b_length) by (intros ->; contradiction).
    subst min_length. lia. }
  match goal with |- context [for_loop ?f ?g ?bd ?n (a, b)] =>
    destruct (for_loop_spec g bd n mu Inv Post) with (fuel := f) (s := (a, b))
      as (r1 & E1 & H1) end.
  { intros [a' b'] (k & Ea & Eb & Hk & P) G. cbn [fst snd] in *. subst a' b'.
    destruct (Hc k Hk) as [Ca Cb]. rewrite Ca, Cb in G.
    apply andb_true_iff in G as [G1 G2]. apply negb_true_iff in G1, G2.
    pose proof (Hlt k Hk G1 G2). subst mu. cbn [fst]. lia. }
  { intros [a' b'] (k & Ea & Eb & Hk & P) G. cbn [fst snd] in *. subst a' b'.
    destruct (Hc k Hk) as [Ca Cb]. rewrite Ca, Cb in *.
    apply andb_true_iff in G as [G1 G2]. apply negb_true_iff in G1, G2.
    pose proof (Hlt k Hk G1 G2) as L.
    destruct (order_ref_chunk m a b k 1 a_length b_length) as [Heq Hne];
      [subst min_length; lia | subst min_length; lia | exact P |].
    cbn [bytes_at] in Heq, Hne. rewrite !be_val_one in Heq, Hne.
    destruct (Z.eqb_spec (byte_val (m (a + Z.of_nat k)))
                         (byte_val (m (b + Z.of_nat k)))) as [E|N]; cbn [negb].
    - exists (k + 1)%nat. cbn [fst snd].
      split; [lia|]. split; [lia|]. split; [lia|]. now apply Heq.
    - subst Post. cbv beta. symmetry. now apply Hne. }
  { subst mu. cbn [fst]. lia. }
  { exists 0%nat. cbn [fst snd].
    split; [lia|]. split; [lia|]. split; [lia|]. reflexivity. }
  unfold after. rewrite E1. cbn [bind].
  destruct r1 as [r|[a' b']]; [now rewrite H1|].
  destruct H1 as ((k & Ea & Eb & Hk & P) & G & _). cbn [fst snd] in *. subst a' b'.
  destruct (Hc k Hk) as [Ca Cb]. rewrite Ca, Cb in *. clear Hc Ca Cb.
  assert (forall n, n = Nat.min a_length b_length -> bytes_at m a k = bytes_at m b k ->
            k = n ->
            order_ref (bytes_at m a a_length) (bytes_at m b b_length)
            = if negb (a_length =? b_length)%nat
              then ordering_lookup (a_length <? b_length)%nat else sz_equal_k) as After.
  { intros n -> P' ->. now apply order_ref_after_prefix. }
  destruct (Z.eqb_spec (byte_val (m (a + Z.of_nat k))) 0) as [A0|A1];
    destruct (Z.eqb_spec (byte_val (m (b + Z.of_nat k))) 0) as [B0|B1];
    cbn [andb negb] in *; try discriminate.
  - assert (k = a_length).
    { destruct (Nat.eq_dec k a_length); [assumption|].
      exfalso. apply (Na k); [subst min_length; lia | assumption]. }
    assert (k = b_length).
    { destruct (Nat.eq_dec k b_length); [assumption|].
      exfalso. apply (Nb k); [subst min_length; lia | assumption]. }
    rewrite (After k) by (subst min_length; auto; lia).
    replace b_length with a_length by lia. now rewrite Nat.eqb_refl.
  - assert (k = a_length).
    { destruct (Nat.eq_dec k a_length); [assumption|].
      exfalso. apply (Na k); [subst min_length; lia | assumption]. }
    assert (k <> b_length) by (intros ->; contradiction).
    rewrite (After k) by (subst min_length; auto; lia).
    destruct (Nat.eqb_spec a_length b_length); [lia|]. cbn [negb].
    destruct (Nat.ltb_spec a_length b_length); [reflexivity|].
    subst min_length. lia.
  - assert (k = b_length).
    { destruct (Nat.eq_dec k b_length); [assumption|].
      exfalso. apply (Nb k); [subst min_length; lia | assumption]. }
    assert (k <> a_length) by (intros ->; contradiction).
    rewrite (After k) by (subst min_length; auto; lia).
    destruct (Nat.eqb_spec a_length b_length); [lia|]. cbn [negb].
    destruct (Nat.ltb_spec a_length b_length); [|reflexivity].
    subst min_length. lia.
Qed.

Lemma order_terminated_witness :
  sz_order_terminated (abi := aarch64_abi) 6 terminated_case 4096 8192
  = Some (order_ref (bytes_at terminated_case 4096 5) (bytes_at terminated_case 8192 6))
  /\ sz_order_terminated (abi := aarch64_abi) 6 terminated_case 4096 8192
     = sz_order_serial (abi := aarch64_abi) terminated_case 4096 5 8192 6.
Proof.
  apply (order_terminated_is_order_serial (abi := aarch64_abi)
           6 terminated_case 4096 5 8192 6).
  - now left.
  - now left.
  - split; [|reflexivity].
    intros i Hi. do 5 (destruct i as [|i]; [vm_compute; congruence|]). lia.
  - split; [|reflexivity].
    intros i Hi. do 6 (destruct i as [|i]; [vm_compute; congruence|]). lia.
  - cbn. lia.
Defined.

(** ** The two-byte finder *)

Section Lanes.
Variable k : Z.
Hypothesis k_pos : 0 <= k.

Lemma split_low_k a A : 0 <= a < 2 ^ k -> (a + 2 ^ k * A) mod 2 ^ k = a.
Proof.
  intros H. replace (a + 2 ^ k * A) with (a + A * 2 ^ k) by lia.
  rewrite Z.mod_add by lia. apply Z.mod_small. lia.
Qed.

Lemma split_high_k a A : 0 <= a < 2 ^ k -> Z.shiftr (a + 2 ^ k * A) k = A.
Proof.
  intros H. rewrite Z.shiftr_div_pow2 by lia.
  replace (a + 2 ^ k * A) with (a + A * 2 ^ k) by lia.
  rewrite Z.div_add, (Z.div_small a) by lia. lia.
Qed.

Lemma join_k x : x = x mod 2 ^ k + 2 ^ k * Z.shiftr x k.
Proof.
  rewrite Z.shiftr_div_pow2 by lia.
  assert (0 < 2 ^ k) by (apply Z.pow_pos_nonneg; lia).
  pose proof (Z.div_mod x (2 ^ k)). lia.
Qed.

Lemma split_land_k a A b B :
  0 <= a < 2 ^ k -> 0 <= b < 2 ^ k ->
  Z.land (a + 2 ^ k * A) (b + 2 ^ k * B) = Z.land a b + 2 ^ k * Z.land A B.
Proof.
  intros Ha Hb.
  rewrite (join_k (Z.land _ _)).
  rewrite Z.shiftr_land, !split_high_k by assumption.
  rewrite <- Z.land_ones by lia.
  rewrite <- (Z.land_diag (Z.ones k)) at 1.
  rewrite Z.land_assoc, <- (Z.land_assoc (a + 2 ^ k * A)),
    (Z.land_comm (b + 2 ^ k * B)), Z.land_assoc, <- Z.land_assoc.
  rewrite !Z.land_ones, !split_low_k by (assumption || lia). reflexivity.
Qed.

Lemma split_lxor_k a A b B :
  0 <= a < 2 ^ k -> 0 <= b < 2 ^ k ->
  Z.lxor (a + 2 ^ k * A) (b + 2 ^ k * B) = Z.lxor a b + 2 ^ k * Z.lxor A B.
Proof.
  intros Ha Hb.
  rewrite (join_k (Z.lxor _ _)).
  rewrite Z.shiftr_lxor, !split_high_k by assumption.
  rewrite <- Z.land_ones, land_lxor_distr, !Z.land_ones, !split_low_k
    by (assumption || lia).
  reflexivity.
Qed.

End Lanes.

(** One lane: the comparison leaves the top bit of the lane exactly when
    the two lanes are equal. *)
Lemma lane_flag x c :
  0 <= x < 65536 -> 0 <= c < 65536 ->
  Z.land (Z.land (Z.lxor (Z.lxor x c) 65535) 32767 + 1)
         (Z.land (Z.lxor (Z.lxor x c) 65535) 32768)
  = if x =? c then 32768 else 0.
Proof.
  intros Hx Hc.
  pose proof (lxor_range 16 x c) as R1.
  pose proof (lxor_range 16 (Z.lxor x c) 65535) as R2.
  change (2 ^ 16) with 65536 in *.
  set (y := Z.lxor (Z.lxor x c) 65535) in *.
  assert (Hy : y = 65535 <-> x = c).
  { subst y. split.
    - intros E. apply Z.lxor_eq.
      rewrite <- (Z.lxor_0_r (Z.lxor x c)), <- (Z.lxor_nilpotent 65535).
      rewrite <- Z.lxor_assoc, E. apply Z.lxor_nilpotent.
    - intros ->. now rewrite Z.lxor_nilpotent. }
  change 32767 with (Z.ones 15). rewrite Z.land_ones by lia.
  change 32768 with (2 ^ 15). rewrite (land_pow2 y 15) by lia.
  rewrite (Z.testbit_eqb y 15) by lia.
  assert (0 <= y mod 2 ^ 15 < 2 ^ 15) by (apply Z.mod_pos_bound; cbn; lia).
  assert (y = y mod 2 ^ 15 + 2 ^ 15 * (y / 2 ^ 15))
    by (pose proof (Z.div_mod y (2 ^ 15)); cbn in *; lia).
  assert (0 <= y / 2 ^ 15 < 2).
  { split; [apply Z.div_pos; cbn; lia|].
    apply Z.div_lt_upper_bound; cbn; lia. }
  change (2 ^ 15) with 32768 in *.
  destruct (Z.eqb_spec ((y / 32768) mod 2) 1) as [B|B].
  - assert (y / 32768 = 1).
    { destruct (Z.eq_dec (y / 32768) 0) as [E0|]; [rewrite E0 in B; discriminate|lia]. }
    change 32768 with (2 ^ 15). rewrite land_pow2 by lia.
    rewrite Z.testbit_eqb by lia. change (2 ^ 15) with 32768.
    destruct (Z.eq_dec (y mod 32768) 32767) as [E|N].
    + rewrite E. change ((32767 + 1) / 32768) with 1. cbn [Z.modulo Z.eqb].
      change (1 mod 2 =? 1) with true. cbv iota.
      destruct (Z.eqb_spec x c) as [|N]; [reflexivity|].
      exfalso. apply N, Hy. lia.
    + rewrite (Z.div_small (y mod 32768 + 1)) by lia.
      change (0 mod 2 =? 1) with false. cbv iota.
      destruct (Z.eqb_spec x c) as [E|]; [|reflexivity].
      apply Hy in E. lia.
  - rewrite Z.land_0_r.
    destruct (Z.eqb_spec x c) as [E|]; [|reflexivity].
    apply Hy in E. exfalso. apply B. rewrite E. reflexivity.
Qed.

Lemma each_2byte_equal_step n x X c C :
  0 <= x < 65536 -> 0 <= c < 65536 ->
  each_2byte_equal_n (S n) (x + 65536 * X) (c + 65536 * C)
  = (if x =? c then 32768 else 0) + 65536 * each_2byte_equal_n n X C.
Proof.
  intros Hx Hc. unfold each_2byte_equal_n. cbn [rep_lane].
  pose proof (lxor_range 16 x c) as R1.
  pose proof (lxor_range 16 (Z.lxor x c) 65535) as R2.
  pose proof (land_range 16 (Z.lxor (Z.lxor x c) 65535) 32767) as R3.
  pose proof (land_range 16 (Z.lxor (Z.lxor x c) 65535) 32768) as R4.
  pose proof (land_range 15 32767 (Z.lxor (Z.lxor x c) 65535)) as R5.
  rewrite Z.land_comm in R5.
  change (2 ^ 15) with 32768 in *. change 65536 with (2 ^ 16) in *.
  rewrite (split_lxor_k 16) by lia.
  rewrite (split_lxor_k 16) by lia.
  rewrite !(split_land_k 16) by lia.
  replace (Z.land (Z.lxor (Z.lxor x c) 65535) 32767
           + 2 ^ 16 * Z.land (Z.lxor (Z.lxor X C) (rep_lane 65535 n)) (rep_lane 32767 n)
           + (1 + 2 ^ 16 * rep_lane 1 n))
    with (Z.land (Z.lxor (Z.lxor x c) 65535) 32767 + 1
          + 2 ^ 16 * (Z.land (Z.lxor (Z.lxor X C) (rep_lane 65535 n)) (rep_lane 32767 n)
                      + rep_lane 1 n)) by lia.
  rewrite (split_land_k 16) by (change (2 ^ 16) with 65536; lia).
  rewrite lane_flag by (change (2 ^ 16) with 65536 in *; lia). reflexivity.
Qed.

Lemma each_2byte_equal_flags c : forall l,
  Forall (fun x => 0 <= x < 65536) l -> 0 <= c < 65536 ->
  each_2byte_equal_n (length l) (lanes_val l) (rep_lane c (length l))
  = lane_flags l c.
Proof.
  induction 1 as [|x l Hx Hl IH]; intros Hc; [reflexivity|].
  cbn [length lanes_val rep_lane lane_flags].
  rewrite each_2byte_equal_step, IH by assumption. reflexivity.
Qed.

Lemma each_2byte_equal_is_n a b :
  0 <= a < 2 ^ 64 -> 0 <= b < 2 ^ 64 ->
  sz_u64_each_2byte_equal a b = each_2byte_equal_n 4 a b.
Proof.
  intros Ha Hb. unfold sz_u64_each_2byte_equal, each_2byte_equal_n, not64, add64.
  pose proof (lxor_range 64 a b) as R1.
  rewrite (u64_small (Z.lxor a b)) by lia.
  change max_u64 with (rep_lane 65535 4).
  change 0x7FFF7FFF7FFF7FFF with (rep_lane 32767 4).
  change 0x0001000100010001 with (rep_lane 1 4).
  change 0x8000800080008000 with (rep_lane 32768 4).
  pose proof (land_range 63 (rep_lane 32767 4)
                (Z.lxor (Z.lxor a b) (rep_lane 65535 4))) as R2.
  rewrite Z.land_comm in R2.
  rewrite u64_small; [reflexivity|].
  assert (0 <= rep_lane 32767 4 < 2 ^ 63) by (vm_compute; split; congruence).
  assert (0 <= rep_lane 1 4 < 2 ^ 63) by (vm_compute; split; congruence).
  change (2 ^ 64) with (2 ^ 63 + 2 ^ 63). lia.
Qed.

(** Two bytes as a lane, and the comparison of two such lanes. *)
Lemma lane_eqb x0 x1 c0 c1 :
  0 <= x0 < 256 -> 0 <= x1 < 256 -> 0 <= c0 < 256 -> 0 <= c1 < 256 ->
  (x0 + 256 * x1 =? c0 + 256 * c1) = (x0 =? c0) && (x1 =? c1).
Proof.
  intros. destruct (Z.eqb_spec x0 c0), (Z.eqb_spec x1 c1); cbn [andb];
    first [apply Z.eqb_eq; lia | apply Z.eqb_neq; lia].
Qed.

(** The comparison of a word of eight bytes with a two-byte pattern in each
    lane, by the four lanes that match. *)
Lemma each_2byte_equal_bytes x0 x1 x2 x3 x4 x5 x6 x7 c0 c1 :
  bytes_ok [x0; x1; x2; x3; x4; x5; x6; x7] -> bytes_ok [c0; c1] ->
  sz_u64_each_2byte_equal (le_val [x0; x1; x2; x3; x4; x5; x6; x7])
    (le_val [c0; c1; c0; c1; c0; c1; c0; c1])
  = flags4 ((x0 =? c0) && (x1 =? c1)) ((x2 =? c0) && (x3 =? c1))
           ((x4 =? c0) && (x5 =? c1)) ((x6 =? c0) && (x7 =? c1)).
Proof.
  intros Hx Hc.
  pose proof (le_val_range _ Hx) as Rx.
  assert (bytes_ok [c0; c1; c0; c1; c0; c1; c0; c1]) as Hcc.
  { bytes_bounds Hc. bytes_ok_tac. }
  pose proof (le_val_range _ Hcc) as Rc.
  change (256 ^ Z.of_nat (length [x0; x1; x2; x3; x4; x5; x6; x7]))
    with (2 ^ 64) in Rx.
  change (256 ^ Z.of_nat (length [c0; c1; c0; c1; c0; c1; c0; c1]))
    with (2 ^ 64) in Rc.
  rewrite each_2byte_equal_is_n by assumption.
  bytes_bounds Hx. bytes_bounds Hc.
  replace (le_val [x0; x1; x2; x3; x4; x5; x6; x7])
    with (lanes_val [x0 + 256 * x1; x2 + 256 * x3; x4 + 256 * x5; x6 + 256 * x7])
    by (cbn [le_val lanes_val]; lia).
  replace (le_val [c0; c1; c0; c1; c0; c1; c0; c1])
    with (rep_lane (c0 + 256 * c1) 4) by (cbn [le_val rep_lane]; lia).
  pose proof (each_2byte_equal_flags (c0 + 256 * c1)
                [x0 + 256 * x1; x2 + 256 * x3; x4 + 256 * x5; x6 + 256 * x7]) as F.
  cbn [length] in F. rewrite F.
  - cbn [lane_flags]. rewrite !lane_eqb by lia. reflexivity.
  - repeat (apply Forall_cons; [lia|]). apply Forall_nil.
  - lia.
Qed.

Lemma shr64_bytes_1 x0 x1 x2 x3 x4 x5 x6 x7 :
  bytes_ok [x0; x1; x2; x3; x4; x5; x6; x7] ->
  shr64 (le_val [x0; x1; x2; x3; x4; x5; x6; x7]) 8
  = le_val [x1; x2; x3; x4; x5; x6; x7; 0].
Proof.
  intros ok. pose proof ok as H.
  pose proof (le_val_range _ ok) as R.
  change (256 ^ Z.of_nat (length [x0; x1; x2; x3; x4; x5; x6; x7]))
    with (2 ^ 64) in R.
  bytes_bounds H.
  unfold shr64. rewrite u64_small by assumption.
  rewrite Z.shiftr_div_pow2 by lia.
  replace (le_val [x0; x1; x2; x3; x4; x5; x6; x7])
    with (x0 + le_val [x1; x2; x3; x4; x5; x6; x7; 0] * 2 ^ 8)
    by (cbn [le_val]; pow_lia).
  rewrite Z.div_add by (cbn; lia).
  rewrite Z.div_small by pow_lia. lia.
Qed.

Lemma same_bytes_2 m p p1 q :
  p1 = p + 1 ->
  same_bytes m p q 2
  = (byte_val (m p) =? byte_val (m q))
    && (byte_val (m p1) =? byte_val (m (q + 1))).
Proof.
  intros ->. unfold same_bytes. cbn [bytes_at].
  destruct (list_eq_dec _ _ _) as [E|N].
  - injection E as -> ->. now rewrite !Z.eqb_refl.
  - destruct (Z.eqb_spec (byte_val (m p)) (byte_val (m q))) as [E0|]; [|reflexivity].
    destruct (Z.eqb_spec (byte_val (m (p + 1))) (byte_val (m (q + 1)))) as [E1|];
      [|reflexivity].
    apply byte_val_inj in E0, E1. exfalso. apply N. congruence.
Qed.

(** The words the two-byte kernel combines, by the matches they flag: the
    even lanes flag the offsets 0, 2, 4, 6 and the odd lanes the offsets 1,
    3, 5. *)
Lemma pick2 (e0 e1 e2 e3 e4 e5 e6 : bool) :
  let matches_even := flags4 e0 e2 e4 e6 in
  let matches_odd := flags4 e1 e3 e5 false in
  (add64 matches_even matches_odd =? 0)
  = negb (e0 || e1 || e2 || e3 || e4 || e5 || e6)
  /\ sz_ctz64 (Z.lor (shr64 matches_even 8) matches_odd) / 8
     = if e0 then 0 else if e1 then 1 else if e2 then 2 else if e3 then 3
       else if e4 then 4 else if e5 then 5 else if e6 then 6 else 8.
Proof.
  destruct e0, e1, e2, e3, e4, e5, e6; vm_compute; split; reflexivity.
Qed.

(** ** The two-byte finder *)

Section Find2Facts.
Context {abi : ABI}.
Variables (m : mem) (haystack : Z) (haystack_length : nat) (needle : Z).
Hypothesis second_byte : byte_val (m (needle + 1)) <> 0.

Lemma u8_byte x : 0 <= x < 256 -> u8 x = x.
Proof. intros H. unfold u8, wrap. apply Z.mod_small. cbn. lia. Qed.

Lemma broadcast_2byte :
  let needle_vec := 0 in
  let needle_vec := set_u8 needle_vec 0 (u8 (char_val (m needle))) in
  let needle_vec := set_u8 needle_vec 1 (u8 (char_val (m (needle + 1)))) in
  mul64 needle_vec 0x0001000100010001
  = le_val [byte_val (m needle); byte_val (m (needle + 1));
            byte_val (m needle); byte_val (m (needle + 1));
            byte_val (m needle); byte_val (m (needle + 1));
            byte_val (m needle); byte_val (m (needle + 1))].
Proof.
  cbv zeta. rewrite !u8_char_val.
  pose proof (byte_val_range (m needle)) as R0.
  pose proof (byte_val_range (m (needle + 1))) as R1.
  generalize dependent (byte_val (m needle)). intros c0 R0.
  generalize dependent (byte_val (m (needle + 1))). intros c1 _ R1.
  unfold set_u8. rewrite !(u8_byte c0), !(u8_byte c1) by assumption.
  change (u64 0) with 0. rewrite Z.land_0_l.
  change (8 * 0) with 0. rewrite Z.shiftl_0_r.
  change (Z.lor 0 c0) with c0.
  rewrite (u64_small c0) by word_lia.
  change (not64 (Z.shiftl 255 (8 * 1))) with 0xFFFFFFFFFFFF00FF.
  assert (Z.land c0 0xFFFFFFFFFFFF00FF = c0) as ->.
  { rewrite <- (land_255 c0) at 1 by assumption.
    rewrite <- Z.land_assoc.
    change (Z.land 255 0xFFFFFFFFFFFF00FF) with 255. now apply land_255. }
  change (8 * 1) with 8.
  rewrite (lor_shiftl_add c0 c1 8) by pow_lia.
  unfold mul64. rewrite u64_small by pow_lia.
  cbn [le_val]. pow_lia.
Qed.

Lemma same2_same_bytes text :
  char_eq m text needle && char_eq m (text + 1) (needle + 1)
  = same_bytes m text needle 2.
Proof.
  rewrite (same_bytes_2 m text (text + 1)) by reflexivity.
  unfold char_eq. now rewrite <- !byte_val_eqb.
Qed.

Lemma swar2_indicators text :
  let needle_vec := 0 in
  let needle_vec := set_u8 needle_vec 0 (u8 (char_val (m needle))) in
  let needle_vec := set_u8 needle_vec 1 (u8 (char_val (m (needle + 1)))) in
  let needle_vec := mul64 needle_vec 0x0001000100010001 in
  let text_vec := sz_u64_unaligned_load m text in
  let hit := fun k => same_bytes m (text + k) needle 2 in
  sz_u64_each_2byte_equal text_vec needle_vec
  = flags4 (same_bytes m text needle 2) (hit 2) (hit 4) (hit 6)
  /\ sz_u64_each_2byte_equal (shr64 text_vec 8) needle_vec
     = flags4 (hit 1) (hit 3) (hit 5) false.
Proof.
  cbv zeta. rewrite broadcast_2byte. unfold sz_u64_unaligned_load.
  rewrite le_load_8, shr64_bytes_1 by bytes_ok_tac.
  rewrite !each_2byte_equal_bytes by bytes_ok_tac.
  rewrite (same_bytes_2 m text (text + 1)),
    (same_bytes_2 m (text + 2) (text + 3)),
    (same_bytes_2 m (text + 4) (text + 5)),
    (same_bytes_2 m (text + 6) (text + 7)),
    (same_bytes_2 m (text + 1) (text + 2)),
    (same_bytes_2 m (text + 3) (text + 4)),
    (same_bytes_2 m (text + 5) (text + 6)) by lia.
  split; [reflexivity|].
  destruct (Z.eqb_spec 0 (byte_val (m (needle + 1)))) as [E|]; [congruence|].
  now rewrite andb_false_r.
Qed.

Lemma same2_step text :
  unseen m haystack needle 2 text -> haystack <= text ->
  text + 2 <= haystack + Z.of_nat haystack_length ->
  match (if char_eq m text needle && char_eq m (text + 1) (needle + 1)
         then Some (Ptr text) else None) with
  | Some r => r = found m haystack haystack_length needle 2
  | None => unseen m haystack needle 2 (text + 1)
  end.
Proof.
  intros U H1 H2. rewrite same2_same_bytes.
  destruct (same_bytes m text needle 2) eqn:E.
  - apply found_at; auto.
  - apply unseen_next; [assumption|lia|].
    intros j Hj. replace (Z.of_nat j) with 0 by lia. now rewrite Z.add_0_r.
Qed.

Lemma swar2_step text :
  unseen m haystack needle 2 text -> haystack <= text ->
  text + 8 <= haystack + Z.of_nat haystack_length ->
  match (let needle_vec := 0 in
         let needle_vec := set_u8 needle_vec 0 (u8 (char_val (m needle))) in
         let needle_vec := set_u8 needle_vec 1 (u8 (char_val (m (needle + 1)))) in
         let needle_vec := mul64 needle_vec 0x0001000100010001 in
         let text_vec := sz_u64_unaligned_load m text in
         let matches_even_vec := sz_u64_each_2byte_equal text_vec needle_vec in
         let matches_odd_vec :=
           sz_u64_each_2byte_equal (shr64 text_vec 8) needle_vec in
         if negb (add64 matches_even_vec matches_odd_vec =? 0) then
           let match_indicators :=
             Z.lor (shr64 matches_even_vec 8) matches_odd_vec in
           Some (Ptr (text + sz_ctz64 match_indicators / 8))
         else None) with
  | Some r => r = found m haystack haystack_length needle 2
  | None => unseen m haystack needle 2 (text + 7)
  end.
Proof.
  intros U H1 H2. cbv zeta.
  destruct (swar2_indicators text) as (F1 & F2). cbv zeta in F1, F2.
  rewrite F1, F2. clear F1 F2.
  destruct (pick2 (same_bytes m text needle 2) (same_bytes m (text + 1) needle 2)
              (same_bytes m (text + 2) needle 2) (same_bytes m (text + 3) needle 2)
              (same_bytes m (text + 4) needle 2) (same_bytes m (text + 5) needle 2)
              (same_bytes m (text + 6) needle 2))
    as [Ez Ec].
  cbv zeta in Ez, Ec. rewrite Ez, Ec. clear Ez Ec.
  destruct (same_bytes m text needle 2) eqn:E0;
    [|destruct (same_bytes m (text + 1) needle 2) eqn:E1;
      [|destruct (same_bytes m (text + 2) needle 2) eqn:E2;
        [|destruct (same_bytes m (text + 3) needle 2) eqn:E3;
          [|destruct (same_bytes m (text + 4) needle 2) eqn:E4;
            [|destruct (same_bytes m (text + 5) needle 2) eqn:E5;
              [|destruct (same_bytes m (text + 6) needle 2) eqn:E6]]]]]];
    cbn [orb negb];
    try (apply found_at; [apply unseen_next; [assumption|lia|] |lia|lia|
                          rewrite ?Z.add_0_r; assumption]);
    try (apply unseen_next; [assumption|lia|]);
    intros j Hj;
    do 7 (destruct j as [|j];
          [cbn [Z.of_nat Pos.of_succ_nat Pos.succ]; rewrite ?Z.add_0_r;
           first [assumption | lia]|]);
    lia.
Qed.

Lemma find_2byte_spec :
  sz_find_2byte_serial m haystack haystack_length needle
  = Some (found m haystack haystack_length needle 2).
Proof.
  unfold sz_find_2byte_serial.
  set (end_ := haystack + Z.of_nat haystack_length).
  set (mu := fun text : Z => Z.to_nat (end_ - text)).
  set (Inv := fun text : Z =>
    haystack <= text <= Z.max haystack end_ /\ unseen m haystack needle 2 text).
  set (Post := fun r : sz_cptr_t => r = found m haystack haystack_length needle 2).
  scan_loop mu Inv Post.
  { intros t _ G. guard_facts G. subst mu. cbv beta. lia. }
  { intros t [B U] G. guard_facts G.
    pose proof (swar2_step t U) as St. cbv zeta in St |- *.
    match goal with |- match (if ?c then _ else _) with _ => _ end =>
      destruct c end; [apply St; lia|].
    split; [lia | apply St; lia]. }
  { subst mu end_. cbv beta. lia. }
  { split; [subst end_; lia | apply unseen_start]. }
  destruct H as [B U].
  scan_loop mu Inv Post.
  { intros t _ G'. guard_facts G'. subst mu. cbv beta. lia. }
  { intros t [B' U'] G'. guard_facts G'.
    pose proof (same2_step t U') as St.
    match goal with |- match (if ?c then _ else _) with _ => _ end =>
      destruct c end; [apply St; lia|].
    split; [lia | apply St; lia]. }
  { subst mu end_. cbv beta. lia. }
  { split; assumption. }
  destruct H as [B' U'].
  f_equal.
  match goal with G : (?t + 2 <=? end_) = false |- _ =>
    apply (found_nothing _ _ _ _ _ t); [assumption|];
    apply Z.leb_gt in G; subst end_; lia
  end.
Qed.

End Find2Facts.

(** [sz_find_serial] returns the first occurrence of every two-byte needle
    whose second byte is not zero, and [NULL] when the needle does not
    occur, whatever the signedness of [char]. *)
Theorem find_serial_two_bytes_without_nul {abi : ABI} (m : mem)
  (haystack : Z) (haystack_length : nat) (needle : Z) :
  byte_val (m (needle + 1)) <> 0 ->
  sz_find_serial m haystack haystack_length needle 2
  = Some match find_ref (bytes_at m haystack haystack_length)
                 (bytes_at m needle 2) with
         | Some q => Ptr (haystack + Z.of_nat q)
         | None => NULL
         end.
Proof.
  intros Hn. unfold sz_find_serial.
  destruct (Nat.ltb_spec haystack_length 2) as [Hs|Hl].
  { now rewrite find_ref_too_short. }
  now apply find_2byte_spec.
Qed.

Lemma find_serial_two_bytes_witness :
  sz_find_serial (abi := x86_64_abi) fox_case 4096 25 8192 2
  = Some match find_ref (bytes_at fox_case 4096 25) (bytes_at fox_case 8192 2) with
         | Some q => Ptr (4096 + Z.of_nat q)
         | None => NULL
         end.
Proof.
  apply (find_serial_two_bytes_without_nul (abi := x86_64_abi) fox_case 4096 25 8192).
  vm_compute. congruence.
Defined.

(** ** Character transforms *)

(** C9, at the byte "A".  The rows of [upped] for 'A'..'Z' repeat those
    of [lowered]: [sz_char_toupper] maps every capital letter to its small
    letter instead of leaving it unchanged. *)
Theorem toupper_turns_capitals_into_small_letters (abi : ABI) :
  sz_char_toupper "A"%byte = Some "a"%byte
  /\ sz_char_toupper "Z"%byte = Some "z"%byte
  /\ sz_char_tolower "A"%byte = Some "a"%byte.
Proof. destruct abi as [[|]]; vm_compute; repeat split; reflexivity. Qed.

(** The part of C9 that holds: [sz_char_tolower] maps 'A'..'Z' to
    'a'..'z' and leaves 'a'..'z' unchanged, and [sz_char_toupper] maps
    'a'..'z' to 'A'..'Z'. *)
Theorem tolower_folds_ascii_letters (abi : ABI) (c : byte) :
  65 <= byte_val c <= 90 \/ 97 <= byte_val c <= 122 ->
  sz_char_tolower c
    = Some (if byte_val c <=? 90 then byte_of_Z (byte_val c + 32) else c)
  /\ (97 <= byte_val c -> sz_char_toupper c = Some (byte_of_Z (byte_val c - 32))).
Proof.
  intros H. destruct abi as [[|]]; destruct c; vm_compute in H;
    first [ exfalso; clear - H; intuition congruence
          | split; [vm_compute; reflexivity | intros H'; vm_compute in H' |- *;
                    first [reflexivity | exfalso; congruence]] ].
Qed.

Lemma tolower_folds_ascii_letters_witness :
  sz_char_tolower (abi := x86_64_abi) "Q"%byte = Some "q"%byte
  /\ (97 <= byte_val "Q"%byte ->
      sz_char_toupper (abi := x86_64_abi) "Q"%byte = Some (byte_of_Z (byte_val "Q"%byte - 32))).
Proof.
  apply (tolower_folds_ascii_letters x86_64_abi "Q"%byte).
  left. vm_compute. split; congruence.
Defined.

(** C10, at the byte 0xE9 where [char] is signed.  [(int)c] is -23, so
    [lowered[(int)c]] and [upped[(int)c]] are read 23 bytes before the
    tables, although both tables hold entries for the bytes 128..255. *)
Theorem table_index_is_negative_for_high_bytes :
  table_index (abi := x86_64_abi) "233"%byte = -23
  /\ sz_char_tolower (abi := x86_64_abi) "233"%byte = None
  /\ sz_char_toupper (abi := x86_64_abi) "233"%byte = None
  /\ sz_tolower_serial (abi := x86_64_abi) (mem_of [(4096, [233])]) 4096 1 4096
     = None.
Proof. vm_compute; repeat split; reflexivity. Qed.

(** Where [char] is unsigned the index is the byte itself, and both reads
    are inside the tables. *)
Theorem table_index_in_bounds_when_char_is_unsigned (c : byte) :
  0 <= table_index (abi := aarch64_abi) c <= 255
  /\ (exists r, sz_char_tolower (abi := aarch64_abi) c = Some r)
  /\ (exists r, sz_char_toupper (abi := aarch64_abi) c = Some r).
Proof.
  destruct c; vm_compute; (split; [split; congruence | split; eexists; reflexivity]).
Qed.

(** ** The loops of the character transforms *)

Lemma transform_spec (f : byte -> option byte) (g : byte -> byte) :
  forall length m text result,
  forward_safe text length result ->
  (forall i : nat, (i < length)%nat ->
     f (m (text + Z.of_nat i)) = Some (g (m (text + Z.of_nat i)))) ->
  exists m',
    transform f length m text result = Some m'
    /\ (forall i : nat, (i < length)%nat ->
          m' (result + Z.of_nat i) = g (m (text + Z.of_nat i)))
    /\ (forall q, q < result \/ result + Z.of_nat length <= q -> m' q = m q).
Proof.
  induction length as [|n IH]; intros m text result Hs Hf.
  { exists m. split; [reflexivity|]. split; [intros i Hi; lia | reflexivity]. }
  cbn [transform].
  pose proof (Hf 0%nat ltac:(lia)) as F0. rewrite Z.add_0_r in F0.
  rewrite F0. cbn [bind].
  set (m1 := mem_set m result (g (m text))).
  assert (Hm1 : forall i : nat, (i < n)%nat ->
            m1 (text + 1 + Z.of_nat i) = m (text + Z.of_nat (S i))).
  { intros i Hi. subst m1. unfold mem_set, forward_safe in *.
    destruct (Z.eqb_spec (text + 1 + Z.of_nat i) result); [lia|]. f_equal. lia. }
  destruct (IH m1 (text + 1) (result + 1)) as (m' & E & Hw & Hr).
  { unfold forward_safe in *. lia. }
  { intros i Hi. rewrite Hm1 by assumption. apply Hf. lia. }
  exists m'. split; [exact E|]. split.
  - intros [|i] Hi.
    + cbn [Z.of_nat]. rewrite !Z.add_0_r, Hr by lia. subst m1. unfold mem_set.
      now rewrite Z.eqb_refl.
    + replace (result + Z.of_nat (S i)) with (result + 1 + Z.of_nat i) by lia.
      rewrite Hw, Hm1 by lia. reflexivity.
  - intros q Hq. rewrite Hr by lia. subst m1. unfold mem_set.
    destruct (Z.eqb_spec q result); [lia|reflexivity].
Qed.

Lemma tolower_is_lower_of {abi : ABI} c :
  char_signed = false \/ byte_val c < 128 ->
  sz_char_tolower c = Some (lower_of c).
Proof.
  intros H. destruct abi as [[|]]; destruct c; vm_compute in H;
    first [reflexivity | exfalso; clear - H; intuition congruence].
Qed.

Lemma toupper_is_upper_of {abi : ABI} c :
  char_signed = false \/ byte_val c < 128 ->
  sz_char_toupper c = Some (upper_of c).
Proof.
  intros H. destruct abi as [[|]]; destruct c; vm_compute in H;
    first [reflexivity | exfalso; clear - H; intuition congruence].
Qed.

Lemma lower_of_idempotent c : lower_of (lower_of c) = lower_of c.
Proof. destruct c; reflexivity. Qed.

Lemma lower_of_no_capital c : ~ 65 <= byte_val (lower_of c) <= 90.
Proof. destruct c; vm_compute; intuition congruence. Qed.

Lemma lower_of_ascii c : byte_val c < 128 -> byte_val (lower_of c) < 128.
Proof. destruct c; vm_compute; intuition congruence. Qed.

Lemma upper_of_small_letter c :
  97 <= byte_val c <= 122 -> byte_val (upper_of c) = byte_val c - 32.
Proof.
  intros H. destruct c; vm_compute in H;
    first [reflexivity | exfalso; clear - H; intuition congruence].
Qed.

Lemma toascii_byte {abi : ABI} c :
  byte_val (byte_of_Z (Z.land (char_val c) 0x7F)) = Z.land (byte_val c) 127
  /\ Z.land (byte_val c) 127 < 128.
Proof. destruct abi as [[|]]; destruct c; vm_compute; split; reflexivity. Qed.

(** ** Character transforms on buffers *)

(** [sz_tolower_serial] writes [length] bytes, each the entry of the table
    for the byte of the text at the same offset, so that no capital ASCII
    letter is left, and changes no other byte.  This holds in place and for
    every result buffer that a front-to-back pass does not run into, where
    [char] is unsigned or the text is ASCII. *)
Theorem tolower_serial_folds_every_byte {abi : ABI} (m : mem) (text : Z)
  (length : nat) (result : Z) :
  (char_signed = false
   \/ forall i : nat, (i < length)%nat -> byte_val (m (text + Z.of_nat i)) < 128) ->
  forward_safe text length result ->
  exists m',
    sz_tolower_serial m text length result = Some m'
    /\ (forall i : nat, (i < length)%nat ->
          m' (result + Z.of_nat i) = lower_of (m (text + Z.of_nat i))
          /\ ~ 65 <= byte_val (m' (result + Z.of_nat i)) <= 90)
    /\ (forall q, q < result \/ result + Z.of_nat length <= q -> m' q = m q).
Proof.
  intros Hc Hs.
  destruct (transform_spec sz_char_tolower lower_of length m text result Hs)
    as (m' & E & Hw & Hr).
  { intros i Hi. apply tolower_is_lower_of. destruct Hc as [Hc|Hc]; auto. }
  exists m'. split; [exact E|]. split; [|exact Hr].
  intros i Hi. rewrite Hw by assumption. split; [reflexivity|].
  apply lower_of_no_capital.
Qed.

Lemma tolower_serial_witness :
  exists m',
    sz_tolower_serial (abi := x86_64_abi) shout_case 4096 12 4096 = Some m'
    /\ (forall i : nat, (i < 12)%nat ->
          m' (4096 + Z.of_nat i) = lower_of (shout_case (4096 + Z.of_nat i))
          /\ ~ 65 <= byte_val (m' (4096 + Z.of_nat i)) <= 90)
    /\ (forall q, q < 4096 \/ 4096 + Z.of_nat 12 <= q -> m' q = shout_case q).
Proof.
  apply (tolower_serial_folds_every_byte (abi := x86_64_abi) shout_case 4096 12 4096).
  - right. intros i Hi.
    do 12 (destruct i as [|i]; [vm_compute; reflexivity|]). lia.
  - left. lia.
Defined.

(** A second pass of [sz_tolower_serial] over its own result, in place,
    changes nothing. *)
Theorem tolower_serial_twice_is_once {abi : ABI} (m : mem) (text : Z)
  (length : nat) (result : Z) :
  (char_signed = false
   \/ forall i : nat, (i < length)%nat -> byte_val (m (text + Z.of_nat i)) < 128) ->
  forward_safe text length result ->
  exists m1 m2,
    sz_tolower_serial m text length result = Some m1
    /\ sz_tolower_serial m1 result length result = Some m2
    /\ forall q, m2 q = m1 q.
Proof.
  intros Hc Hs.
  destruct (transform_spec sz_char_tolower lower_of length m text result Hs)
    as (m1 & E1 & Hw1 & Hr1).
  { intros i Hi. apply tolower_is_lower_of. destruct Hc as [Hc|Hc]; auto. }
  destruct (transform_spec sz_char_tolower lower_of length m1 result result)
    as (m2 & E2 & Hw2 & Hr2).
  { left. lia. }
  { intros i Hi. apply tolower_is_lower_of. destruct Hc as [Hc|Hc]; auto.
    right. rewrite Hw1 by assumption. apply lower_of_ascii. auto. }
  exists m1, m2. split; [exact E1|]. split; [exact E2|].
  intros q.
  destruct (Z.lt_ge_cases q result) as [L|G]; [apply Hr2; lia|].
  destruct (Z.lt_ge_cases q (result + Z.of_nat length)) as [L|G'];
    [|apply Hr2; lia].
  replace q with (result + Z.of_nat (Z.to_nat (q - result))) by lia.
  rewrite Hw2, Hw1 by lia. apply lower_of_idempotent.
Qed.

Lemma tolower_serial_twice_witness :
  exists m1 m2,
    sz_tolower_serial (abi := aarch64_abi) shout_case 4096 12 8192 = Some m1
    /\ sz_tolower_serial (abi := aarch64_abi) m1 8192 12 8192 = Some m2
    /\ forall q, m2 q = m1 q.
Proof.
  apply (tolower_serial_twice_is_once (abi := aarch64_abi) shout_case 4096 12 8192).
  - left. reflexivity.
  - right. lia.
Defined.

(** [sz_toupper_serial] writes [length] bytes, each the entry of its table
    for the byte of the text at the same offset, so that every small ASCII
    letter becomes its capital, and changes no other byte (under the
    conditions of [sz_tolower_serial]). *)
Theorem toupper_serial_maps_every_byte {abi : ABI} (m : mem) (text : Z)
  (length : nat) (result : Z) :
  (char_signed = false
   \/ forall i : nat, (i < length)%nat -> byte_val (m (text + Z.of_nat i)) < 128) ->
  forward_safe text length result ->
  exists m',
    sz_toupper_serial m text length result = Some m'
    /\ (forall i : nat, (i < length)%nat ->
          m' (result + Z.of_nat i) = upper_of (m (text + Z.of_nat i))
          /\ (97 <= byte_val (m (text + Z.of_nat i)) <= 122 ->
              byte_val (m' (result + Z.of_nat i))
              = byte_val (m (text + Z.of_nat i)) - 32))
    /\ (forall q, q < result \/ result + Z.of_nat length <= q -> m' q = m q).
Proof.
  intros Hc Hs.
  destruct (transform_spec sz_char_toupper upper_of length m text result Hs)
    as (m' & E & Hw & Hr).
  { intros i Hi. apply toupper_is_upper_of. destruct Hc as [Hc|Hc]; auto. }
  exists m'. split; [exact E|]. split; [|exact Hr].
  intros i Hi. rewrite Hw by assumption. split; [reflexivity|].
  apply upper_of_small_letter.
Qed.

Lemma toupper_serial_witness :
  exists m',
    sz_toupper_serial (abi := aarch64_abi) shout_case 4096 12 4096 = Some m'
    /\ (forall i : nat, (i < 12)%nat ->
          m' (4096 + Z.of_nat i) = upper_of (shout_case (4096 + Z.of_nat i))
          /\ (97 <= byte_val (shout_case (4096 + Z.of_nat i)) <= 122 ->
              byte_val (m' (4096 + Z.of_nat i))
              = byte_val (shout_case (4096 + Z.of_nat i)) - 32))
    /\ (forall q, q < 4096 \/ 4096 + Z.of_nat 12 <= q -> m' q = shout_case q).
Proof.
  apply (toupper_serial_maps_every_byte (abi := aarch64_abi) shout_case 4096 12 4096).
  - left. reflexivity.
  - left. lia.
Defined.

(** [sz_toascii_serial] writes [length] bytes, each the byte of the text at
    the same offset with its top bit cleared, whatever the signedness of
    [char], and changes no other byte. *)
Theorem toascii_serial_clears_top_bits {abi : ABI} (m : mem) (text : Z)
  (length : nat) (result : Z) :
  forward_safe text length result ->
  exists m',
    sz_toascii_serial m text length result = Some m'
    /\ (forall i : nat, (i < length)%nat ->
          byte_val (m' (result + Z.of_nat i))
          = Z.land (byte_val (m (text + Z.of_nat i))) 127
          /\ byte_val (m' (result + Z.of_nat i)) < 128)
    /\ (forall q, q < result \/ result + Z.of_nat length <= q -> m' q = m q).
Proof.
  intros Hs. unfold sz_toascii_serial.
  destruct (transform_spec (fun c => Some (byte_of_Z (Z.land (char_val c) 0x7F)))
              (fun c => byte_of_Z (Z.land (char_val c) 0x7F))
              length m text result Hs) as (m' & E & Hw & Hr).
  { reflexivity. }
  exists m'. split; [exact E|]. split; [|exact Hr].
  intros i Hi. rewrite Hw by assumption.
  destruct (toascii_byte (m (text + Z.of_nat i))) as [B1 B2].
  rewrite B1. split; [reflexivity | exact B2].
Qed.

Lemma toascii_serial_witness :
  exists m',
    sz_toascii_serial (abi := x86_64_abi) shout_case 4096 12 4090 = Some m'
    /\ (forall i : nat, (i < 12)%nat ->
          byte_val (m' (4090 + Z.of_nat i))
          = Z.land (byte_val (shout_case (4096 + Z.of_nat i))) 127
          /\ byte_val (m' (4090 + Z.of_nat i)) < 128)
    /\ (forall q, q < 4090 \/ 4090 + Z.of_nat 12 <= q -> m' q = shout_case q).
Proof.
  apply (toascii_serial_clears_top_bits (abi := x86_64_abi) shout_case 4096 12 4090).
  left. lia.
Defined.

